(** * Artificial neuron simulator: evaluation pipeline and input editing

    A shallow embedding of the React components of the repository:
    [app/components/ArtificialNeuron.tsx] (aggregation, bias, activation,
    input editing, parameter fields, the graph with its coordinate map,
    sampled curve and marker) and the earlier variant of the same component
    that carries the pan/zoom viewport.

    JavaScript numbers are IEEE 754 binary64 values; they are modelled by
    Rocq's primitive [float], whose operations are the same binary64
    operations and evaluate inside the logic.  The functions that the
    JavaScript host supplies and that are not arithmetic on binary64
    ([Math.exp], [Math.tanh], [parseFloat]) are parameters of the model. *)

From Stdlib Require Import ZArith List String Bool Lia FinFun.
From Stdlib Require Import Decimal DecimalString DecimalNat.
From Stdlib Require Import Floats.
Import ListNotations.

#[local] Set Warnings "-inexact-float".

(** ** The fragment of ECMAScript the components use *)

Module JS.

Definition number := float.
Bind Scope float_scope with number.

(** [x === y] and [x !== y] on numbers: IEEE equality, so [NaN] differs
    from everything and the two zeros are equal. *)
Definition strict_eq (x y : number) : bool := (x =? y)%float.
Definition strict_neq (x y : number) : bool := negb (x =? y)%float.

(** [isNaN(x)] on a number. *)
Definition isNaN (x : number) : bool := is_nan x.

(** [x >= y] and [x > y]. *)
Definition geb (x y : number) : bool := (y <=? x)%float.
Definition gtb (x y : number) : bool := (y <? x)%float.

(** The falsy numbers are [0], [-0] and [NaN]; [x || y] keeps a truthy [x]. *)
Definition falsy (x : number) : bool := is_nan x || is_zero x.
Definition or_else (x y : number) : number := if falsy x then y else x.

Definition is_pos_zero (x : number) : bool := is_zero x && negb (get_sign x).
Definition is_neg_zero (x : number) : bool := is_zero x && get_sign x.

(** [Math.max(...args)]: start from [-Infinity]; a [NaN] argument makes the
    result [NaN]; [+0] is larger than [-0]. *)
Fixpoint Math_max_from (highest : number) (args : list number) : number :=
  match args with
  | [] => highest
  | n :: rest =>
      if is_nan n then nan
      else
        let highest :=
          if is_pos_zero n && is_neg_zero highest then zero else highest in
        let highest := if (highest <? n)%float then n else highest in
        Math_max_from highest rest
  end.

Definition Math_max (args : list number) : number :=
  Math_max_from neg_infinity args.

(** [Math.min(...args)]: start from [+Infinity]; [-0] is smaller than [+0]. *)
Fixpoint Math_min_from (lowest : number) (args : list number) : number :=
  match args with
  | [] => lowest
  | n :: rest =>
      if is_nan n then nan
      else
        let lowest :=
          if is_neg_zero n && is_pos_zero lowest then neg_zero else lowest in
        let lowest := if (n <? lowest)%float then n else lowest in
        Math_min_from lowest rest
  end.

Definition Math_min (args : list number) : number :=
  Math_min_from infinity args.

(** [lo <= x && x <= hi]. *)
Definition between (lo hi x : number) : bool := (lo <=? x)%float && (x <=? hi)%float.

(** [n.toString()] for an array length: its decimal digits. *)
Definition toString (n : nat) : string :=
  NilEmpty.string_of_uint (Nat.to_uint n).

(** [array.reduce(f, init)]. *)
Definition reduce {A B : Type} (f : B -> A -> B) (init : B) (l : list A) : B :=
  fold_left f l init.

End JS.

(** ** [ArtificialNeuron.tsx] *)

Module Neuron.
Import JS.

Record Input := { id : string; value : number; weight : number }.

(** The [formula] member of an aggregation function and the [derivative]
    member of an activation function only feed the display; the evaluation
    reads [name] and [fn]. *)
Module AggregationFunction.
Record t := { name : string; fn : list Input -> number }.
End AggregationFunction.

Module ActivationFunction.
Record t := { name : string; fn : number -> number }.
End ActivationFunction.

Definition Sum : AggregationFunction.t :=
  {| AggregationFunction.name := "Sum";
     AggregationFunction.fn := fun inputs =>
       reduce (fun sum input => (sum + (value input * weight input))%float)
              0%float inputs |}.

Definition Product : AggregationFunction.t :=
  {| AggregationFunction.name := "Product";
     AggregationFunction.fn := fun inputs =>
       reduce (fun prod input => (prod * (value input * weight input))%float)
              1%float inputs |}.

Definition Maximum : AggregationFunction.t :=
  {| AggregationFunction.name := "Maximum";
     AggregationFunction.fn := fun inputs =>
       Math_max (map (fun input => (value input * weight input)%float) inputs) |}.

Definition Minimum : AggregationFunction.t :=
  {| AggregationFunction.name := "Minimum";
     AggregationFunction.fn := fun inputs =>
       Math_min (map (fun input => (value input * weight input)%float) inputs) |}.

Definition aggregationFunctions : list AggregationFunction.t :=
  [Sum; Product; Maximum; Minimum].

Definition Step : ActivationFunction.t :=
  {| ActivationFunction.name := "Step";
     ActivationFunction.fn := fun x => if geb x 0%float then 1%float else 0%float |}.

Definition Sign : ActivationFunction.t :=
  {| ActivationFunction.name := "Sign";
     ActivationFunction.fn := fun x => if gtb x 0%float then 1%float else (-1)%float |}.

Definition Linear : ActivationFunction.t :=
  {| ActivationFunction.name := "Linear";
     ActivationFunction.fn := fun x => x |}.

(** The component keeps its state in independent [useState] cells
    ([inputs], [selectedAggregation], [selectedFunction], [theta],
    [linearSlope], [sigmoidGain] and the text of the three number fields).
    A handler is modelled by the new content of the cells it sets, as a
    function of the cells it reads; a memoised value by a function of its
    dependency list. *)

Definition initialInputs : list Input :=
  [ {| id := "1"; value := 0%float; weight := 1%float |};
    {| id := "2"; value := 0%float; weight := 1%float |} ].

(** The fields an input row edits. *)
Inductive Field := Value | Weight.

Definition setField (field : Field) (n : number) (input : Input) : Input :=
  match field with
  | Value => {| id := id input; value := n; weight := weight input |}
  | Weight => {| id := id input; value := value input; weight := n |}
  end.

(** What an edit of [field] aimed at [id0] may change in one row: not the
    identifier, not the other field, and nothing when the row is not the
    one aimed at. *)
Definition edited (id0 : string) (field : Field) (old new : Input) : Prop :=
  id new = id old
  /\ match field with
     | Value => weight new = weight old
     | Weight => value new = value old
     end
  /\ (id old <> id0 -> new = old).

(** [addInput]: the new identifier is the length plus one, in decimal. *)
Definition addInput (inputs : list Input) : list Input :=
  let newId := toString (List.length inputs + 1) in
  inputs ++ [ {| id := newId; value := 0%float; weight := 1%float |} ].

(** [removeInput]: guarded by [inputs.length > 1]; drops every input whose
    identifier is [id]. *)
Definition removeInput (id0 : string) (inputs : list Input) : list Input :=
  if (1 <? List.length inputs)%nat
  then filter (fun input => negb (String.eqb (id input) id0)) inputs
  else inputs.

(** The [+ Add Input] button is disabled once there are ten inputs, so a
    click reaches [addInput] only below that. *)
Definition clickAddInput (inputs : list Input) : list Input :=
  if (10 <=? List.length inputs)%nat then inputs else addInput inputs.

(** Sequences of the two operations that change the number of inputs,
    first as the bare functions, then as the buttons reach them. *)
Inductive Op := OpAddInput | OpRemoveInput (id0 : string).

Definition applyOp (o : Op) (inputs : list Input) : list Input :=
  match o with
  | OpAddInput => addInput inputs
  | OpRemoveInput id0 => removeInput id0 inputs
  end.

Definition applyClick (o : Op) (inputs : list Input) : list Input :=
  match o with
  | OpAddInput => clickAddInput inputs
  | OpRemoveInput id0 => removeInput id0 inputs
  end.

Definition run (ops : list Op) (inputs : list Input) : list Input :=
  fold_left (fun l o => applyOp o l) ops inputs.

Definition runClicks (ops : list Op) (inputs : list Input) : list Input :=
  fold_left (fun l o => applyClick o l) ops inputs.

(** [aggregatedValue]: the selected aggregation of the inputs, then
    [theta] added. *)
Definition aggregatedValue (selectedAggregation : AggregationFunction.t)
    (inputs : list Input) (theta : number) : number :=
  let baseValue := AggregationFunction.fn selectedAggregation inputs in
  (baseValue + theta)%float.

(** A number field: the text shown and the number stored. *)
Record NumberField := { text : string; stored : number }.

Definition initialTheta : NumberField := {| text := "0"; stored := 0%float |}.
Definition initialLinearSlope : NumberField := {| text := "1"; stored := 1%float |}.
Definition initialSigmoidGain : NumberField := {| text := "1"; stored := 1%float |}.

Section Host.
(** [Math.exp], [Math.tanh] and [parseFloat] of the JavaScript host. *)
Variables Math_exp Math_tanh : number -> number.
Variable parseFloat : string -> number.

Definition Sigmoid : ActivationFunction.t :=
  {| ActivationFunction.name := "Sigmoid";
     ActivationFunction.fn := fun x => (1 / (1 + Math_exp (- x)))%float |}.

Definition Tanh : ActivationFunction.t :=
  {| ActivationFunction.name := "Tanh";
     ActivationFunction.fn := fun x => Math_tanh x |}.

Definition activationFunctions : list ActivationFunction.t :=
  [Sigmoid; Tanh; Linear; Step; Sign].

(** [output]: dispatch on the name of the selected activation. *)
Definition output (selectedFunction : ActivationFunction.t)
    (aggregatedValue linearSlope sigmoidGain : number) : number :=
  let name := ActivationFunction.name selectedFunction in
  if String.eqb name "Linear" then
    let linearOutput :=
      if strict_neq linearSlope 0%float
      then (aggregatedValue / linearSlope)%float
      else aggregatedValue in
    Math_max [(-1)%float; Math_min [1%float; linearOutput]]
  else if String.eqb name "Sigmoid" then
    (1 / (1 + Math_exp ((- sigmoidGain) * aggregatedValue)))%float
  else if String.eqb name "Tanh" then
    Math_tanh (sigmoidGain * aggregatedValue)%float
  else ActivationFunction.fn selectedFunction aggregatedValue.

(** [value === '' ? 0 : parseFloat(value) || 0]. *)
Definition parseOrZero (value : string) : number :=
  if String.eqb value "" then 0%float else or_else (parseFloat value) 0%float.

Definition updateInput (id0 : string) (field : Field) (value : string)
    (inputs : list Input) : list Input :=
  map (fun input =>
         if String.eqb (id input) id0
         then setField field (parseOrZero value) input
         else input)
      inputs.

Definition handleThetaChange (value : string) : NumberField :=
  {| text := value; stored := parseOrZero value |}.

Definition handleLinearSlopeChange (value : string) : NumberField :=
  let numValue := parseFloat value in
  if String.eqb value "" then {| text := value; stored := 1%float |}
  else if negb (isNaN numValue) && geb numValue 1%float
  then {| text := value; stored := numValue |}
  else {| text := value; stored := 1%float |}.

Definition handleSigmoidGainChange (value : string) : NumberField :=
  let numValue := parseFloat value in
  if String.eqb value "" then {| text := value; stored := 1%float |}
  else if negb (isNaN numValue) && gtb numValue 1%float
  then {| text := value; stored := numValue |}
  else {| text := value; stored := 1.1%float |}.

(** Every way the rows of the input list are edited. *)
Inductive Edit :=
| EditAdd
| EditRemove (id0 : string)
| EditUpdate (id0 : string) (field : Field) (value : string).

Definition applyEdit (e : Edit) (inputs : list Input) : list Input :=
  match e with
  | EditAdd => addInput inputs
  | EditRemove id0 => removeInput id0 inputs
  | EditUpdate id0 field value => updateInput id0 field value inputs
  end.

Definition runEdits (edits : list Edit) (inputs : list Input) : list Input :=
  fold_left (fun l e => applyEdit e l) edits inputs.

End Host.

(** An input whose value and weight are numbers, not [NaN]. *)
Definition numeric (input : Input) : bool :=
  negb (is_nan (value input)) && negb (is_nan (weight input)).

End Neuron.

(** ** The variant of the component with a pan/zoom viewport *)

Module PanZoom.
Import JS.

Record Point := { x : number; y : number }.

(** The [useState] cells that make the viewport. *)
Record Viewport := {
  panX : number;
  panY : number;
  zoom : number;
  isDragging : bool;
  dragStart : Point
}.

Definition initialViewport : Viewport :=
  {| panX := 0%float; panY := 0%float; zoom := 1%float;
     isDragging := false;
     dragStart := {| x := 0%float; y := 0%float |} |}.

Definition setZoom (f : number -> number) (v : Viewport) : Viewport :=
  {| panX := panX v; panY := panY v; zoom := f (zoom v);
     isDragging := isDragging v; dragStart := dragStart v |}.

Definition setPanX (n : number) (v : Viewport) : Viewport :=
  {| panX := n; panY := panY v; zoom := zoom v;
     isDragging := isDragging v; dragStart := dragStart v |}.

Definition setPanY (n : number) (v : Viewport) : Viewport :=
  {| panX := panX v; panY := n; zoom := zoom v;
     isDragging := isDragging v; dragStart := dragStart v |}.

Definition setIsDragging (b : bool) (v : Viewport) : Viewport :=
  {| panX := panX v; panY := panY v; zoom := zoom v;
     isDragging := b; dragStart := dragStart v |}.

Definition setDragStart (p : Point) (v : Viewport) : Viewport :=
  {| panX := panX v; panY := panY v; zoom := zoom v;
     isDragging := isDragging v; dragStart := p |}.

Definition handleZoomIn (v : Viewport) : Viewport :=
  setZoom (fun prev => Math_min [(prev * 1.2)%float; 1.5%float]) v.

Definition handleZoomOut (v : Viewport) : Viewport :=
  setZoom (fun prev => Math_max [(prev / 1.2)%float; 0.2%float]) v.

Definition handleResetView (v : Viewport) : Viewport :=
  setZoom (fun _ => 1%float) (setPanY 0%float (setPanX 0%float v)).

Definition handleWheel (deltaY : number) (v : Viewport) : Viewport :=
  let delta := if gtb deltaY 0%float then 0.9%float else 1.1%float in
  setZoom (fun prev => Math_max [0.2%float; Math_min [1.5%float; (prev * delta)%float]]) v.

Definition handleMouseDown (clientX clientY : number) (v : Viewport) : Viewport :=
  setDragStart {| x := (clientX - panX v)%float; y := (clientY - panY v)%float |}
               (setIsDragging true v).

Definition handleMouseMove (clientX clientY : number) (v : Viewport) : Viewport :=
  if isDragging v
  then setPanY (clientY - y (dragStart v))%float
               (setPanX (clientX - x (dragStart v))%float v)
  else v.

Definition handleMouseUp (v : Viewport) : Viewport := setIsDragging false v.
Definition handleMouseLeave (v : Viewport) : Viewport := setIsDragging false v.

(** [weightedSum]: this variant only sums, and adds the bias last. *)
Definition weightedSum (inputs : list Neuron.Input) (bias : number) : number :=
  (reduce (fun sum input => (sum + (Neuron.value input * Neuron.weight input))%float)
          0%float inputs + bias)%float.


(** The pointer and button events of the graph, and the handler of each. *)
Inductive Event :=
| ZoomIn
| ZoomOut
| ResetView
| Wheel (deltaY : number)
| MouseDown (clientX clientY : number)
| MouseMove (clientX clientY : number)
| MouseUp
| MouseLeave.

Definition handle (e : Event) (v : Viewport) : Viewport :=
  match e with
  | ZoomIn => handleZoomIn v
  | ZoomOut => handleZoomOut v
  | ResetView => handleResetView v
  | Wheel deltaY => handleWheel deltaY v
  | MouseDown clientX clientY => handleMouseDown clientX clientY v
  | MouseMove clientX clientY => handleMouseMove clientX clientY v
  | MouseUp => handleMouseUp v
  | MouseLeave => handleMouseLeave v
  end.

Definition runEvents (events : list Event) (v : Viewport) : Viewport :=
  fold_left (fun st e => handle e st) events v.

(** The events that start a drag or reset the view; the others leave the
    pan alone unless a drag is under way. *)
Definition startsDragOrResets (e : Event) : bool :=
  match e with
  | MouseDown _ _ | ResetView => true
  | _ => false
  end.

(** The activation functions of this variant that the other component
    does not have, and its output, which applies the selected function to
    the weighted sum as it is. *)
Definition ReLU : Neuron.ActivationFunction.t :=
  {| Neuron.ActivationFunction.name := "ReLU";
     Neuron.ActivationFunction.fn := fun x => Math_max [0%float; x] |}.

Definition LeakyReLU : Neuron.ActivationFunction.t :=
  {| Neuron.ActivationFunction.name := "Leaky ReLU";
     Neuron.ActivationFunction.fn :=
       fun x => if gtb x 0%float then x else (0.01 * x)%float |}.

Definition output (selectedFunction : Neuron.ActivationFunction.t)
    (weightedSum : number) : number :=
  Neuron.ActivationFunction.fn selectedFunction weightedSum.

End PanZoom.

(** * The graph of the component

    The [svg] of [ArtificialNeuron.tsx]: a fixed drawing area of 1200 by 500
    with no padding, the map from the world window [-5, 5] x [-1.5, 1.5] to
    it, the sampled curve and the marker of the current point. *)

Module Graph.
Import JS Neuron.

Definition width : number := 1200.
Definition height : number := 500.
Definition padding : number := 0.
Definition graphWidth : number := width - padding * 2.
Definition graphHeight : number := height - padding * 2.

Record Point := { x : number; y : number }.

(** [worldToScreen]. *)
Definition worldToScreen (x y : number) : Point :=
  let screenX := (padding + ((x + 5) / 10) * graphWidth)%float in
  let screenY := (height - padding - ((y + 1.5) / 3) * graphHeight)%float in
  Build_Point screenX screenY.

Definition numPoints : number := 1000.
Definition step : number := 10 / numPoints.

(** The values the counter of [for (let i = 0; i <= numPoints; i++)] takes,
    in order; [fuel] bounds the number of turns. *)
Fixpoint counter (fuel : nat) (i : number) : list number :=
  match fuel with
  | O => []
  | S fuel' => if (i <=? numPoints)%float then i :: counter fuel' (i + 1)%float else []
  end.

Section Host.
Variables Math_exp Math_tanh : number -> number.

(** The body of the loop of [graphData]: the point pushed at counter [i]. *)
Definition graphPoint (selectedFunction : ActivationFunction.t)
    (linearSlope sigmoidGain i : number) : Point :=
  let x := (-5 + i * step)%float in
  let name := ActivationFunction.name selectedFunction in
  let y :=
    if String.eqb name "Linear" then
      let linearY :=
        if strict_neq linearSlope 0%float then (x / linearSlope)%float else x in
      Math_max [(-1)%float; Math_min [1%float; linearY]]
    else if String.eqb name "Sigmoid" then
      (1 / (1 + Math_exp ((- sigmoidGain) * x)))%float
    else if String.eqb name "Tanh" then
      Math_tanh (sigmoidGain * x)%float
    else ActivationFunction.fn selectedFunction x in
  let y := Math_max [(-1.5)%float; Math_min [1.5%float; y]] in
  worldToScreen x y.

(** [graphData]: the points pushed, in order. *)
Definition graphData (selectedFunction : ActivationFunction.t)
    (linearSlope sigmoidGain : number) (fuel : nat) : list Point :=
  map (graphPoint selectedFunction linearSlope sigmoidGain) (counter fuel 0%float).

End Host.

(** The marker of the current point: [null] when the screen point is out of
    the drawing area, drawn at the screen point otherwise. *)
Definition currentPoint (aggregatedValue output : number) : option Point :=
  let point := worldToScreen aggregatedValue output in
  if (x point <? padding)%float || gtb (x point) (width - padding)%float
     || (y point <? padding)%float || gtb (y point) (height - padding)%float
  then None
  else Some point.

End Graph.

(** * Properties *)

Import JS Neuron.

(** ** Comparison of binary64 values *)

Section Comparison.

Lemma SFcompare_antisym (a b : spec_float) :
  SFcompare b a = option_map CompOpp (SFcompare a b).
Proof.
  destruct a as [sa|sa| |sa ma ea], b as [sb|sb| |sb mb eb]; simpl;
    try reflexivity;
    try (destruct sa; reflexivity); try (destruct sb; reflexivity);
    try (destruct sa, sb; reflexivity).
  pose proof (Pos.compare_cont_antisym ma mb Eq) as Hm. simpl in Hm.
  destruct sa, sb; simpl; try reflexivity;
    rewrite (Z.compare_antisym ea eb);
    destruct (ea ?= eb)%Z; simpl; try reflexivity;
    rewrite <- Hm; try reflexivity.
Qed.

Lemma ltb_leb (a b : number) : (a <? b)%float = true -> (a <=? b)%float = true.
Proof.
  rewrite ltb_spec, leb_spec. unfold SFltb, SFleb.
  destruct (SFcompare (Prim2SF a) (Prim2SF b)) as [[ | | ]|]; congruence.
Qed.

Lemma leb_ltb_false (a b : number) : (a <=? b)%float = true -> (b <? a)%float = false.
Proof.
  rewrite ltb_spec, leb_spec. unfold SFltb, SFleb.
  rewrite (SFcompare_antisym (Prim2SF a) (Prim2SF b)).
  destruct (SFcompare (Prim2SF a) (Prim2SF b)) as [[ | | ]|]; simpl; congruence.
Qed.

Lemma ltb_leb_false (a b : number) : (a <? b)%float = true -> (b <=? a)%float = false.
Proof.
  rewrite ltb_spec, leb_spec. unfold SFltb, SFleb.
  rewrite (SFcompare_antisym (Prim2SF a) (Prim2SF b)).
  destruct (SFcompare (Prim2SF a) (Prim2SF b)) as [[ | | ]|]; simpl; congruence.
Qed.

Lemma SFcompare_refl (a : spec_float) :
  a <> S754_nan -> SFcompare a a = Some Eq.
Proof.
  destruct a as [sa|sa| |sa ma ea]; simpl; intros H; try congruence.
  - now destruct sa.
  - rewrite Z.compare_refl, Pos.compare_cont_refl. now destruct sa.
Qed.

Lemma is_nan_spec (a : number) : is_nan a = true <-> Prim2SF a = S754_nan.
Proof.
  unfold is_nan. rewrite eqb_spec. unfold SFeqb. split.
  - intros H. destruct (Prim2SF a) eqn:E; try reflexivity;
      rewrite SFcompare_refl in H by congruence; discriminate.
  - intros ->. reflexivity.
Qed.

Lemma leb_refl (a : number) : is_nan a = false -> (a <=? a)%float = true.
Proof.
  intros H. rewrite leb_spec. unfold SFleb. rewrite SFcompare_refl; [reflexivity|].
  intros E. apply is_nan_spec in E. congruence.
Qed.

(** The total order on the values that are not [NaN]. *)
Lemma ltb_or_geb (a b : number) :
  is_nan a = false -> is_nan b = false ->
  (a <? b)%float = true \/ (b <=? a)%float = true.
Proof.
  intros Ha Hb. rewrite ltb_spec, leb_spec. unfold SFltb, SFleb.
  rewrite (SFcompare_antisym (Prim2SF a) (Prim2SF b)).
  destruct (SFcompare (Prim2SF a) (Prim2SF b)) as [[ | | ]|] eqn:E; simpl; auto.
  exfalso.
  assert (Na : Prim2SF a <> S754_nan) by (intros N; apply is_nan_spec in N; congruence).
  assert (Nb : Prim2SF b <> S754_nan) by (intros N; apply is_nan_spec in N; congruence).
  destruct (Prim2SF a) as [sa|sa| |sa ma ea], (Prim2SF b) as [sb|sb| |sb mb eb];
    simpl in E; congruence.
Qed.

End Comparison.

(** ** Rounding to binary64

    The arithmetic of [float] is specified by [SpecFloat]: an operation
    computes an integer mantissa and an exponent and hands them to
    [binary_round_aux].  What follows bounds the result of that rounding on
    the two sides of 1, which is what the sigmoid needs. *)

Section Rounding.
#[local] Open Scope Z_scope.

Lemma digits2_pos_bounds (p : positive) :
  2 ^ (Zpos (digits2_pos p) - 1) <= Zpos p < 2 ^ Zpos (digits2_pos p).
Proof.
  induction p as [p IH|p IH|]; simpl digits2_pos.
  - rewrite Pos2Z.inj_succ, (Pos2Z.inj_xI p).
    replace (Z.succ (Zpos (digits2_pos p)) - 1) with (Z.succ (Zpos (digits2_pos p) - 1)) by lia.
    rewrite !Z.pow_succ_r by lia. lia.
  - rewrite Pos2Z.inj_succ, (Pos2Z.inj_xO p).
    replace (Z.succ (Zpos (digits2_pos p)) - 1) with (Z.succ (Zpos (digits2_pos p) - 1)) by lia.
    rewrite !Z.pow_succ_r by lia. lia.
  - simpl. lia.
Qed.

Lemma Zdigits2_bounds (m : Z) :
  0 < m -> 2 ^ (Zdigits2 m - 1) <= m < 2 ^ Zdigits2 m.
Proof.
  destruct m as [|p|p]; try lia. intros _. apply digits2_pos_bounds.
Qed.

Lemma Zdigits2_nonneg (m : Z) : 0 <= Zdigits2 m.
Proof. destruct m; simpl; lia. Qed.

Lemma shr_1_m (mrs : shr_record) :
  0 <= shr_m mrs -> shr_m (shr_1 mrs) = shr_m mrs / 2.
Proof.
  destruct mrs as [m r s]. simpl. intros H.
  rewrite <- Z.div2_div.
  destruct m as [|[p|p|]|p]; try reflexivity; lia.
Qed.

Lemma iter_pos_shr_1_m (n : positive) (mrs : shr_record) :
  0 <= shr_m mrs ->
  shr_m (iter_pos shr_1 n mrs) = shr_m mrs / 2 ^ Zpos n.
Proof.
  revert mrs. induction n as [n IH|n IH|]; intros mrs H; simpl iter_pos;
    try assert (Hp : 0 < 2 ^ Zpos n) by (apply Z.pow_pos_nonneg; lia).
  - assert (H1 : 0 <= shr_m (shr_1 mrs)).
    { rewrite shr_1_m by assumption. apply Z.div_pos; lia. }
    assert (H2 : 0 <= shr_m (iter_pos shr_1 n (shr_1 mrs))).
    { rewrite IH by assumption. apply Z.div_pos; [assumption|]. apply Z.pow_pos_nonneg; lia. }
    rewrite IH, IH, shr_1_m by assumption.
    rewrite !Z.div_div by lia.
    f_equal. replace (Zpos n~1) with (1 + Zpos n + Zpos n) by lia.
    rewrite !Z.pow_add_r by lia. change (2 ^ 1) with 2. ring.
  - assert (H2 : 0 <= shr_m (iter_pos shr_1 n mrs)).
    { rewrite IH by assumption. apply Z.div_pos; [assumption|]. apply Z.pow_pos_nonneg; lia. }
    rewrite IH, IH by assumption.
    rewrite Z.div_div by lia.
    f_equal. replace (Zpos n~0) with (Zpos n + Zpos n) by lia.
    rewrite Z.pow_add_r by lia. reflexivity.
  - rewrite shr_1_m by assumption. reflexivity.
Qed.

Lemma shr_record_of_loc_m (m : Z) (l : location) :
  shr_m (shr_record_of_loc m l) = m.
Proof. destruct l as [|[ | | ]]; reflexivity. Qed.

Lemma fexp64 (x : Z) : fexp prec emax x = Z.max (x - 53) (-1074).
Proof. reflexivity. Qed.

(** [shr_fexp] drops [n] low bits, where [n] is what the exponent is short
    of the format's. *)
Lemma shr_fexp_spec (m e : Z) (l : location) :
  0 <= m ->
  shr_m (fst (shr_fexp prec emax m e l))
  = m / 2 ^ Z.max 0 (fexp prec emax (Zdigits2 m + e) - e)
  /\ snd (shr_fexp prec emax m e l)
     = e + Z.max 0 (fexp prec emax (Zdigits2 m + e) - e).
Proof.
  intros H. unfold shr_fexp, shr.
  destruct (fexp prec emax (Zdigits2 m + e) - e) as [|p|p]; simpl fst; simpl snd.
  - rewrite shr_record_of_loc_m. change (Z.max 0 0) with 0.
    rewrite Z.pow_0_r, Z.div_1_r. split; lia.
  - rewrite iter_pos_shr_1_m by (rewrite shr_record_of_loc_m; assumption).
    rewrite shr_record_of_loc_m. change (Z.max 0 (Zpos p)) with (Zpos p). split; reflexivity.
  - rewrite shr_record_of_loc_m. change (Z.max 0 (Zneg p)) with 0.
    rewrite Z.pow_0_r, Z.div_1_r. split; lia.
Qed.

Lemma round_nearest_even_bounds (m : Z) (l : location) :
  m <= round_nearest_even m l <= m + 1.
Proof.
  destruct l as [|[ | | ]]; simpl; try lia. destruct (Z.even m); lia.
Qed.

(** A mantissa and exponent that denote at most 1 still do after the shift. *)
Lemma shift_upper (m e : Z) :
  0 <= m -> e <= 0 -> m <= 2 ^ (- e) ->
  e + Z.max 0 (fexp prec emax (Zdigits2 m + e) - e) <= 0
  /\ m / 2 ^ Z.max 0 (fexp prec emax (Zdigits2 m + e) - e)
     <= 2 ^ (- (e + Z.max 0 (fexp prec emax (Zdigits2 m + e) - e))).
Proof.
  intros Hm He Hb. rewrite fexp64.
  assert (Hd : Zdigits2 m + e <= 1).
  { destruct (Z.eq_dec m 0) as [->|Hz]; [simpl; lia|].
    assert (Hp : 0 < m) by lia.
    pose proof (Zdigits2_bounds m Hp) as [Hlo _].
    assert (Hlt : ~ (- e < Zdigits2 m - 1)).
    { intros C. assert (2 ^ (- e) < 2 ^ (Zdigits2 m - 1)) by (apply Z.pow_lt_mono_r; lia). lia. }
    lia. }
  set (n := Z.max 0 (Z.max (Zdigits2 m + e - 53) (-1074) - e)).
  assert (Hn : 0 <= n) by lia.
  assert (Hen : e + n <= 0) by lia.
  split; [assumption|].
  assert (Hp : 0 < 2 ^ n) by (apply Z.pow_pos_nonneg; lia).
  apply Z.div_le_upper_bound; [assumption|].
  rewrite <- Z.pow_add_r by lia. replace (n + - (e + n)) with (- e) by lia. assumption.
Qed.

Lemma shift_upper_strict (m e : Z) :
  0 <= m -> e <= 0 -> m < 2 ^ (- e) ->
  e + Z.max 0 (fexp prec emax (Zdigits2 m + e) - e) <= 0
  /\ m / 2 ^ Z.max 0 (fexp prec emax (Zdigits2 m + e) - e)
     < 2 ^ (- (e + Z.max 0 (fexp prec emax (Zdigits2 m + e) - e))).
Proof.
  intros Hm He Hb.
  destruct (shift_upper m e Hm He) as [Hen _]; [lia|].
  split; [assumption|].
  set (n := Z.max 0 (fexp prec emax (Zdigits2 m + e) - e)) in *.
  assert (Hn : 0 <= n) by (unfold n; lia).
  assert (Hp : 0 < 2 ^ n) by (apply Z.pow_pos_nonneg; lia).
  apply Z.div_lt_upper_bound; [assumption|].
  rewrite <- Z.pow_add_r by lia. replace (n + - (e + n)) with (- e) by lia. assumption.
Qed.

(** A mantissa and exponent that denote at least 1 still do after the shift. *)
Lemma shift_lower (m e : Z) :
  1 <= m -> (e <= 0 -> 2 ^ (- e) <= m) ->
  1 <= m / 2 ^ Z.max 0 (fexp prec emax (Zdigits2 m + e) - e)
  /\ (e + Z.max 0 (fexp prec emax (Zdigits2 m + e) - e) <= 0 ->
      2 ^ (- (e + Z.max 0 (fexp prec emax (Zdigits2 m + e) - e)))
      <= m / 2 ^ Z.max 0 (fexp prec emax (Zdigits2 m + e) - e)).
Proof.
  intros Hm Hb. rewrite fexp64.
  assert (Hp : 0 < m) by lia.
  pose proof (Zdigits2_bounds m Hp) as [Hlo Hhi].
  pose proof (Zdigits2_nonneg m) as Hd0.
  assert (Hd1 : 1 <= Zdigits2 m).
  { destruct (Z_lt_le_dec (Zdigits2 m) 1); [|assumption].
    replace (Zdigits2 m) with 0 in Hhi by lia. simpl in Hhi. lia. }
  assert (Hde : e <= 0 -> 1 <= Zdigits2 m + e).
  { intros He. specialize (Hb He).
    assert (~ (Zdigits2 m <= - e)).
    { intros C. assert (2 ^ Zdigits2 m <= 2 ^ (- e)) by (apply Z.pow_le_mono_r; lia). lia. }
    lia. }
  set (n := Z.max 0 (Z.max (Zdigits2 m + e - 53) (-1074) - e)).
  assert (Hn : 0 <= n) by lia.
  assert (Hnd : n <= Zdigits2 m - 1) by lia.
  assert (Hpn : 0 < 2 ^ n) by (apply Z.pow_pos_nonneg; lia).
  split.
  - apply Z.div_le_lower_bound; [assumption|].
    assert (2 ^ n <= 2 ^ (Zdigits2 m - 1)) by (apply Z.pow_le_mono_r; lia). lia.
  - intros Hen. apply Z.div_le_lower_bound; [assumption|].
    rewrite <- Z.pow_add_r by lia. replace (n + - (e + n)) with (- e) by lia.
    apply Hb. lia.
Qed.

Lemma binary_round_aux_not_nan (s : bool) (mx ex : Z) (lx : location) :
  0 <= mx -> binary_round_aux prec emax s mx ex lx <> S754_nan.
Proof.
  intros Hm. unfold binary_round_aux.
  destruct (shr_fexp_spec mx ex lx Hm) as [Hm1 _].
  destruct (shr_fexp prec emax mx ex lx) as [mrs1 e1]. simpl in Hm1.
  assert (H1 : 0 <= shr_m mrs1).
  { rewrite Hm1. apply Z.div_pos; [assumption|]. apply Z.pow_pos_nonneg; lia. }
  pose proof (round_nearest_even_bounds (shr_m mrs1) (loc_of_shr_record mrs1)) as Hr.
  set (m2 := round_nearest_even (shr_m mrs1) (loc_of_shr_record mrs1)) in *.
  assert (H2 : 0 <= m2) by lia.
  destruct (shr_fexp_spec m2 e1 loc_Exact H2) as [Hm3 _].
  destruct (shr_fexp prec emax m2 e1 loc_Exact) as [mrs3 e3]. simpl in Hm3.
  assert (H3 : 0 <= shr_m mrs3).
  { rewrite Hm3. apply Z.div_pos; [assumption|]. apply Z.pow_pos_nonneg; lia. }
  destruct (shr_m mrs3) as [|p|p]; try discriminate; try lia.
  destruct (e3 <=? emax - prec); discriminate.
Qed.

(** Rounding what denotes less than 1 gives at most 1. *)
Lemma binary_round_aux_upper (s : bool) (mx ex : Z) (lx : location) :
  0 <= mx -> ex <= 0 -> mx < 2 ^ (- ex) ->
  match binary_round_aux prec emax s mx ex lx with
  | S754_zero s' => s' = s
  | S754_finite s' m e => s' = s /\ e <= 0 /\ Zpos m <= 2 ^ (- e)
  | _ => False
  end.
Proof.
  intros Hm He Hb. unfold binary_round_aux.
  destruct (shr_fexp_spec mx ex lx Hm) as [Hm1 He1].
  destruct (shift_upper_strict mx ex Hm He Hb) as [Hle1 Hb1].
  destruct (shr_fexp prec emax mx ex lx) as [mrs1 e1]. simpl in Hm1, He1.
  rewrite <- He1 in Hle1, Hb1. rewrite <- Hm1 in Hb1.
  assert (H1 : 0 <= shr_m mrs1).
  { rewrite Hm1. apply Z.div_pos; [assumption|]. apply Z.pow_pos_nonneg; lia. }
  pose proof (round_nearest_even_bounds (shr_m mrs1) (loc_of_shr_record mrs1)) as Hr.
  set (m2 := round_nearest_even (shr_m mrs1) (loc_of_shr_record mrs1)) in *.
  assert (H2 : 0 <= m2) by lia.
  assert (Hb2 : m2 <= 2 ^ (- e1)) by lia.
  destruct (shr_fexp_spec m2 e1 loc_Exact H2) as [Hm3 He3].
  destruct (shift_upper m2 e1 H2 Hle1 Hb2) as [Hle3 Hb3].
  destruct (shr_fexp prec emax m2 e1 loc_Exact) as [mrs3 e3]. simpl in Hm3, He3.
  rewrite <- He3 in Hle3, Hb3. rewrite <- Hm3 in Hb3.
  assert (H3 : 0 <= shr_m mrs3).
  { rewrite Hm3. apply Z.div_pos; [assumption|]. apply Z.pow_pos_nonneg; lia. }
  destruct (shr_m mrs3) as [|p|p]; try reflexivity; try lia.
  assert (Hle : (e3 <=? emax - prec) = true) by (apply Z.leb_le; unfold emax, prec; lia).
  rewrite Hle. repeat split; assumption.
Qed.

(** Rounding what denotes at least 1 gives at least 1. *)
Lemma binary_round_aux_lower (s : bool) (mx ex : Z) (lx : location) :
  1 <= mx -> (ex <= 0 -> 2 ^ (- ex) <= mx) ->
  match binary_round_aux prec emax s mx ex lx with
  | S754_infinity s' => s' = s
  | S754_finite s' m e => s' = s /\ (e <= 0 -> 2 ^ (- e) <= Zpos m)
  | _ => False
  end.
Proof.
  intros Hm Hb. unfold binary_round_aux.
  assert (Hm0 : 0 <= mx) by lia.
  destruct (shr_fexp_spec mx ex lx Hm0) as [Hm1 He1].
  destruct (shift_lower mx ex Hm Hb) as [Hge1 Hb1].
  destruct (shr_fexp prec emax mx ex lx) as [mrs1 e1]. simpl in Hm1, He1.
  rewrite <- He1 in Hb1. rewrite <- Hm1 in Hge1, Hb1.
  pose proof (round_nearest_even_bounds (shr_m mrs1) (loc_of_shr_record mrs1)) as Hr.
  set (m2 := round_nearest_even (shr_m mrs1) (loc_of_shr_record mrs1)) in *.
  assert (H2 : 1 <= m2) by lia.
  assert (H20 : 0 <= m2) by lia.
  assert (Hb2 : e1 <= 0 -> 2 ^ (- e1) <= m2) by (intros L; specialize (Hb1 L); lia).
  destruct (shr_fexp_spec m2 e1 loc_Exact H20) as [Hm3 He3].
  destruct (shift_lower m2 e1 H2 Hb2) as [Hge3 Hb3].
  destruct (shr_fexp prec emax m2 e1 loc_Exact) as [mrs3 e3]. simpl in Hm3, He3.
  rewrite <- He3 in Hb3. rewrite <- Hm3 in Hge3, Hb3.
  destruct (shr_m mrs3) as [|p|p]; try lia.
  destruct (e3 <=? emax - prec); [|reflexivity].
  split; [reflexivity|assumption].
Qed.

Lemma canonical_digits (m : positive) (e : Z) :
  SpecFloat.valid_binary prec emax (S754_finite false m e) = true ->
  Z.max (Zpos (digits2_pos m) + e - 53) (-1074) = e.
Proof.
  simpl. unfold bounded, canonical_mantissa. rewrite fexp64.
  intros H. apply andb_prop in H. destruct H as [H _]. now apply Z.eqb_eq in H.
Qed.

Lemma Prim2SF_one : Prim2SF 1 = S754_finite false 4503599627370496 (-52).
Proof. vm_compute. reflexivity. Qed.

Lemma two_52 : 2 ^ 52 = 4503599627370496.
Proof. vm_compute. reflexivity. Qed.

Lemma SFleb_one_l (m : positive) (e : Z) :
  SpecFloat.valid_binary prec emax (S754_finite false m e) = true ->
  (e <= 0 -> 2 ^ (- e) <= Zpos m) ->
  SFleb (Prim2SF 1) (S754_finite false m e) = true.
Proof.
  intros Hv Hb. pose proof (canonical_digits m e Hv) as Hc.
  pose proof (digits2_pos_bounds m) as [_ Hhi].
  rewrite Prim2SF_one. unfold SFleb, SFcompare.
  destruct (Z.compare_spec (-52) e) as [E|L|G].
  - subst e. assert (Hm : 2 ^ 52 <= Zpos m) by (apply Hb; lia).
    rewrite two_52 in Hm.
    rewrite Pos.compare_cont_spec. simpl Pos.switch_Eq.
    destruct (Pos.compare_spec 4503599627370496 m) as [?|?|H]; try reflexivity.
    apply Pos2Z.pos_lt_pos in H. lia.
  - reflexivity.
  - exfalso.
    assert (Hd : Zpos (digits2_pos m) <= 53) by lia.
    assert (Hp : 2 ^ Zpos (digits2_pos m) <= 2 ^ 53) by (apply Z.pow_le_mono_r; lia).
    assert (Hq : 2 ^ 53 <= 2 ^ (- e)) by (apply Z.pow_le_mono_r; lia).
    assert (2 ^ (- e) <= Zpos m) by (apply Hb; lia). lia.
Qed.

Lemma SFleb_one_r (m : positive) (e : Z) :
  SpecFloat.valid_binary prec emax (S754_finite false m e) = true ->
  e <= 0 -> Zpos m <= 2 ^ (- e) ->
  SFleb (S754_finite false m e) (Prim2SF 1) = true.
Proof.
  intros Hv He Hb. pose proof (canonical_digits m e Hv) as Hc.
  pose proof (digits2_pos_bounds m) as [Hlo _].
  rewrite Prim2SF_one. unfold SFleb, SFcompare.
  destruct (Z.compare_spec e (-52)) as [E|L|G].
  - subst e. replace (- -52) with 52 in Hb by reflexivity. rewrite two_52 in Hb.
    rewrite Pos.compare_cont_spec. simpl Pos.switch_Eq.
    destruct (Pos.compare_spec m 4503599627370496) as [?|?|H]; try reflexivity.
    apply Pos2Z.pos_lt_pos in H. lia.
  - reflexivity.
  - exfalso.
    assert (Hd : Zpos (digits2_pos m) = 53) by lia.
    rewrite Hd in Hlo. 
    assert (Hq : 2 ^ (- e) <= 2 ^ 51) by (apply Z.pow_le_mono_r; lia).
    assert (Hr : 2 ^ 51 < 2 ^ (53 - 1)) by (apply Z.pow_lt_mono_r; lia).
    lia.
Qed.

Lemma iter_xO_spec (d m : positive) :
  Zpos (Pos.iter xO m d) = Zpos m * 2 ^ Zpos d.
Proof.
  induction d as [|d IH] using Pos.peano_ind.
  - simpl. lia.
  - rewrite Pos.iter_succ, Pos2Z.inj_succ, Z.pow_succ_r by lia.
    rewrite (Pos2Z.inj_xO (Pos.iter xO m d)), IH. ring.
Qed.

Lemma shl_align_spec (mx : positive) (ex ex' : Z) :
  snd (shl_align mx ex ex') <= ex
  /\ Zpos (fst (shl_align mx ex ex')) = Zpos mx * 2 ^ (ex - snd (shl_align mx ex ex'))
  /\ (ex' <= ex -> snd (shl_align mx ex ex') = ex').
Proof.
  unfold shl_align. destruct (ex' - ex) as [|d|d] eqn:E; simpl fst; simpl snd.
  - rewrite Z.sub_diag, Z.pow_0_r. lia.
  - rewrite Z.sub_diag, Z.pow_0_r. lia.
  - rewrite iter_xO_spec. replace (ex - ex') with (Zpos d) by lia. lia.
Qed.

(** Adding a double that is not negative to 1 gives at least 1. *)
Lemma SFadd_one_ge (m : positive) (ex : Z) :
  match SF64add (Prim2SF 1) (S754_finite false m ex) with
  | S754_infinity s' => s' = false
  | S754_finite s' m' e' => s' = false /\ (e' <= 0 -> 2 ^ (- e') <= Zpos m')
  | _ => False
  end.
Proof.
  rewrite Prim2SF_one.
  unfold SF64add, SFadd, cond_Zopp.
  set (ez := Z.min (-52) ex).
  destruct (shl_align_spec 4503599627370496 (-52) ez) as (_ & Ha & Hea).
  rewrite Hea in Ha by (unfold ez; lia).
  set (a := fst (shl_align 4503599627370496 (-52) ez)) in *.
  set (b := fst (shl_align m ex ez)).
  rewrite <- (Pos2Z.inj_add a b).
  unfold binary_normalize, binary_round.
  destruct (shl_align_spec (a + b) ez (fexp prec emax (Zpos (digits2_pos (a + b)) + ez)))
    as (Hs & Hf & _).
  destruct (shl_align (a + b) ez (fexp prec emax (Zpos (digits2_pos (a + b)) + ez)))
    as [mz ez']. cbn [fst snd] in Hs, Hf.
  assert (Hez : ez <= -52) by (unfold ez; lia).
  assert (Hab : 2 ^ (- ez) <= Zpos (a + b)).
  { rewrite Pos2Z.inj_add, Ha, <- two_52, <- Z.pow_add_r by lia.
    replace (52 + (-52 - ez)) with (- ez) by lia. lia. }
  assert (Hp : 0 < 2 ^ (ez - ez')) by (apply Z.pow_pos_nonneg; lia).
  assert (Hp' : 0 < 2 ^ (- ez)) by (apply Z.pow_pos_nonneg; lia).
  apply binary_round_aux_lower.
  - rewrite Hf. nia.
  - intros _. rewrite Hf.
    replace (- ez') with (- ez + (ez - ez')) by lia.
    rewrite Z.pow_add_r by lia. apply Z.mul_le_mono_nonneg_r; lia.
Qed.

(** Dividing 1 by a double above 1 gives at most 1. *)
Lemma SFdiv_one_le (md : positive) (ed : Z) :
  2 ^ 52 <= Zpos md -> -52 <= ed ->
  ed <> -52 \/ Zpos md <> 2 ^ 52 ->
  match SF64div (Prim2SF 1) (S754_finite false md ed) with
  | S754_zero s' => s' = false
  | S754_finite s' m e => s' = false /\ e <= 0 /\ Zpos m <= 2 ^ (- e)
  | _ => False
  end.
Proof.
  intros Hmd Hed Hne.
  rewrite Prim2SF_one.
  unfold SF64div, SFdiv, SFdiv_core_binary.
  set (e' := Z.min _ (-52 - ed)).
  set (s := -52 - ed - e').
  assert (Hs : 0 <= s) by (unfold s, e'; lia).
  assert (Hse : - e' = s + (52 + ed)) by (unfold s; lia).
  assert (He' : e' <= 0) by (unfold e'; lia).
  clearbody s. clearbody e'.
  set (m' := match s with
             | Zpos _ => Z.shiftl 4503599627370496 s
             | Z0 => 4503599627370496
             | Zneg _ => 0
             end).
  assert (Hm' : m' = 2 ^ 52 * 2 ^ s).
  { unfold m'. rewrite two_52. destruct s as [|p|p]; try lia.
    rewrite Z.shiftl_mul_pow2 by lia. reflexivity. }
  clearbody m'.
  assert (Hq : fst (Z.div_eucl m' (Zpos md)) = m' / Zpos md) by reflexivity.
  destruct (Z.div_eucl m' (Zpos md)) as [q r]. cbn [fst] in Hq. cbn [xorb].
  assert (Hps : 0 < 2 ^ s) by (apply Z.pow_pos_nonneg; lia).
  assert (Hp52 : 0 < 2 ^ 52) by (apply Z.pow_pos_nonneg; lia).
  apply binary_round_aux_upper.
  - rewrite Hq. apply Z.div_pos; [|lia]. rewrite Hm'. lia.
  - assumption.
  - rewrite Hq, Hm'. apply Z.div_lt_upper_bound; [lia|].
    rewrite Hse.
    rewrite Z.pow_add_r by lia.
    assert (Hpe : 0 < 2 ^ (52 + ed)) by (apply Z.pow_pos_nonneg; lia).
    rewrite Z.mul_assoc.
    assert (H1 : 2 ^ 52 * 2 ^ s <= Zpos md * 2 ^ s)
      by (apply Z.mul_le_mono_nonneg_r; lia).
    assert (H2 : 0 < Zpos md * 2 ^ s) by (apply Z.mul_pos_pos; lia).
    destruct Hne as [Hne|Hne].
    + assert (H3 : 2 <= 2 ^ (52 + ed)).
      { change 2 with (2 ^ 1) at 1. apply Z.pow_le_mono_r; lia. }
      assert (H4 : Zpos md * 2 ^ s * 2 <= Zpos md * 2 ^ s * 2 ^ (52 + ed))
        by (apply Z.mul_le_mono_nonneg_l; lia).
      lia.
    + assert (H3 : 2 ^ 52 * 2 ^ s < Zpos md * 2 ^ s)
        by (apply Z.mul_lt_mono_pos_r; lia).
      assert (H4 : Zpos md * 2 ^ s * 1 <= Zpos md * 2 ^ s * 2 ^ (52 + ed))
        by (apply Z.mul_le_mono_nonneg_l; lia).
      lia.
Qed.

Lemma Prim2SF_zero : Prim2SF 0 = S754_zero false.
Proof. vm_compute. reflexivity. Qed.

Lemma SFleb_one_one : SFleb (Prim2SF 1) (Prim2SF 1) = true.
Proof. vm_compute. reflexivity. Qed.

(** Doubles that are at least [+0]: a zero, [+Infinity] or a positive
    finite double. *)
Lemma nonneg_cases (x : spec_float) :
  SFleb (S754_zero false) x = true ->
  (exists s, x = S754_zero s) \/ x = S754_infinity false
  \/ (exists m e, x = S754_finite false m e).
Proof.
  destruct x as [s|s| |s m e]; unfold SFleb, SFcompare; intros H.
  - left. now exists s.
  - destruct s; [discriminate|]. right. now left.
  - discriminate.
  - destruct s; [discriminate|]. right. right. now exists m, e.
Qed.

Lemma add_one_ge_one (e : float) :
  (0 <=? e)%float = true -> (1 <=? 1 + e)%float = true.
Proof.
  intros H. rewrite leb_spec, Prim2SF_zero in H. rewrite leb_spec.
  pose proof (Prim2SF_valid (1 + e)) as Hv.
  rewrite add_spec in Hv |- *.
  destruct (nonneg_cases _ H) as [[s E]|[E|(m & ex & E)]]; rewrite E in Hv |- *.
  - rewrite Prim2SF_one. unfold SF64add, SFadd. rewrite <- Prim2SF_one.
    exact SFleb_one_one.
  - rewrite Prim2SF_one. reflexivity.
  - pose proof (SFadd_one_ge m ex) as Hb.
    destruct (SF64add (Prim2SF 1) (S754_finite false m ex)) as [s'|s'| |s' m' e'];
      try contradiction.
    + subst s'. rewrite Prim2SF_one. reflexivity.
    + destruct Hb as [-> Hb]. now apply SFleb_one_l.
Qed.

(** Doubles that are at least 1. *)
Lemma ge_one_cases (x : spec_float) :
  SpecFloat.valid_binary prec emax x = true ->
  SFleb (Prim2SF 1) x = true ->
  x = S754_infinity false
  \/ exists m e, x = S754_finite false m e /\ 2 ^ 52 <= Zpos m /\ -52 <= e.
Proof.
  rewrite Prim2SF_one.
  destruct x as [s|s| |s m e]; unfold SFleb, SFcompare; intros Hv H.
  - discriminate.
  - destruct s; [discriminate|]. now left.
  - discriminate.
  - destruct s; [discriminate|]. right. exists m, e. split; [reflexivity|].
    pose proof (canonical_digits m e Hv) as Hc.
    pose proof (digits2_pos_bounds m) as [Hlo _].
    destruct (Z.compare_spec (-52) e) as [E|L|G]; try discriminate.
    + subst e. rewrite Pos.compare_cont_spec in H. simpl Pos.switch_Eq in H.
      destruct (Pos.compare_spec 4503599627370496 m) as [E|L|G]; try discriminate.
      * subst m. rewrite two_52. lia.
      * apply Pos2Z.pos_lt_pos in L. rewrite two_52. lia.
    + assert (Hd : Zpos (digits2_pos m) = 53) by lia.
      rewrite Hd in Hlo. replace (53 - 1) with 52 in Hlo by reflexivity. lia.
Qed.

Lemma div_one_range (d : float) :
  (1 <=? d)%float = true ->
  (0 <=? 1 / d)%float = true /\ (1 / d <=? 1)%float = true.
Proof.
  intros H. rewrite leb_spec in H. rewrite !leb_spec, Prim2SF_zero.
  pose proof (Prim2SF_valid (1 / d)) as Hv.
  rewrite div_spec in Hv |- *.
  destruct (ge_one_cases _ (Prim2SF_valid d) H) as [Ed|(m & e & Ed & Hm & He)];
    rewrite Ed in Hv |- *; clear Ed.
  - rewrite Prim2SF_one. split; reflexivity.
  - destruct (Z.eq_dec e (-52)) as [E|E];
      [destruct (Z.eq_dec (Zpos m) (2 ^ 52)) as [E'|E']|].
    + subst e. rewrite two_52 in E'. injection E' as E'. subst m.
      rewrite Prim2SF_one. split; vm_compute; reflexivity.
    + pose proof (SFdiv_one_le m e Hm He (or_intror E')) as Hb.
      destruct (SF64div (Prim2SF 1) (S754_finite false m e)) as [s'|s'| |s' m' e'];
        try contradiction.
      * subst s'. rewrite Prim2SF_one. split; reflexivity.
      * destruct Hb as (-> & Hb1 & Hb2). split; [reflexivity|].
        now apply SFleb_one_r.
    + pose proof (SFdiv_one_le m e Hm He (or_introl E)) as Hb.
      destruct (SF64div (Prim2SF 1) (S754_finite false m e)) as [s'|s'| |s' m' e'];
        try contradiction.
      * subst s'. rewrite Prim2SF_one. split; reflexivity.
      * destruct Hb as (-> & Hb1 & Hb2). split; [reflexivity|].
        now apply SFleb_one_r.
Qed.
End Rounding.

(** ** Aggregation and bias *)

(** C1. Whatever aggregation is selected, the aggregated value is that
    aggregation of the inputs with [theta] added as the last step: the sum
    and the product are folded over the inputs from [0] and [1], the maximum
    and the minimum are taken over the products [value * weight], and in each
    case [theta] enters only through the final addition.  The pan/zoom variant
    of the component adds its bias the same way. *)
Theorem aggregated_value_adds_theta :
  (forall a inputs theta,
      aggregatedValue a inputs theta
      = (AggregationFunction.fn a inputs + theta)%float)
  /\ (forall inputs theta,
      aggregatedValue Sum inputs theta
      = (fold_left (fun acc i => (acc + value i * weight i)%float) inputs 0
         + theta)%float)
  /\ (forall inputs theta,
      aggregatedValue Product inputs theta
      = (fold_left (fun acc i => (acc * (value i * weight i))%float) inputs 1
         + theta)%float)
  /\ (forall inputs theta,
      aggregatedValue Maximum inputs theta
      = (Math_max (map (fun i => (value i * weight i)%float) inputs) + theta)%float)
  /\ (forall inputs theta,
      aggregatedValue Minimum inputs theta
      = (Math_min (map (fun i => (value i * weight i)%float) inputs) + theta)%float)
  /\ (forall inputs bias,
      PanZoom.weightedSum inputs bias = aggregatedValue Sum inputs bias).
Proof.
  split; [|split; [|split; [|split; [|split]]]]; intros; reflexivity.
Qed.

(** The bias is not a factor of the product: with the inputs of the third
    scenario the product aggregation gives 36 + 1, not 36 * 1. *)
Example product_bias_not_a_factor :
  aggregatedValue Product
    [ {| id := "1"; value := 2; weight := 2 |};
      {| id := "2"; value := 3; weight := 3 |} ] 1 = 37%float
  /\ (AggregationFunction.fn Product
       [ {| id := "1"; value := 2; weight := 2 |};
         {| id := "2"; value := 3; weight := 3 |} ] * 1)%float = 36%float.
Proof. split; vm_compute; reflexivity. Qed.

(** ** The activation step *)

Section Activation.
Variables Math_exp Math_tanh : number -> number.

#[local] Abbreviation output := (output Math_exp Math_tanh).

Lemma output_Step a slope gain :
  output Step a slope gain = ActivationFunction.fn Step a.
Proof. reflexivity. Qed.

Lemma output_Sign a slope gain :
  output Sign a slope gain = ActivationFunction.fn Sign a.
Proof. reflexivity. Qed.

Lemma output_Linear a slope gain :
  output Linear a slope gain
  = Math_max [(-1)%float;
              Math_min [1%float;
                        if strict_neq slope 0%float then (a / slope)%float else a]].
Proof. reflexivity. Qed.

Lemma output_Sigmoid a slope gain :
  output (Sigmoid Math_exp) a slope gain
  = (1 / (1 + Math_exp (- gain * a)))%float.
Proof. reflexivity. Qed.

Lemma output_Tanh a slope gain :
  output (Tanh Math_tanh) a slope gain = Math_tanh (gain * a)%float.
Proof. reflexivity. Qed.

(** C6. With the inputs (2, 2) and (3, 3), the product aggregation and
    bias 1 the aggregated value is 37.  With the linear activation and slope
    10 the output is, at every aggregated value, the clamp of its quotient by
    10: that quotient is the raw output.  At 37 the raw output is the double
    3.7, which is above 1, and its clamp, the output, is 1. *)
Theorem scenario_product_linear (id1 id2 : string) (gain : number) :
  let aggregated :=
    aggregatedValue Product
      [ {| id := id1; value := 2; weight := 2 |};
        {| id := id2; value := 3; weight := 3 |} ] 1 in
  aggregated = 37%float
  /\ (forall a : number,
        output Linear a 10 gain
        = Math_max [(-1)%float; Math_min [1%float; (a / 10)%float]])
  /\ (aggregated / 10)%float = 3.7%float
  /\ (1 <? aggregated / 10)%float = true
  /\ Math_max [(-1)%float; Math_min [1%float; 3.7%float]] = 1%float
  /\ output Linear aggregated 10 gain = 1%float.
Proof.
  intros aggregated.
  split; [|split; [|split; [|split; [|split]]]].
  - vm_compute. reflexivity.
  - intros a. now rewrite output_Linear.
  - vm_compute. reflexivity.
  - vm_compute. reflexivity.
  - vm_compute. reflexivity.
  - vm_compute. reflexivity.
Qed.

(** C7. With the single input (5, 1), bias -5 and the sum aggregation the
    aggregated value is 0 and the step activation outputs 1; the step
    function returns 1 at every argument [x >= 0]. *)
Theorem scenario_sum_step (id1 : string) (slope gain : number) :
  let aggregated :=
    aggregatedValue Sum [ {| id := id1; value := 5; weight := 1 |} ] (-5) in
  aggregated = 0%float
  /\ output Step aggregated slope gain = 1%float
  /\ (forall x : number, geb x 0 = true -> ActivationFunction.fn Step x = 1%float).
Proof.
  intros aggregated. split; [|split].
  - vm_compute; reflexivity.
  - vm_compute; reflexivity.
  - intros x Hx. simpl. now rewrite Hx.
Qed.

(** C9. The sign activation is strict at zero: 1 at every [x > 0], -1 at
    every [x <= 0], so -1 at 0 (and at -0), where the step activation
    gives 1. *)
Theorem sign_strict_at_zero :
  (forall x : number, gtb x 0 = true -> ActivationFunction.fn Sign x = 1%float)
  /\ (forall x : number, (x <=? 0)%float = true ->
                        ActivationFunction.fn Sign x = (-1)%float)
  /\ ActivationFunction.fn Sign 0 = (-1)%float
  /\ ActivationFunction.fn Sign (-0) = (-1)%float
  /\ ActivationFunction.fn Step 0 = 1%float
  /\ (forall a slope gain,
        output Sign a slope gain = ActivationFunction.fn Sign a).
Proof.
  split; [|split; [|split; [|split; [|split]]]].
  - intros x Hx. simpl. now rewrite Hx.
  - intros x Hx. simpl. unfold gtb. now rewrite (leb_ltb_false _ _ Hx).
  - vm_compute; reflexivity.
  - vm_compute; reflexivity.
  - vm_compute; reflexivity.
  - reflexivity.
Qed.

End Activation.

(** ** The range of the output *)

Section Ranges.
Variables Math_exp Math_tanh : number -> number.

#[local] Abbreviation output := (output Math_exp Math_tanh).

Lemma Prim2SF_infinity : Prim2SF infinity = S754_infinity false.
Proof. vm_compute. reflexivity. Qed.

Lemma is_infinity_spec (a : number) (s : bool) :
  Prim2SF a = S754_infinity s -> is_infinity a = true.
Proof.
  intros E. unfold is_infinity.
  rewrite eqb_spec, abs_spec, E, Prim2SF_infinity. reflexivity.
Qed.

Lemma not_nan_spec (a : number) : is_nan a = false <-> Prim2SF a <> S754_nan.
Proof.
  split.
  - intros H E. apply is_nan_spec in E. congruence.
  - intros H. destruct (is_nan a) eqn:N; [|reflexivity].
    apply is_nan_spec in N. contradiction.
Qed.

(** A slope of at least 1 is not zero. *)
Lemma slope_not_zero (slope : number) :
  geb slope 1 = true -> strict_neq slope 0 = true.
Proof.
  unfold geb, strict_neq. intros H. rewrite leb_spec in H.
  rewrite eqb_spec, Prim2SF_zero.
  destruct (ge_one_cases _ (Prim2SF_valid slope) H) as [E|(m & e & E & _)];
    rewrite E; reflexivity.
Qed.

(** The quotient of a number by a slope of at least 1 is a number, unless
    both are infinite. *)
Lemma quotient_not_nan (a slope : number) :
  is_nan a = false -> geb slope 1 = true ->
  is_infinity a && is_infinity slope = false ->
  is_nan (a / slope) = false.
Proof.
  unfold geb. intros Ha Hs Hi. rewrite leb_spec in Hs.
  apply not_nan_spec in Ha. apply not_nan_spec. rewrite div_spec.
  destruct (ge_one_cases _ (Prim2SF_valid slope) Hs) as [E|(m & e & E & _)].
  - pose proof (is_infinity_spec slope _ E) as Is. rewrite E.
    destruct (Prim2SF a) as [sa|sa| |sa ma ea] eqn:Ea; try discriminate.
    + rewrite (is_infinity_spec a _ Ea), Is in Hi. discriminate.
    + contradiction.
  - rewrite E.
    destruct (Prim2SF a) as [sa|sa| |sa ma ea] eqn:Ea; try discriminate.
    + contradiction.
    + unfold SF64div, SFdiv, SFdiv_core_binary.
      match goal with
      | |- context [Z.div_eucl ?x ?y] =>
          assert (Hq : fst (Z.div_eucl x y) = (x / y)%Z) by reflexivity;
          assert (Hx : (0 <= x)%Z);
          [|destruct (Z.div_eucl x y) as [q r]]
      end.
      * match goal with
        | |- context [Z.shiftl _ ?k] => destruct k as [|p|p]
        end; try apply Z.shiftl_nonneg; lia.
      * cbn [fst] in Hq. apply binary_round_aux_not_nan.
        rewrite Hq. apply Z.div_pos; lia.
Qed.

(** Clamping a number to [-1, 1]. *)
Lemma clamp_range (q : number) :
  is_nan q = false ->
  between (-1) 1 (Math_max [(-1)%float; Math_min [1%float; q]]) = true.
Proof.
  intros Hq. unfold Math_min, Math_max, Math_min_from.
  change (is_nan 1) with false. cbv iota.
  change (is_neg_zero 1 && is_pos_zero infinity) with false. cbv iota zeta.
  change (1 <? infinity)%float with true. cbv iota.
  rewrite Hq.
  change (is_pos_zero 1) with false. rewrite andb_false_r.
  set (m := if (q <? 1)%float then q else 1%float).
  assert (Hm : is_nan m = false) by (unfold m; destruct (q <? 1)%float; [assumption|reflexivity]).
  assert (Hm1 : (m <=? 1)%float = true).
  { unfold m. destruct (q <? 1)%float eqn:L; [now apply ltb_leb|reflexivity]. }
  unfold Math_max_from.
  change (is_nan (-1)) with false. cbv iota.
  change (is_pos_zero (-1) && is_neg_zero neg_infinity) with false. cbv iota zeta.
  change (neg_infinity <? -1)%float with true. cbv iota.
  rewrite Hm.
  change (is_neg_zero (-1)) with false. rewrite andb_false_r.
  unfold between.
  destruct (-1 <? m)%float eqn:L.
  - rewrite (ltb_leb _ _ L), Hm1. reflexivity.
  - reflexivity.
Qed.

(** The sigmoid of the code, on the value [Math.exp] returned. *)
Lemma sigmoid_range (e : number) :
  geb e 0 = true -> between 0 1 (1 / (1 + e)) = true.
Proof.
  unfold geb, between. intros H.
  destruct (div_one_range (1 + e) (add_one_ge_one e H)) as [H0 H1].
  now rewrite H0, H1.
Qed.

Lemma is_infinity_cases (a : number) :
  is_infinity a = true -> exists s, Prim2SF a = S754_infinity s.
Proof.
  unfold is_infinity. rewrite eqb_spec, abs_spec, Prim2SF_infinity.
  destruct (Prim2SF a) as [s|s| |s m e]; try discriminate.
  intros _. now exists s.
Qed.

(** The clamp lets [NaN] through, and the quotient of two infinities is
    [NaN]. *)
Lemma linear_output_nan (a slope gain : number) :
  is_nan a = true \/ is_infinity a && is_infinity slope = true ->
  is_nan (output Linear a slope gain) = true.
Proof.
  intros H. rewrite output_Linear.
  assert (E : (if strict_neq slope 0 then (a / slope)%float else a) = nan).
  { destruct H as [H|H].
    - apply is_nan_spec in H.
      assert (Ea : a = nan) by (apply Prim2SF_inj; now rewrite H).
      subst a. destruct (strict_neq slope 0); [|reflexivity].
      apply Prim2SF_inj. rewrite div_spec. reflexivity.
    - apply andb_prop in H. destruct H as [Ha Hs].
      apply is_infinity_cases in Ha, Hs. destruct Ha as [sa Ea], Hs as [ss Es].
      assert (N : strict_neq slope 0 = true).
      { unfold strict_neq. rewrite eqb_spec, Es, Prim2SF_zero. now destruct ss. }
      rewrite N. apply Prim2SF_inj. rewrite div_spec, Ea, Es. reflexivity. }
  rewrite E. reflexivity.
Qed.

(** A finite gain of at least 1, or its opposite, times a number is a
    number. *)
Lemma gain_times_number (negated : bool) (gain a : number) :
  geb gain 1 = true -> is_infinity gain = false -> is_nan a = false ->
  is_nan ((if negated then (- gain)%float else gain) * a) = false.
Proof.
  unfold geb. intros Hg Hi Ha. rewrite leb_spec in Hg.
  apply not_nan_spec in Ha. apply not_nan_spec. rewrite mul_spec.
  destruct (ge_one_cases _ (Prim2SF_valid gain) Hg) as [E|(m & e & E & _)].
  { rewrite (is_infinity_spec gain _ E) in Hi. discriminate. }
  assert (Eg : exists s, Prim2SF (if negated then (- gain)%float else gain)
                         = S754_finite s m e).
  { destruct negated; [|now exists false].
    exists true. rewrite opp_spec, E. reflexivity. }
  destruct Eg as [s Eg]. rewrite Eg.
  destruct (Prim2SF a) as [sa|sa| |sa ma ea]; try discriminate; [contradiction|].
  unfold SF64mul, SFmul. apply binary_round_aux_not_nan. lia.
Qed.

(** C2, as the code has it.  The step output is 0 or 1 and the sign
    output is -1 or 1 at every aggregated value, [NaN] included.  The
    linear output lies in [-1, 1] when the aggregated value is a number,
    the slope is at least 1 and the two are not both infinite; it is [NaN]
    when the aggregated value is [NaN] and when the two are both infinite.
    The sigmoid output lies in the closed interval [0, 1] whenever
    [Math.exp] returns a number that is not negative, and so at every
    aggregated value that is a number and every finite gain of at least 1
    when [Math.exp] is not negative on numbers.  The tanh output is the
    value [Math.tanh] returns at gain times the aggregated value, and so
    lies in the closed interval [-1, 1] at every aggregated value that is a
    number and every finite gain of at least 1 when [Math.tanh] maps
    numbers into [-1, 1]. *)
Theorem activation_output_ranges :
  (forall a slope gain,
      output Step a slope gain = 0%float \/ output Step a slope gain = 1%float)
  /\ (forall a slope gain,
        output Sign a slope gain = (-1)%float \/ output Sign a slope gain = 1%float)
  /\ (forall a slope gain,
        is_nan a = false -> geb slope 1 = true ->
        is_infinity a && is_infinity slope = false ->
        between (-1) 1 (output Linear a slope gain) = true)
  /\ (forall a slope gain,
        is_nan a = true \/ is_infinity a && is_infinity slope = true ->
        is_nan (output Linear a slope gain) = true)
  /\ (forall a slope gain,
        geb (Math_exp (- gain * a)) 0 = true ->
        between 0 1 (output (Sigmoid Math_exp) a slope gain) = true)
  /\ ((forall x, is_nan x = false -> geb (Math_exp x) 0 = true) ->
      forall a slope gain,
        is_nan a = false -> geb gain 1 = true -> is_infinity gain = false ->
        between 0 1 (output (Sigmoid Math_exp) a slope gain) = true)
  /\ (forall a slope gain,
        output (Tanh Math_tanh) a slope gain = Math_tanh (gain * a))
  /\ ((forall x, is_nan x = false -> between (-1) 1 (Math_tanh x) = true) ->
      forall a slope gain,
        is_nan a = false -> geb gain 1 = true -> is_infinity gain = false ->
        between (-1) 1 (output (Tanh Math_tanh) a slope gain) = true).
Proof.
  split; [|split; [|split; [|split; [|split; [|split; [|split]]]]]].
  - intros a slope gain. rewrite output_Step. simpl.
    destruct (geb a 0); auto.
  - intros a slope gain. rewrite output_Sign. simpl.
    destruct (gtb a 0); auto.
  - intros a slope gain Ha Hs Hi. rewrite output_Linear.
    rewrite (slope_not_zero slope Hs).
    apply clamp_range. now apply quotient_not_nan.
  - intros a slope gain. apply linear_output_nan.
  - intros a slope gain He. rewrite output_Sigmoid. now apply sigmoid_range.
  - intros Hexp a slope gain Ha Hg Hi. rewrite output_Sigmoid.
    apply sigmoid_range, Hexp. exact (gain_times_number true gain a Hg Hi Ha).
  - intros a slope gain. apply output_Tanh.
  - intros Htanh a slope gain Ha Hg Hi. rewrite output_Tanh.
    apply Htanh. exact (gain_times_number false gain a Hg Hi Ha).
Qed.

End Ranges.

(** The aggregated value can be [NaN] with finite inputs, and then so is the
    linear output: 1e200 * 1e200 overflows to [Infinity], and the product
    with the default input (0, 1) is [NaN].  The sigmoid output reaches both
    ends of [0, 1]: [Math.exp(-40)] is below half an ulp of 1, and
    [Math.exp(800)] overflows.  The tanh output reaches both ends of
    [-1, 1] wherever [Math.tanh] does, as at 20 and -20, where the
    hyperbolic tangent is within 1e-17 of 1 and -1. *)
Lemma output_outside_open_ranges :
  let aggregated :=
    aggregatedValue Product
      [ {| id := "1"; value := 1e200; weight := 1e200 |};
        {| id := "2"; value := 0; weight := 1 |} ] 0 in
  is_nan aggregated = true
  /\ (forall Math_exp Math_tanh gain,
        is_nan (output Math_exp Math_tanh Linear aggregated 1 gain) = true)
  /\ (forall x, is_nan x = true -> between (-1) 1 x = false)
  /\ (forall Math_exp Math_tanh slope,
        Math_exp (-40)%float = 4.248354255291589e-18%float ->
        output Math_exp Math_tanh (Sigmoid Math_exp) 40 slope 1 = 1%float)
  /\ (forall Math_exp Math_tanh slope,
        Math_exp 800%float = infinity ->
        output Math_exp Math_tanh (Sigmoid Math_exp) (-800) slope 1 = 0%float)
  /\ (forall Math_exp Math_tanh slope,
        Math_tanh 20%float = 1%float ->
        output Math_exp Math_tanh (Tanh Math_tanh) 20 slope 1 = 1%float)
  /\ (forall Math_exp Math_tanh slope,
        Math_tanh (-20)%float = (-1)%float ->
        output Math_exp Math_tanh (Tanh Math_tanh) (-20) slope 1 = (-1)%float)
  /\ (forall x, x = 1%float \/ x = (-1)%float ->
        (-1 <? x)%float && (x <? 1)%float = false)
  /\ (forall x, x = 0%float \/ x = 1%float ->
        (0 <? x)%float && (x <? 1)%float = false).
Proof.
  intros aggregated.
  assert (A : aggregated = nan) by (vm_compute; reflexivity).
  split; [|split; [|split; [|split; [|split; [|split; [|split; [|split]]]]]]];
    try (intros x [->| ->]; reflexivity).
  - rewrite A. reflexivity.
  - intros. rewrite A. vm_compute. reflexivity.
  - intros x Hx. unfold between. apply is_nan_spec in Hx.
    rewrite leb_spec, Hx. reflexivity.
  - intros Math_exp Math_tanh slope H. rewrite output_Sigmoid.
    change (- (1) * 40)%float with (-40)%float. rewrite H. vm_compute. reflexivity.
  - intros Math_exp Math_tanh slope H. rewrite output_Sigmoid.
    change (- (1) * -800)%float with 800%float. rewrite H. vm_compute. reflexivity.
  - intros Math_exp Math_tanh slope H. rewrite output_Tanh.
    change (1 * 20)%float with 20%float. exact H.
  - intros Math_exp Math_tanh slope H. rewrite output_Tanh.
    change (1 * -20)%float with (-20)%float. exact H.
Qed.

(** ** The viewport of the pan/zoom variant *)

Section ResetView.
Import PanZoom.

(** C8. [handleResetView] sets the pan to (0, 0) and the zoom to 1 from
    every viewport, and a second call changes nothing more. *)
Theorem resetView_idempotent :
  forall v : Viewport,
    handleResetView (handleResetView v) = handleResetView v
    /\ panX (handleResetView v) = 0%float
    /\ panY (handleResetView v) = 0%float
    /\ zoom (handleResetView v) = 1%float.
Proof.
  intros v. repeat split.
Qed.

(** The reset leaves the drag state alone. *)
Lemma resetView_keeps_drag (v : Viewport) :
  isDragging (handleResetView v) = isDragging v
  /\ dragStart (handleResetView v) = dragStart v.
Proof. split; reflexivity. Qed.

End ResetView.

(** ** Adding and removing inputs *)

Section InputCount.

Lemma addInput_length (inputs : list Input) :
  List.length (addInput inputs) = S (List.length inputs).
Proof.
  unfold addInput. rewrite length_app. simpl. lia.
Qed.

Lemma filter_length_le {A} (f : A -> bool) (l : list A) :
  (List.length (filter f l) <= List.length l)%nat.
Proof.
  induction l as [|a l IH]; simpl; [lia|]. destruct (f a); simpl; lia.
Qed.

Lemma removeInput_length_le (id0 : string) (inputs : list Input) :
  (List.length (removeInput id0 inputs) <= List.length inputs)%nat.
Proof.
  unfold removeInput. destruct (1 <? List.length inputs)%nat; [|lia].
  apply filter_length_le.
Qed.

Lemma removeInput_single (id0 : string) (inputs : list Input) :
  (List.length inputs <= 1)%nat -> removeInput id0 inputs = inputs.
Proof.
  intros H. unfold removeInput.
  destruct (Nat.ltb_spec 1 (List.length inputs)); [lia|reflexivity].
Qed.

(** An identifier that occurs once is dropped once. *)
Lemma filter_absent (id0 : string) (l : list Input) :
  ~ In id0 (map id l) ->
  filter (fun input => negb (String.eqb (id input) id0)) l = l.
Proof.
  induction l as [|a l IH]; simpl; intros H; [reflexivity|].
  destruct (String.eqb_spec (id a) id0) as [E|E]; simpl.
  - exfalso. apply H. now left.
  - f_equal. apply IH. intros I. apply H. now right.
Qed.

Lemma filter_distinct_length (id0 : string) (l : list Input) :
  NoDup (map id l) ->
  (List.length l
   <= S (List.length (filter (fun input => negb (String.eqb (id input) id0)) l)))%nat.
Proof.
  induction l as [|a l IH]; simpl; intros H; [lia|].
  inversion H as [|? ? Hnotin Hnodup]; subst.
  destruct (String.eqb_spec (id a) id0) as [E|E]; simpl.
  - subst id0. rewrite filter_absent by assumption. lia.
  - specialize (IH Hnodup). lia.
Qed.

Lemma clickAddInput_bound (inputs : list Input) :
  (List.length inputs <= 10)%nat -> (List.length (clickAddInput inputs) <= 10)%nat.
Proof.
  intros H. unfold clickAddInput.
  destruct (Nat.leb_spec 10 (List.length inputs)); [assumption|].
  rewrite addInput_length. lia.
Qed.

Lemma applyClick_bound (o : Op) (inputs : list Input) :
  (List.length inputs <= 10)%nat -> (List.length (applyClick o inputs) <= 10)%nat.
Proof.
  intros H. destruct o as [|id0]; simpl.
  - now apply clickAddInput_bound.
  - pose proof (removeInput_length_le id0 inputs). lia.
Qed.

Lemma runClicks_bound (ops : list Op) (inputs : list Input) :
  (List.length inputs <= 10)%nat -> (List.length (runClicks ops inputs) <= 10)%nat.
Proof.
  revert inputs. induction ops as [|o ops IH]; intros inputs H; simpl.
  - assumption.
  - apply IH. now apply applyClick_bound.
Qed.

(** C3, at the failing input.  The upper bound holds: [addInput] has no
    guard of its own, but the button that calls it is disabled from ten
    inputs on, so no sequence of clicks from the initial inputs gives more
    than ten; and [removeInput] changes nothing when a single input is left.
    The lower bound does not hold.  Removing input "1" and adding an input
    leaves two inputs, so that the guard [inputs.length > 1] lets the next
    removal through; both are called "2", the removal of "2" drops both, and
    no input remains.  With pairwise distinct identifiers a removal would
    leave at least one input. *)
Theorem removal_empties_the_inputs :
  (forall ops, (List.length (runClicks ops initialInputs) <= 10)%nat)
  /\ (forall id0 inputs,
        List.length inputs = 1%nat -> removeInput id0 inputs = inputs)
  /\ List.length (runClicks [OpRemoveInput "1"; OpAddInput] initialInputs) = 2%nat
  /\ List.length
       (runClicks [OpRemoveInput "1"; OpAddInput; OpRemoveInput "2"] initialInputs)
     = 0%nat
  /\ (forall id0 inputs,
        NoDup (map id inputs) -> (1 <= List.length inputs)%nat ->
        (1 <= List.length (removeInput id0 inputs))%nat).
Proof.
  split; [|split; [|split; [|split]]]; try reflexivity.
  - intros ops. apply runClicks_bound. simpl. lia.
  - intros id0 inputs H. apply removeInput_single. lia.
  - intros id0 inputs Hnd Hlen. unfold removeInput.
    destruct (Nat.ltb_spec 1 (List.length inputs)); [|assumption].
    pose proof (filter_distinct_length id0 inputs Hnd). lia.
Qed.

(** C4, at the failing input.  Removing input "1" and adding an input
    gives two inputs that are both called "2": the new identifier is the
    length plus one, which the remaining input already carries.  One more
    removal of "2" then empties the collection. *)
Theorem add_after_remove_repeats_identifier :
  map id (runClicks [OpRemoveInput "1"; OpAddInput] initialInputs)
  = ["2"; "2"]%string
  /\ (NoDup (map id (runClicks [OpRemoveInput "1"; OpAddInput] initialInputs))
      -> False)
  /\ runClicks [OpRemoveInput "1"; OpAddInput; OpRemoveInput "2"] initialInputs = [].
Proof.
  split; [|split]; try reflexivity.
  simpl. intros H. inversion H as [|? ? Hnotin _]; subst.
  apply Hnotin. now left.
Qed.

End InputCount.

(** ** Editing an input *)

Section UpdateInput.
Variable parseFloat : string -> number.

#[local] Abbreviation updateInput := (updateInput parseFloat).

(** C10. [updateInput] keeps the length and the order of the collection
    and every identifier; row by row it keeps the field that is not named,
    and it keeps an input whole when its identifier is not [id0]; when no
    input carries [id0] the collection is unchanged. *)
Theorem updateInput_frame (id0 : string) (field : Field) (raw : string)
    (inputs : list Input) :
  List.length (updateInput id0 field raw inputs) = List.length inputs
  /\ map id (updateInput id0 field raw inputs) = map id inputs
  /\ Forall2 (edited id0 field) inputs (updateInput id0 field raw inputs)
  /\ (~ In id0 (map id inputs) -> updateInput id0 field raw inputs = inputs).
Proof.
  unfold Neuron.updateInput.
  split; [apply length_map|].
  induction inputs as [|a l IH]; simpl.
  - repeat split; constructor.
  - destruct IH as (Hid & Hall & Hnone).
    destruct (String.eqb_spec (id a) id0) as [E|E].
    + split; [|split].
      * rewrite Hid. now destruct field.
      * constructor; [|exact Hall].
        unfold edited. destruct field; simpl; repeat split; intros; congruence.
      * intros Hn. exfalso. apply Hn. now left.
    + split; [|split].
      * now rewrite Hid.
      * constructor; [|exact Hall]. unfold edited. destruct field; repeat split.
      * intros Hn. f_equal. apply Hnone. intros I. apply Hn. now right.
Qed.

End UpdateInput.

(** ** The slope and gain fields *)

Section Parameters.
Variable parseFloat : string -> number.

#[local] Abbreviation slopeOf := (fun v => stored (handleLinearSlopeChange parseFloat v)).
#[local] Abbreviation gainOf := (fun v => stored (handleSigmoidGainChange parseFloat v)).

(** The slope field never stores less than 1: text that is empty, that
    does not parse, or that parses below 1 stores 1, anything else is
    stored as parsed. *)
Lemma linear_slope_clamped (v : string) :
  geb (slopeOf v) 1 = true
  /\ (v = ""%string -> slopeOf v = 1%float)
  /\ (isNaN (parseFloat v) = true -> slopeOf v = 1%float)
  /\ (geb (parseFloat v) 1 = false -> slopeOf v = 1%float)
  /\ (v <> ""%string -> geb (parseFloat v) 1 = true -> slopeOf v = parseFloat v).
Proof.
  unfold handleLinearSlopeChange.
  destruct (String.eqb_spec v "") as [E|E]; simpl.
  - repeat split; try reflexivity. congruence.
  - destruct (isNaN (parseFloat v)) eqn:N; simpl.
    + repeat split; try reflexivity; try congruence.
      intros _ G. unfold isNaN in N. apply is_nan_spec in N.
      unfold geb in G. rewrite leb_spec, N in G.
      destruct (Prim2SF 1); discriminate.
    + destruct (geb (parseFloat v) 1) eqn:G; simpl;
        repeat split; try reflexivity; try congruence.
Qed.

(** The gain field stores a number above 1 for every text that is not
    empty: 1.1 when the text does not parse or parses at or below 1. *)
Lemma sigmoid_gain_clamped (v : string) :
  v <> ""%string ->
  gtb (gainOf v) 1 = true
  /\ (isNaN (parseFloat v) = true -> gainOf v = 1.1%float)
  /\ (gtb (parseFloat v) 1 = false -> gainOf v = 1.1%float)
  /\ (gtb (parseFloat v) 1 = true -> gainOf v = parseFloat v).
Proof.
  intros E. unfold handleSigmoidGainChange.
  destruct (String.eqb_spec v "") as [E'|_]; [contradiction|]; simpl.
  destruct (isNaN (parseFloat v)) eqn:N; simpl.
  - repeat split; try reflexivity.
    intros G. unfold isNaN in N. apply is_nan_spec in N.
    unfold gtb in G. rewrite ltb_spec, N in G.
    destruct (Prim2SF 1); discriminate.
  - destruct (gtb (parseFloat v) 1) eqn:G; simpl;
      repeat split; try reflexivity; try congruence.
Qed.

(** C5, at the failing input.  Empty text in the gain field stores 1,
    which is not above 1, although the handler sets out to keep the gain
    above 1 and stores 1.1 for every other text it refuses. *)
Theorem empty_gain_text_stores_one :
  gainOf ""%string = 1%float
  /\ gtb (gainOf ""%string) 1 = false
  /\ stored initialSigmoidGain = 1%float.
Proof. repeat split. Qed.

End Parameters.

(** ** The conditional statements at concrete inputs *)

Lemma scenario_sum_step_at_3 :
  geb 3 0 = true /\ ActivationFunction.fn Step 3 = 1%float.
Proof.
  split; [reflexivity|].
  apply (proj2 (proj2 (scenario_sum_step (fun x => x) (fun x => x) "1" 1 1))).
  reflexivity.
Defined.

Lemma sign_strict_at_minus_2 :
  ((-2) <=? 0)%float = true /\ ActivationFunction.fn Sign (-2) = (-1)%float.
Proof.
  split; [reflexivity|].
  apply (proj1 (proj2 (sign_strict_at_zero (fun x => x) (fun x => x)))).
  reflexivity.
Defined.

Lemma linear_output_range_at_37 :
  is_nan 37 = false /\ geb 10 1 = true
  /\ is_infinity 37 && is_infinity 10 = false
  /\ between (-1) 1 (output (fun x => x) (fun x => x) Linear 37 10 1) = true.
Proof.
  split; [reflexivity|]. split; [reflexivity|]. split; [reflexivity|].
  apply (proj1 (proj2 (proj2 (activation_output_ranges (fun x => x) (fun x => x)))));
    reflexivity.
Defined.

Lemma updateInput_unknown_identifier :
  ~ In "7"%string (map id initialInputs)
  /\ updateInput (fun _ => 4%float) "7" Value "4" initialInputs = initialInputs.
Proof.
  assert (N : ~ In "7"%string (map id initialInputs)).
  { simpl. intros [E|[E|[]]]; discriminate. }
  split; [exact N|].
  apply (proj2 (proj2 (proj2 (updateInput_frame (fun _ => 4%float) "7" Value "4"
                                                initialInputs)))).
  exact N.
Defined.

(** ** More on the input list *)

Section Identifiers.

Lemma toString_inj (n n' : nat) : toString n = toString n' -> n = n'.
Proof.
  unfold toString. intros H.
  apply DecimalNat.Unsigned.to_uint_inj.
  assert (E : Some (Nat.to_uint n) = Some (Nat.to_uint n')).
  { rewrite <- !NilEmpty.usu. now rewrite H. }
  now injection E.
Qed.

Lemma run_adds (n : nat) (inputs : list Input) :
  run (repeat OpAddInput n) inputs = Nat.iter n addInput inputs.
Proof.
  revert inputs. induction n as [|n IH]; intros inputs; [reflexivity|].
  change (run (repeat OpAddInput (S n)) inputs)
    with (run (repeat OpAddInput n) (addInput inputs)).
  rewrite IH. clear IH. induction n as [|n IH]; [reflexivity|].
  simpl in *. now rewrite IH.
Qed.

Lemma addInput_ids (inputs : list Input) :
  map id inputs = map toString (seq 1 (List.length inputs)) ->
  map id (addInput inputs) = map toString (seq 1 (List.length (addInput inputs))).
Proof.
  intros H. rewrite addInput_length, seq_S, map_app.
  unfold addInput. rewrite map_app, H. simpl. now rewrite Nat.add_comm.
Qed.

(** As long as nothing is removed the identifiers are the decimal numbers
    1, 2, ... in order, hence pairwise distinct: after [n] calls of
    [addInput] from the initial inputs they are 1 to [n + 2]. *)
Theorem identifiers_without_removal (n : nat) :
  map id (run (repeat OpAddInput n) initialInputs) = map toString (seq 1 (n + 2))
  /\ NoDup (map id (run (repeat OpAddInput n) initialInputs)).
Proof.
  assert (H : map id (Nat.iter n addInput initialInputs)
              = map toString (seq 1 (List.length (Nat.iter n addInput initialInputs)))
              /\ List.length (Nat.iter n addInput initialInputs) = (n + 2)%nat).
  { induction n as [|n [IH1 IH2]]; [split; reflexivity|]. simpl. split.
    - now apply addInput_ids.
    - rewrite addInput_length, IH2. reflexivity. }
  destruct H as [H1 H2]. rewrite run_adds, H1, H2. split; [reflexivity|].
  apply Injective_map_NoDup; [|apply seq_NoDup].
  intros a b. apply toString_inj.
Qed.

(** [removeInput] on more than one input removes every input called [id0]
    and keeps the others, in their order; an identifier that no input
    carries removes nothing. *)
Theorem removeInput_result (id0 : string) (inputs : list Input) :
  (~ In id0 (map id inputs) -> removeInput id0 inputs = inputs)
  /\ ((1 < List.length inputs)%nat ->
      ~ In id0 (map id (removeInput id0 inputs))
      /\ (forall input, In input (removeInput id0 inputs)
                        <-> In input inputs /\ id input <> id0)
      /\ removeInput id0 inputs
         = filter (fun input => negb (String.eqb (id input) id0)) inputs).
Proof.
  split.
  - intros H. unfold removeInput.
    destruct (1 <? List.length inputs)%nat; [now apply filter_absent|reflexivity].
  - intros H. unfold removeInput.
    apply Nat.ltb_lt in H. rewrite H. split; [|split; [|reflexivity]].
    + rewrite in_map_iff. intros (x & Hx & Hin).
      apply filter_In in Hin. destruct Hin as [_ Hin].
      rewrite Hx, String.eqb_refl in Hin. discriminate.
    + intros input. rewrite filter_In. split; intros [H1 H2]; split; try assumption.
      * intros E. rewrite E, String.eqb_refl in H2. discriminate.
      * now apply Bool.negb_true_iff, String.eqb_neq.
Qed.

(** Adding an input and removing it again gives back the list, when the
    list is not empty and the new identifier is not already in use. *)
Theorem remove_after_add (inputs : list Input) :
  inputs <> [] ->
  ~ In (toString (List.length inputs + 1)) (map id inputs) ->
  removeInput (toString (List.length inputs + 1)) (addInput inputs) = inputs.
Proof.
  intros Hne Hfresh. unfold removeInput. rewrite addInput_length.
  assert (L : (1 <? S (List.length inputs))%nat = true).
  { apply Nat.ltb_lt. destruct inputs; [contradiction|simpl; lia]. }
  rewrite L. unfold addInput. rewrite filter_app, filter_absent by assumption.
  cbn [filter id]. rewrite String.eqb_refl. apply app_nil_r.
Qed.

End Identifiers.

Lemma remove_after_add_initial :
  initialInputs <> []
  /\ ~ In (toString (List.length initialInputs + 1)) (map id initialInputs)
  /\ removeInput "3" (addInput initialInputs) = initialInputs.
Proof.
  assert (H1 : initialInputs <> []) by discriminate.
  assert (H2 : ~ In (toString (List.length initialInputs + 1)) (map id initialInputs)).
  { simpl. intros [E|[E|[]]]; discriminate. }
  split; [exact H1|]. split; [exact H2|].
  exact (remove_after_add initialInputs H1 H2).
Defined.

Section Edits.
Variable parseFloat : string -> number.

#[local] Abbreviation updateInput := (updateInput parseFloat).
#[local] Abbreviation parseOrZero := (parseOrZero parseFloat).

Lemma removal_keeps_distinct (id0 : string) (inputs : list Input) :
  NoDup (map id inputs) ->
  NoDup (map id (filter (fun input => negb (String.eqb (id input) id0)) inputs)).
Proof.
  induction inputs as [|a rest IH]; intros H; [exact H|].
  apply NoDup_cons_iff in H. destruct H as [Ha Hrest]. cbn [filter].
  destruct (negb (String.eqb (id a) id0)); [|exact (IH Hrest)].
  cbn [map]. apply NoDup_cons; [|exact (IH Hrest)].
  intros Hin. apply Ha. apply in_map_iff in Hin. destruct Hin as (x & Ex & Hx).
  apply filter_In in Hx. rewrite <- Ex. apply in_map. exact (proj1 Hx).
Qed.

Lemma updateInput_ids (id0 : string) (field : Field) (raw : string)
    (inputs : list Input) :
  map id (updateInput id0 field raw inputs) = map id inputs.
Proof.
  unfold Neuron.updateInput. rewrite map_map. apply map_ext.
  intros a. destruct (String.eqb (id a) id0); [now destruct field|reflexivity].
Qed.

(** Removing an input and editing an input keep the identifiers pairwise
    distinct; only [addInput] can repeat one. *)
Theorem distinct_identifiers_kept (id0 : string) (field : Field) (raw : string)
    (inputs : list Input) :
  NoDup (map id inputs) ->
  NoDup (map id (removeInput id0 inputs))
  /\ NoDup (map id (updateInput id0 field raw inputs)).
Proof.
  intros H. split.
  - unfold removeInput. destruct (1 <? List.length inputs)%nat; [|assumption].
    now apply removal_keeps_distinct.
  - now rewrite updateInput_ids.
Qed.

(** Edits compose as assignments do: a second edit of the same field of the
    same input overrides the first; edits of the two fields of one input, and
    edits of inputs with different identifiers, can be made in either order. *)
Theorem updateInput_composition (inputs : list Input) :
  (forall id0 field raw1 raw2,
      updateInput id0 field raw2 (updateInput id0 field raw1 inputs)
      = updateInput id0 field raw2 inputs)
  /\ (forall id0 raw1 raw2,
        updateInput id0 Value raw1 (updateInput id0 Weight raw2 inputs)
        = updateInput id0 Weight raw2 (updateInput id0 Value raw1 inputs))
  /\ (forall id1 id2 field1 field2 raw1 raw2,
        id1 <> id2 ->
        updateInput id1 field1 raw1 (updateInput id2 field2 raw2 inputs)
        = updateInput id2 field2 raw2 (updateInput id1 field1 raw1 inputs)).
Proof.
  assert (K : forall field n (a : Input), id (setField field n a) = id a)
    by (intros [|] n a; reflexivity).
  unfold Neuron.updateInput. split; [|split]; intros; rewrite !map_map; apply map_ext;
    intros a.
  - destruct (String.eqb (id a) id0) eqn:E.
    + rewrite K, E. now destruct field.
    + now rewrite E.
  - destruct (String.eqb (id a) id0) eqn:E.
    + rewrite !K, E. reflexivity.
    + now rewrite E.
  - destruct (String.eqb (id a) id1) eqn:E1; destruct (String.eqb (id a) id2) eqn:E2;
      rewrite ?K, ?E1, ?E2; try reflexivity.
    apply String.eqb_eq in E1. apply String.eqb_eq in E2. congruence.
Qed.

Lemma is_zero_not_neg_zero (a : number) : is_zero a = false -> is_neg_zero a = false.
Proof. unfold is_neg_zero. now intros ->. Qed.

(** What the text of a number field is read as: never [NaN] and never [-0];
    [+0] for empty text and whenever [parseFloat] gives [NaN] or a zero;
    otherwise what [parseFloat] gives. *)
Lemma parseOrZero_spec (raw : string) :
  is_nan (parseOrZero raw) = false
  /\ is_neg_zero (parseOrZero raw) = false
  /\ (raw = ""%string -> parseOrZero raw = 0%float)
  /\ (falsy (parseFloat raw) = true -> parseOrZero raw = 0%float)
  /\ (raw <> ""%string -> falsy (parseFloat raw) = false ->
      parseOrZero raw = parseFloat raw).
Proof.
  unfold Neuron.parseOrZero, or_else.
  destruct (String.eqb_spec raw "") as [E|E].
  - repeat split; try reflexivity. congruence.
  - destruct (falsy (parseFloat raw)) eqn:F.
    + repeat split; try reflexivity. congruence.
    + unfold falsy in F. apply Bool.orb_false_iff in F. destruct F as [F1 F2].
      repeat split; try assumption; try congruence.
      now apply is_zero_not_neg_zero.
Qed.

Lemma setField_numeric (field : Field) (n : number) (input : Input) :
  is_nan n = false -> numeric input = true -> numeric (setField field n input) = true.
Proof.
  unfold numeric. intros Hn H. apply andb_prop in H. destruct H as [H1 H2].
  destruct field; simpl; rewrite Hn; simpl; assumption || now rewrite H1.
Qed.

Lemma applyEdit_numeric (e : Edit) (inputs : list Input) :
  forallb numeric inputs = true ->
  forallb numeric (applyEdit parseFloat e inputs) = true.
Proof.
  intros H. rewrite forallb_forall in H. apply forallb_forall.
  destruct e as [|id0|id0 field raw]; simpl; intros x Hx.
  - unfold addInput in Hx. apply in_app_or in Hx. destruct Hx as [Hx|[<-|[]]].
    + now apply H.
    + reflexivity.
  - unfold removeInput in Hx. destruct (1 <? List.length inputs)%nat.
    + apply filter_In in Hx. now apply H.
    + now apply H.
  - unfold Neuron.updateInput in Hx. apply in_map_iff in Hx.
    destruct Hx as (a & <- & Ha). destruct (String.eqb (id a) id0).
    + apply setField_numeric; [apply parseOrZero_spec|now apply H].
    + now apply H.
Qed.

(** No [NaN] enters through the text fields: from the initial inputs, every
    sequence of additions, removals and edits, whatever text is typed and
    whatever [parseFloat] makes of it, leaves every value and weight a
    number; and the bias read from its field is a number too. *)
Theorem edits_never_store_NaN (edits : list Edit) :
  forallb numeric (runEdits parseFloat edits initialInputs) = true
  /\ (forall raw, is_nan (stored (handleThetaChange parseFloat raw)) = false).
Proof.
  split.
  - assert (G : forall inputs, forallb numeric inputs = true ->
                forallb numeric (runEdits parseFloat edits inputs) = true).
    { induction edits as [|e edits IH]; intros inputs H; simpl; [assumption|].
      apply IH. now apply applyEdit_numeric. }
    apply G. reflexivity.
  - intros raw. apply parseOrZero_spec.
Qed.

End Edits.

Lemma distinct_identifiers_kept_initial :
  NoDup (map id initialInputs)
  /\ NoDup (map id (removeInput "2" initialInputs))
  /\ NoDup (map id (updateInput (fun _ => 4%float) "2" Weight "4" initialInputs)).
Proof.
  assert (N : NoDup (map id initialInputs)).
  { simpl. constructor.
    - intros [E|[]]. discriminate.
    - constructor; [intros []|constructor]. }
  split; [exact N|].
  exact (distinct_identifiers_kept (fun _ => 4%float) "2" Weight "4" initialInputs N).
Defined.

(** ** The slope field and the linear output together *)

Section SlopeAndOutput.
Variables Math_exp Math_tanh : number -> number.
Variable parseFloat : string -> number.

Lemma stored_slope_ge_one (raw : string) :
  geb (stored (handleLinearSlopeChange parseFloat raw)) 1 = true.
Proof.
  unfold handleLinearSlopeChange.
  destruct (String.eqb raw ""); [reflexivity|].
  destruct (isNaN (parseFloat raw)); [reflexivity|].
  cbn [or_else falsy orb]. destruct (geb (parseFloat raw) 1) eqn:G; [exact G|reflexivity].
Qed.


End SlopeAndOutput.


Lemma sigmoid_gain_clamped_at_2 :
  "2"%string <> ""%string
  /\ gtb (stored (handleSigmoidGainChange (fun _ => 2%float) "2")) 1 = true.
Proof.
  assert (H : "2"%string <> ""%string) by discriminate.
  split; [exact H|].
  exact (proj1 (sigmoid_gain_clamped (fun _ => 2%float) "2" H)).
Defined.

(** ** The viewport as a state machine *)

Section ViewportMachine.
Import PanZoom.

Lemma leb_not_nan_l (a b : number) : (a <=? b)%float = true -> is_nan a = false.
Proof.
  intros H. destruct (is_nan a) eqn:N; [|reflexivity].
  apply is_nan_spec in N. rewrite leb_spec, N in H. discriminate.
Qed.

Lemma leb_not_nan_r (a b : number) : (a <=? b)%float = true -> is_nan b = false.
Proof.
  intros H. destruct (is_nan b) eqn:N; [|reflexivity].
  apply is_nan_spec in N. rewrite leb_spec, N in H.
  destruct (Prim2SF a); discriminate.
Qed.

Lemma SFmul_finite_not_nan (x : spec_float) (s : bool) (m : positive) (e : Z) :
  x <> S754_nan -> SF64mul x (S754_finite s m e) <> S754_nan.
Proof.
  intros Hx. destruct x as [sx|sx| |sx mx ex]; try discriminate; [contradiction|].
  unfold SF64mul, SFmul. apply binary_round_aux_not_nan. lia.
Qed.

Lemma SFdiv_finite_not_nan (x : spec_float) (s : bool) (m : positive) (e : Z) :
  x <> S754_nan -> SF64div x (S754_finite s m e) <> S754_nan.
Proof.
  intros Hx. destruct x as [sx|sx| |sx mx ex]; try discriminate; [contradiction|].
  unfold SF64div, SFdiv, SFdiv_core_binary.
  match goal with
  | |- context [Z.div_eucl ?x ?y] =>
      assert (Hq : fst (Z.div_eucl x y) = (x / y)%Z) by reflexivity;
      assert (Hx0 : (0 <= x)%Z);
      [|destruct (Z.div_eucl x y) as [q r]]
  end.
  - match goal with
    | |- context [Z.shiftl _ ?k] => destruct k as [|p|p]
    end; try apply Z.shiftl_nonneg; lia.
  - cbn [fst] in Hq. apply binary_round_aux_not_nan.
    rewrite Hq. apply Z.div_pos; lia.
Qed.

(** Products and quotients by a finite constant that is not zero are
    numbers when the other operand is. *)
Lemma mul_finite_not_nan (a c : number) :
  (exists s m e, Prim2SF c = S754_finite s m e) ->
  is_nan a = false -> is_nan (a * c) = false.
Proof.
  intros (s & m & e & E) Ha. apply not_nan_spec in Ha. apply not_nan_spec.
  rewrite mul_spec, E. now apply SFmul_finite_not_nan.
Qed.

Lemma div_finite_not_nan (a c : number) :
  (exists s m e, Prim2SF c = S754_finite s m e) ->
  is_nan a = false -> is_nan (a / c) = false.
Proof.
  intros (s & m & e & E) Ha. apply not_nan_spec in Ha. apply not_nan_spec.
  rewrite div_spec, E. now apply SFdiv_finite_not_nan.
Qed.

(** [Math.max(lo, Math.min(hi, q))] for constants [lo <= hi] that are
    finite and not zero. *)
Lemma clamp_between (lo hi q : number) :
  is_nan lo = false -> is_nan hi = false ->
  is_zero lo = false -> is_zero hi = false ->
  (neg_infinity <? lo)%float = true -> (hi <? infinity)%float = true ->
  (lo <=? hi)%float = true ->
  is_nan q = false ->
  between lo hi (Math_max [lo; Math_min [hi; q]]) = true.
Proof.
  intros Nlo Nhi Zlo Zhi Llo Lhi Hle Hq.
  unfold Math_min, Math_min_from, is_pos_zero, is_neg_zero. cbv zeta.
  rewrite Nhi, Zhi. cbn [andb]. rewrite Lhi, Hq, Zhi. cbn [andb].
  rewrite andb_false_r.
  set (m := if (q <? hi)%float then q else hi).
  assert (Hm : is_nan m = false) by (unfold m; destruct (q <? hi)%float; assumption).
  assert (Hm1 : (m <=? hi)%float = true).
  { unfold m. destruct (q <? hi)%float eqn:L; [now apply ltb_leb|now apply leb_refl]. }
  unfold Math_max, Math_max_from, is_pos_zero, is_neg_zero. cbv zeta.
  rewrite Nlo, Zlo. cbn [andb]. rewrite Llo, Hm, Zlo. cbn [andb].
  rewrite andb_false_r.
  unfold between. destruct (lo <? m)%float eqn:L.
  - now rewrite (ltb_leb _ _ L), Hm1.
  - now rewrite (leb_refl lo Nlo), Hle.
Qed.

(** [Math.min(p, hi)] is at most [hi], and [Math.max(p, lo)] at least [lo],
    for a number [p] and a constant that is finite and not zero. *)
Lemma min_capped (p hi : number) :
  is_nan p = false -> is_nan hi = false -> is_zero hi = false ->
  (Math_min [p; hi] <=? hi)%float = true.
Proof.
  intros Np Nhi Zhi. unfold Math_min, Math_min_from, is_pos_zero, is_neg_zero.
  cbv zeta. rewrite Np. change (is_zero infinity) with false.
  cbn [andb]. rewrite andb_false_r.
  set (l := if (p <? infinity)%float then p else infinity).
  rewrite Nhi, Zhi. cbn [andb].
  assert (Nl : is_nan l = false)
    by (unfold l; destruct (p <? infinity)%float; [assumption|reflexivity]).
  destruct (hi <? l)%float eqn:L.
  - now apply leb_refl.
  - destruct (ltb_or_geb hi l Nhi Nl) as [H|H]; [congruence|assumption].
Qed.

Lemma max_floored (p lo : number) :
  is_nan p = false -> is_nan lo = false -> is_zero lo = false ->
  (lo <=? Math_max [p; lo])%float = true.
Proof.
  intros Np Nlo Zlo. unfold Math_max, Math_max_from, is_pos_zero, is_neg_zero.
  cbv zeta. rewrite Np. change (is_zero neg_infinity) with false.
  rewrite andb_false_r.
  set (h := if (neg_infinity <? p)%float then p else neg_infinity).
  rewrite Nlo, Zlo. cbn [andb].
  destruct (h <? lo)%float eqn:L.
  - now apply leb_refl.
  - assert (Nh : is_nan h = false)
      by (unfold h; destruct (neg_infinity <? p)%float; [assumption|reflexivity]).
    destruct (ltb_or_geb h lo Nh Nlo) as [H|H]; [congruence|assumption].
Qed.

Lemma finite_1_2 : exists s m e, Prim2SF 1.2 = S754_finite s m e.
Proof. vm_compute. do 3 eexists. reflexivity. Qed.

Lemma finite_0_9 : exists s m e, Prim2SF 0.9 = S754_finite s m e.
Proof. vm_compute. do 3 eexists. reflexivity. Qed.

Lemma finite_1_1 : exists s m e, Prim2SF 1.1 = S754_finite s m e.
Proof. vm_compute. do 3 eexists. reflexivity. Qed.

Lemma wheel_zoom_range (v : Viewport) (deltaY : number) :
  is_nan (zoom v) = false ->
  between 0.2 1.5 (zoom (handleWheel deltaY v)) = true.
Proof.
  intros Hz. unfold handleWheel, setZoom. cbn [zoom].
  apply clamp_between; try reflexivity.
  destruct (gtb deltaY 0); apply mul_finite_not_nan;
    auto using finite_0_9, finite_1_1.
Qed.

Lemma zoomIn_capped (v : Viewport) :
  is_nan (zoom v) = false -> (zoom (handleZoomIn v) <=? 1.5)%float = true.
Proof.
  intros Hz. unfold handleZoomIn, setZoom. cbn [zoom].
  apply min_capped; try reflexivity.
  apply mul_finite_not_nan; auto using finite_1_2.
Qed.

Lemma zoomOut_floored (v : Viewport) :
  is_nan (zoom v) = false -> (0.2 <=? zoom (handleZoomOut v))%float = true.
Proof.
  intros Hz. unfold handleZoomOut, setZoom. cbn [zoom].
  apply max_floored; try reflexivity.
  apply div_finite_not_nan; auto using finite_1_2.
Qed.

(** The zoom handlers on a zoom that is a number: a wheel notch leaves the
    zoom in [0.2, 1.5] wherever it was, zooming in never exceeds 1.5 and
    zooming out never goes below 0.2. *)
Theorem zoom_handlers_bounds (v : Viewport) (deltaY : number) :
  is_nan (zoom v) = false ->
  between 0.2 1.5 (zoom (handleWheel deltaY v)) = true
  /\ (zoom (handleZoomIn v) <=? 1.5)%float = true
  /\ (0.2 <=? zoom (handleZoomOut v))%float = true.
Proof.
  intros Hz.
  auto using wheel_zoom_range, zoomIn_capped, zoomOut_floored.
Qed.

Lemma handle_idle (e : Event) (v : Viewport) :
  isDragging v = false -> startsDragOrResets e = false ->
  isDragging (handle e v) = false
  /\ panX (handle e v) = panX v /\ panY (handle e v) = panY v.
Proof.
  intros Hd He.
  destruct e as [| | |deltaY|cx cy|cx cy| |]; try discriminate;
    cbn [handle]; try (repeat split; assumption || reflexivity).
  unfold handleMouseMove. rewrite Hd. repeat split. assumption.
Qed.

(** The pan moves only in a drag: from a viewport that is not being dragged,
    a sequence of events without a mouse-down and without a reset leaves the
    pan where it was, and the viewport not dragged. *)
Theorem pan_fixed_without_drag (events : list Event) (v : Viewport) :
  isDragging v = false ->
  forallb (fun e => negb (startsDragOrResets e)) events = true ->
  panX (runEvents events v) = panX v
  /\ panY (runEvents events v) = panY v
  /\ isDragging (runEvents events v) = false.
Proof.
  revert v. induction events as [|e events IH]; intros v Hd He; simpl.
  - repeat split. assumption.
  - simpl in He. apply andb_prop in He. destruct He as [He1 He2].
    apply Bool.negb_true_iff in He1.
    destruct (handle_idle e v Hd He1) as (Hd' & Hx & Hy).
    destruct (IH (handle e v) Hd' He2) as (Hx' & Hy' & Hd'').
    rewrite Hx', Hy', Hx, Hy. repeat split. assumption.
Qed.

End ViewportMachine.

Lemma zoom_handlers_bounds_initial :
  is_nan (PanZoom.zoom PanZoom.initialViewport) = false
  /\ between 0.2 1.5 (PanZoom.zoom (PanZoom.handleWheel 3 PanZoom.initialViewport)) = true.
Proof.
  split; [reflexivity|].
  exact (proj1 (zoom_handlers_bounds PanZoom.initialViewport 3 eq_refl)).
Defined.

Lemma pan_fixed_without_drag_initial :
  PanZoom.isDragging PanZoom.initialViewport = false
  /\ PanZoom.panX
       (PanZoom.runEvents [PanZoom.Wheel 3; PanZoom.MouseMove 10 20; PanZoom.ZoomIn]
                          PanZoom.initialViewport) = 0%float.
Proof.
  split; [reflexivity|].
  exact (proj1 (pan_fixed_without_drag
                  [PanZoom.Wheel 3; PanZoom.MouseMove 10 20; PanZoom.ZoomIn]
                  PanZoom.initialViewport eq_refl eq_refl)).
Defined.

(** ** Maximum and minimum *)

Section Extremes.

Lemma SFleb_trans (a b c : spec_float) :
  SFleb a b = true -> SFleb b c = true -> SFleb a c = true.
Proof.
  unfold SFleb, SFcompare.
  destruct a as [sa|sa| |sa ma ea], b as [sb|sb| |sb mb eb], c as [sc|sc| |sc mc ec];
    try discriminate; try reflexivity;
    try (destruct sa; try discriminate; try reflexivity);
    try (destruct sb; try discriminate; try reflexivity);
    try (destruct sc; try discriminate; try reflexivity);
    rewrite ?Pos.compare_cont_spec; unfold Pos.switch_Eq;
    repeat match goal with
           | |- context [Z.compare ?x ?y] => destruct (Z.compare_spec x y)
           | |- context [Pos.compare ?x ?y] => destruct (Pos.compare_spec x y)
           end; simpl; try discriminate; try reflexivity; intros; exfalso; lia.
Qed.

Lemma leb_trans (a b c : number) :
  (a <=? b)%float = true -> (b <=? c)%float = true -> (a <=? c)%float = true.
Proof. rewrite !leb_spec. apply SFleb_trans. Qed.

Lemma is_zero_spec (a : number) :
  is_zero a = true -> exists s, Prim2SF a = S754_zero s.
Proof.
  unfold is_zero. change zero with 0%float.
  rewrite eqb_spec, Prim2SF_zero. unfold SFeqb, SFcompare.
  destruct (Prim2SF a) as [s|s| |s m e]; try discriminate.
  - intros _. now exists s.
  - destruct s; discriminate.
  - destruct s; discriminate.
Qed.

Lemma is_pos_zero_spec (a : number) : is_pos_zero a = true -> a = zero.
Proof.
  unfold is_pos_zero. intros H. apply andb_prop in H. destruct H as [Hz Hs].
  apply Bool.negb_true_iff in Hs. unfold get_sign in Hs. rewrite Hz in Hs.
  destruct (is_zero_spec a Hz) as [s E].
  change zero with 0%float in Hs. change one with 1%float in Hs.
  rewrite ltb_spec, div_spec, E, Prim2SF_one, Prim2SF_zero in Hs.
  destruct s; [discriminate|]. apply Prim2SF_inj.
  change zero with 0%float. now rewrite E, Prim2SF_zero.
Qed.

Lemma is_neg_zero_spec (a : number) : is_neg_zero a = true -> a = neg_zero.
Proof.
  unfold is_neg_zero. intros H. apply andb_prop in H. destruct H as [Hz Hs].
  unfold get_sign in Hs. rewrite Hz in Hs.
  destruct (is_zero_spec a Hz) as [s E].
  change zero with 0%float in Hs. change one with 1%float in Hs.
  rewrite ltb_spec, div_spec, E, Prim2SF_one, Prim2SF_zero in Hs.
  destruct s; [|discriminate]. apply Prim2SF_inj. rewrite E.
  vm_compute. reflexivity.
Qed.

(** One round of the loop of [Math.max]. *)
Lemma max_step (h n : number) :
  is_nan h = false -> is_nan n = false ->
  let h1 := if is_pos_zero n && is_neg_zero h then zero else h in
  let h2 := if (h1 <? n)%float then n else h1 in
  is_nan h2 = false /\ (h <=? h2)%float = true /\ (n <=? h2)%float = true
  /\ (h2 = h \/ h2 = n).
Proof.
  intros Nh Nn. cbv zeta.
  destruct (is_pos_zero n && is_neg_zero h) eqn:Z.
  - apply andb_prop in Z. destruct Z as [Zn Zh].
    apply is_pos_zero_spec in Zn. apply is_neg_zero_spec in Zh. subst n h.
    repeat split; auto.
  - destruct (h <? n)%float eqn:L.
    + repeat split; auto using ltb_leb, leb_refl.
    + destruct (ltb_or_geb h n Nh Nn) as [H|H]; [congruence|].
      repeat split; auto using leb_refl.
Qed.

Lemma min_step (l n : number) :
  is_nan l = false -> is_nan n = false ->
  let l1 := if is_neg_zero n && is_pos_zero l then neg_zero else l in
  let l2 := if (n <? l1)%float then n else l1 in
  is_nan l2 = false /\ (l2 <=? l)%float = true /\ (l2 <=? n)%float = true
  /\ (l2 = l \/ l2 = n).
Proof.
  intros Nl Nn. cbv zeta.
  destruct (is_neg_zero n && is_pos_zero l) eqn:Z.
  - apply andb_prop in Z. destruct Z as [Zn Zl].
    apply is_neg_zero_spec in Zn. apply is_pos_zero_spec in Zl. subst n l.
    repeat split; auto.
  - destruct (n <? l)%float eqn:L.
    + repeat split; auto using ltb_leb, leb_refl.
    + destruct (ltb_or_geb n l Nn Nl) as [H|H]; [congruence|].
      repeat split; auto using leb_refl.
Qed.

Lemma Math_max_from_spec (args : list number) (h : number) :
  is_nan h = false -> forallb (fun x => negb (is_nan x)) args = true ->
  (h <=? Math_max_from h args)%float = true
  /\ (forall x, In x args -> (x <=? Math_max_from h args)%float = true)
  /\ (Math_max_from h args = h \/ In (Math_max_from h args) args).
Proof.
  revert h. induction args as [|n rest IH]; intros h Nh Hall; simpl.
  - repeat split; auto using leb_refl.
  - simpl in Hall. apply andb_prop in Hall. destruct Hall as [Nn Hall].
    apply Bool.negb_true_iff in Nn. rewrite Nn.
    destruct (max_step h n Nh Nn) as (N2 & H1 & H2 & H3).
    destruct (IH _ N2 Hall) as (I1 & I2 & I3).
    split; [|split].
    + eapply leb_trans; eassumption.
    + intros x [<-|Hx]; [eapply leb_trans; eassumption|now apply I2].
    + destruct I3 as [I3|I3]; [|now right; right].
      rewrite I3. destruct H3 as [->| ->]; [now left|now right; left].
Qed.

Lemma Math_min_from_spec (args : list number) (l : number) :
  is_nan l = false -> forallb (fun x => negb (is_nan x)) args = true ->
  (Math_min_from l args <=? l)%float = true
  /\ (forall x, In x args -> (Math_min_from l args <=? x)%float = true)
  /\ (Math_min_from l args = l \/ In (Math_min_from l args) args).
Proof.
  revert l. induction args as [|n rest IH]; intros l Nl Hall; simpl.
  - repeat split; auto using leb_refl.
  - simpl in Hall. apply andb_prop in Hall. destruct Hall as [Nn Hall].
    apply Bool.negb_true_iff in Nn. rewrite Nn.
    destruct (min_step l n Nl Nn) as (N2 & H1 & H2 & H3).
    destruct (IH _ N2 Hall) as (I1 & I2 & I3).
    split; [|split].
    + eapply leb_trans; eassumption.
    + intros x [<-|Hx]; [eapply leb_trans; eassumption|now apply I2].
    + destruct I3 as [I3|I3]; [|now right; right].
      rewrite I3. destruct H3 as [->| ->]; [now left|now right; left].
Qed.

Lemma Math_max_from_nan (args : list number) (h : number) :
  existsb is_nan args = true -> Math_max_from h args = nan.
Proof.
  revert h. induction args as [|n rest IH]; intros h H; simpl in *; [discriminate|].
  destruct (is_nan n); [reflexivity|]. now apply IH.
Qed.

Lemma Math_min_from_nan (args : list number) (l : number) :
  existsb is_nan args = true -> Math_min_from l args = nan.
Proof.
  revert l. induction args as [|n rest IH]; intros l H; simpl in *; [discriminate|].
  destruct (is_nan n); [reflexivity|]. now apply IH.
Qed.

Lemma leb_neg_infinity (x : number) :
  (x <=? neg_infinity)%float = true -> x = neg_infinity.
Proof.
  rewrite leb_spec. change (Prim2SF neg_infinity) with (S754_infinity true).
  intros H. apply Prim2SF_inj. change (Prim2SF neg_infinity) with (S754_infinity true).
  unfold SFleb, SFcompare in H.
  destruct (Prim2SF x) as [s|s| |s m e]; try discriminate.
  destruct s; [reflexivity|discriminate].
Qed.

Lemma infinity_leb (x : number) :
  (infinity <=? x)%float = true -> x = infinity.
Proof.
  rewrite leb_spec, Prim2SF_infinity.
  intros H. apply Prim2SF_inj. rewrite Prim2SF_infinity.
  unfold SFleb, SFcompare in H.
  destruct (Prim2SF x) as [s|s| |s m e]; try discriminate.
  destruct s; [discriminate|reflexivity].
Qed.

(** [Math.max] and [Math.min] of a list of numbers that is not empty: the
    result is one of the arguments, and it bounds all of them. *)
Lemma Math_max_spec (args : list number) :
  args <> [] -> forallb (fun x => negb (is_nan x)) args = true ->
  In (Math_max args) args
  /\ forall x, In x args -> (x <=? Math_max args)%float = true.
Proof.
  intros Hne Hall. unfold Math_max.
  destruct (Math_max_from_spec args neg_infinity eq_refl Hall) as (_ & H2 & H3).
  split; [|assumption].
  destruct H3 as [H3|H3]; [|assumption].
  destruct args as [|a rest]; [contradiction|].
  pose proof (H2 a (or_introl eq_refl)) as Ha. rewrite H3 in Ha.
  apply leb_neg_infinity in Ha. rewrite H3, <- Ha. now left.
Qed.

Lemma Math_min_spec (args : list number) :
  args <> [] -> forallb (fun x => negb (is_nan x)) args = true ->
  In (Math_min args) args
  /\ forall x, In x args -> (Math_min args <=? x)%float = true.
Proof.
  intros Hne Hall. unfold Math_min.
  destruct (Math_min_from_spec args infinity eq_refl Hall) as (_ & H2 & H3).
  split; [|assumption].
  destruct H3 as [H3|H3]; [|assumption].
  destruct args as [|a rest]; [contradiction|].
  pose proof (H2 a (or_introl eq_refl)) as Ha. rewrite H3 in Ha.
  apply infinity_leb in Ha. rewrite H3, <- Ha. now left.
Qed.

End Extremes.

Section ExtremeAggregations.

Lemma products_not_nan (inputs : list Input) :
  forallb (fun i => negb (is_nan (value i * weight i))) inputs = true ->
  forallb (fun x => negb (is_nan x))
          (map (fun i => (value i * weight i)%float) inputs) = true.
Proof.
  induction inputs as [|a l IH]; simpl; [reflexivity|].
  intros H. apply andb_prop in H. destruct H as [H1 H2]. now rewrite H1, IH.
Qed.

(** The maximum and minimum aggregations of inputs whose products
    [value * weight] are numbers: each returns the product of one of the
    inputs, the maximum is at least and the minimum at most every product. *)
Theorem extreme_aggregations (inputs : list Input) :
  inputs <> [] ->
  forallb (fun i => negb (is_nan (value i * weight i))) inputs = true ->
  (exists i, In i inputs
             /\ AggregationFunction.fn Maximum inputs = (value i * weight i)%float)
  /\ (forall i, In i inputs ->
                (value i * weight i <=? AggregationFunction.fn Maximum inputs)%float = true)
  /\ (exists i, In i inputs
                /\ AggregationFunction.fn Minimum inputs = (value i * weight i)%float)
  /\ (forall i, In i inputs ->
                (AggregationFunction.fn Minimum inputs <=? value i * weight i)%float = true).
Proof.
  intros Hne Hall. apply products_not_nan in Hall.
  assert (Hne' : map (fun i => (value i * weight i)%float) inputs <> [])
    by (destruct inputs; [contradiction|discriminate]).
  destruct (Math_max_spec _ Hne' Hall) as [M1 M2].
  destruct (Math_min_spec _ Hne' Hall) as [m1 m2].
  cbn [AggregationFunction.fn Maximum Minimum].
  split; [|split; [|split]].
  - apply in_map_iff in M1. destruct M1 as (i & E & Hi). exists i. now split.
  - intros i Hi. apply M2. now apply (in_map (fun i => (value i * weight i)%float)).
  - apply in_map_iff in m1. destruct m1 as (i & E & Hi). exists i. now split.
  - intros i Hi. apply m2. now apply (in_map (fun i => (value i * weight i)%float)).
Qed.

Lemma add_nan_l (x : number) : (nan + x)%float = nan.
Proof. apply Prim2SF_inj. rewrite add_spec. reflexivity. Qed.

Lemma add_nan_r (x : number) : (x + nan)%float = nan.
Proof.
  apply Prim2SF_inj. rewrite add_spec.
  change (Prim2SF nan) with S754_nan. now destruct (Prim2SF x).
Qed.

Lemma mul_nan_l (x : number) : (nan * x)%float = nan.
Proof. apply Prim2SF_inj. rewrite mul_spec. reflexivity. Qed.

Lemma is_nan_eq (x : number) : is_nan x = true -> x = nan.
Proof.
  intros H. apply is_nan_spec in H. apply Prim2SF_inj. now rewrite H.
Qed.

Lemma sum_nan (inputs : list Input) (acc : number) :
  acc = nan \/ existsb (fun i => is_nan (value i * weight i)) inputs = true ->
  fold_left (fun sum input => (sum + value input * weight input)%float) inputs acc = nan.
Proof.
  revert acc. induction inputs as [|a l IH]; intros acc H; simpl in *.
  - destruct H as [H|H]; [assumption|discriminate].
  - apply IH. destruct H as [->|H]; [left; apply add_nan_l|].
    apply Bool.orb_true_iff in H. destruct H as [H|H]; [|now right].
    left. apply is_nan_eq in H. rewrite H. apply add_nan_r.
Qed.

Lemma mul_nan_r (x : number) : (x * nan)%float = nan.
Proof.
  apply Prim2SF_inj. rewrite mul_spec.
  change (Prim2SF nan) with S754_nan. now destruct (Prim2SF x).
Qed.

Lemma product_nan (inputs : list Input) (acc : number) :
  acc = nan \/ existsb (fun i => is_nan (value i * weight i)) inputs = true ->
  fold_left (fun prod input => (prod * (value input * weight input))%float) inputs acc
  = nan.
Proof.
  revert acc. induction inputs as [|a l IH]; intros acc H; simpl in *.
  - destruct H as [H|H]; [assumption|discriminate].
  - apply IH. destruct H as [->|H]; [left; apply mul_nan_l|].
    apply Bool.orb_true_iff in H. destruct H as [H|H]; [|now right].
    left. apply is_nan_eq in H. rewrite H. apply mul_nan_r.
Qed.

Lemma existsb_products (inputs : list Input) :
  existsb (fun i => is_nan (value i * weight i)) inputs
  = existsb is_nan (map (fun i => (value i * weight i)%float) inputs).
Proof.
  induction inputs as [|a l IH]; simpl; [reflexivity|]. now rewrite IH.
Qed.

(** One product [value * weight] that is [NaN] (an infinite value with a
    zero weight, say) makes the aggregated value [NaN] under each of the four
    aggregations, and so does a [NaN] bias; the step output is then 0, the
    sign output -1 and the linear output [NaN]. *)
Theorem NaN_propagates (a : AggregationFunction.t) (inputs : list Input)
    (theta : number) :
  In a aggregationFunctions ->
  existsb (fun i => is_nan (value i * weight i)) inputs = true \/ is_nan theta = true ->
  aggregatedValue a inputs theta = nan
  /\ ActivationFunction.fn Step nan = 0%float
  /\ ActivationFunction.fn Sign nan = (-1)%float
  /\ (forall Math_exp Math_tanh slope gain,
        output Math_exp Math_tanh Linear nan slope gain = nan).
Proof.
  intros Ha H. split; [|split; [reflexivity|split; [reflexivity|]]].
  - unfold aggregatedValue. destruct H as [H|H].
    + assert (E : AggregationFunction.fn a inputs = nan).
      { destruct Ha as [<-|[<-|[<-|[<-|[]]]]]; cbn [AggregationFunction.fn Sum Product
                                                     Maximum Minimum]; unfold reduce.
        - apply sum_nan. now right.
        - apply product_nan. now right.
        - apply Math_max_from_nan. now rewrite <- existsb_products.
        - apply Math_min_from_nan. now rewrite <- existsb_products. }
      rewrite E. apply add_nan_l.
    + apply is_nan_eq in H. rewrite H. apply add_nan_r.
  - intros. rewrite output_Linear.
    assert (E : (if strict_neq slope 0 then (nan / slope)%float else nan) = nan).
    { destruct (strict_neq slope 0); [|reflexivity].
      apply Prim2SF_inj. rewrite div_spec. reflexivity. }
    rewrite E. reflexivity.
Qed.

End ExtremeAggregations.

Lemma extreme_aggregations_of_two :
  let inputs := [ {| id := "1"; value := 2; weight := 3 |};
                  {| id := "2"; value := -1; weight := 4 |} ] in
  inputs <> []
  /\ (6 <=? AggregationFunction.fn Maximum inputs)%float = true.
Proof.
  split; [discriminate|].
  refine (proj1 (proj2 (extreme_aggregations
                          [ {| id := "1"; value := 2; weight := 3 |};
                            {| id := "2"; value := -1; weight := 4 |} ] _ eq_refl))
                {| id := "1"; value := 2; weight := 3 |} _).
  - discriminate.
  - now left.
Defined.

Lemma NaN_propagates_infinite_value :
  In Product aggregationFunctions
  /\ (existsb (fun i => is_nan (value i * weight i))
              [ {| id := "1"; value := infinity; weight := 0 |};
                {| id := "2"; value := 3; weight := 1 |} ] = true
      \/ is_nan 0 = true)
  /\ aggregatedValue Product
       [ {| id := "1"; value := infinity; weight := 0 |};
         {| id := "2"; value := 3; weight := 1 |} ] 0 = nan.
Proof.
  assert (H1 : In Product aggregationFunctions) by (right; now left).
  assert (H2 : existsb (fun i => is_nan (value i * weight i))
                 [ {| id := "1"; value := infinity; weight := 0 |};
                   {| id := "2"; value := 3; weight := 1 |} ] = true
               \/ is_nan 0 = true) by (left; reflexivity).
  split; [exact H1|]. split; [exact H2|].
  exact (proj1 (NaN_propagates Product _ 0 H1 H2)).
Defined.

(** ** The rectifiers of the pan/zoom variant *)

Section Rectifiers.

Lemma binary_round_aux_sign (s : bool) (mx ex : Z) (lx : location) :
  (0 <= mx)%Z ->
  match binary_round_aux prec emax s mx ex lx with
  | S754_zero s' | S754_infinity s' | S754_finite s' _ _ => s' = s
  | S754_nan => False
  end.
Proof.
  intros Hm. pose proof (binary_round_aux_not_nan s mx ex lx Hm) as Hn.
  unfold binary_round_aux in *.
  destruct (shr_fexp prec emax mx ex lx) as [mrs1 e1].
  destruct (shr_fexp prec emax _ e1 loc_Exact) as [mrs3 e3].
  destruct (shr_m mrs3) as [|p|p]; try reflexivity; try contradiction.
  destruct (e3 <=? emax - prec)%Z; reflexivity.
Qed.

(** What is at most zero stays at most zero when scaled by a positive
    finite constant. *)
Lemma mul_nonpos (x c : number) :
  (exists m e, Prim2SF c = S754_finite false m e) ->
  (x <=? 0)%float = true -> (x * c <=? 0)%float = true.
Proof.
  intros (m & e & Ec) H. rewrite leb_spec, Prim2SF_zero in *. rewrite mul_spec, Ec.
  destruct (Prim2SF x) as [s|s| |s mx ex]; try discriminate.
  - reflexivity.
  - destruct s; [reflexivity|discriminate].
  - destruct s; [|discriminate].
    unfold SF64mul, SFmul. cbn [xorb].
    pose proof (binary_round_aux_sign true (Zpos (mx * m)) (ex + e) loc_Exact) as Hs.
    destruct (binary_round_aux prec emax true (Zpos (mx * m)) (ex + e) loc_Exact)
      as [s'|s'| |s' m' e'].
    + reflexivity.
    + rewrite Hs by lia. reflexivity.
    + exfalso. apply Hs. lia.
    + rewrite Hs by lia. reflexivity.
Qed.

Lemma finite_0_01 : exists m e, Prim2SF 0.01 = S754_finite false m e.
Proof. vm_compute. do 2 eexists. reflexivity. Qed.

Lemma mul_comm_0_01 (x : number) : (0.01 * x)%float = (x * 0.01)%float.
Proof.
  apply Prim2SF_inj. rewrite !mul_spec.
  destruct finite_0_01 as (m & e & ->).
  destruct (Prim2SF x) as [s|s| |s mx ex]; try reflexivity.
  - now destruct s.
  - now destruct s.
  - unfold SF64mul, SFmul. rewrite Pos.mul_comm, Z.add_comm.
    now destruct s.
Qed.

(** ReLU of a number is that number or [0], whichever is larger, so it is
    never negative; Leaky ReLU returns a positive argument as it is, scales
    the others by 0.01 and never turns them positive; unlike the clamped
    linear output of the other component, the output of this variant is the
    selected function of the weighted sum, unchanged. *)
Theorem rectifiers (x : number) :
  is_nan x = false ->
  let relu := PanZoom.output PanZoom.ReLU x in
  let leaky := PanZoom.output PanZoom.LeakyReLU x in
  (relu = 0%float \/ relu = x)
  /\ (0 <=? relu)%float = true /\ (x <=? relu)%float = true
  /\ (gtb x 0 = true -> leaky = x)
  /\ (gtb x 0 = false -> leaky = (0.01 * x)%float /\ (leaky <=? 0)%float = true)
  /\ PanZoom.output Linear x = x.
Proof.
  intros Nx relu leaky.
  assert (Hall : forallb (fun y => negb (is_nan y)) [0%float; x] = true)
    by (simpl; now rewrite Nx).
  destruct (Math_max_spec [0%float; x]) as [H1 H2]; [discriminate|exact Hall|].
  fold (PanZoom.output PanZoom.ReLU x) in H1, H2. fold relu in H1, H2.
  split; [|split; [|split; [|split; [|split]]]].
  - destruct H1 as [H1|[H1|[]]]; auto.
  - apply H2. now left.
  - apply H2. right. now left.
  - intros G. unfold leaky, PanZoom.output. simpl. now rewrite G.
  - intros G. unfold leaky, PanZoom.output. simpl. rewrite G. split; [reflexivity|].
    rewrite mul_comm_0_01. apply mul_nonpos; [exact finite_0_01|].
    destruct (ltb_or_geb 0 x eq_refl Nx) as [L|L]; [|assumption].
    unfold gtb in G. congruence.
  - reflexivity.
Qed.

End Rectifiers.

Lemma rectifiers_at_minus_3 :
  is_nan (-3) = false /\ PanZoom.output PanZoom.ReLU (-3) = 0%float.
Proof.
  split; [reflexivity|].
  destruct (proj1 (rectifiers (-3) eq_refl)) as [H|H]; [exact H|].
  vm_compute. reflexivity.
Defined.

(** ** Scaling a positive double *)

Section Scaling.
#[local] Open Scope Z_scope.

(** A canonical mantissa and exponent [(mx, ex)] against a mantissa and
    exponent [(m, e)] that denote at least as much: still so after the shift
    to the format's exponent, and then on the grid of [ex] or a coarser one. *)
Lemma shift_ge (mx : positive) (ex m e : Z) :
  fexp prec emax (Zpos (digits2_pos mx) + ex) = ex ->
  1 <= m ->
  (ex <= e /\ Zpos mx <= m * 2 ^ (e - ex)) \/ (e < ex /\ Zpos mx * 2 ^ (ex - e) <= m) ->
  ex <= e + Z.max 0 (fexp prec emax (Zdigits2 m + e) - e)
  /\ Zpos mx
     <= m / 2 ^ Z.max 0 (fexp prec emax (Zdigits2 m + e) - e)
        * 2 ^ (e + Z.max 0 (fexp prec emax (Zdigits2 m + e) - e) - ex).
Proof.
  intros Hc Hm H. rewrite fexp64 in *.
  pose proof (digits2_pos_bounds mx) as [Hxlo Hxhi].
  assert (Hp : 0 < m) by lia.
  pose proof (Zdigits2_bounds m Hp) as [Hlo Hhi].
  set (dx := Zpos (digits2_pos mx)) in *. set (d := Zdigits2 m) in *.
  assert (Hd1 : 1 <= d).
  { destruct (Z_lt_le_dec d 1) as [L|L]; [|assumption].
    assert (2 ^ d <= 2 ^ 0) by (apply Z.pow_le_mono_r; lia). simpl in *. lia. }
  assert (HA : dx + ex <= d + e).
  { destruct (Z_lt_le_dec (d + e) (dx + ex)) as [L|L]; [exfalso|assumption].
    destruct H as [[He Hv]|[He Hv]].
    - assert (m * 2 ^ (e - ex) < 2 ^ d * 2 ^ (e - ex)).
      { apply Z.mul_lt_mono_pos_r; [apply Z.pow_pos_nonneg; lia|assumption]. }
      rewrite <- Z.pow_add_r in * by lia.
      assert (2 ^ (d + (e - ex)) <= 2 ^ (dx - 1)) by (apply Z.pow_le_mono_r; lia).
      lia.
    - assert (2 ^ (dx - 1) * 2 ^ (ex - e) <= Zpos mx * 2 ^ (ex - e)).
      { apply Z.mul_le_mono_nonneg_r; [apply Z.pow_nonneg; lia|assumption]. }
      rewrite <- Z.pow_add_r in * by lia.
      assert (2 ^ d <= 2 ^ (dx - 1 + (ex - e))) by (apply Z.pow_le_mono_r; lia).
      lia. }
  set (F := Z.max (d + e - 53) (-1074)) in *.
  assert (HF : ex <= F) by (unfold F; lia).
  split; [lia|].
  destruct (Z_le_gt_dec F e) as [L|L].
  - replace (Z.max 0 (F - e)) with 0 by lia.
    rewrite Z.pow_0_r, Z.div_1_r, Z.add_0_r.
    destruct H as [[He Hv]|[He Hv]]; [assumption|lia].
  - replace (Z.max 0 (F - e)) with (F - e) by lia.
    replace (e + (F - e) - ex) with (F - ex) by lia.
    assert (Hpn : 0 < 2 ^ (F - e)) by (apply Z.pow_pos_nonneg; lia).
    destruct (Z.eq_dec F ex) as [E|E].
    + rewrite E, Z.sub_diag, Z.pow_0_r, Z.mul_1_r.
      destruct H as [[He Hv]|[He Hv]]; [lia|].
      apply Z.div_le_lower_bound; [rewrite <- E; assumption|]. rewrite Z.mul_comm. exact Hv.
    + assert (EF : F = d + e - 53) by (unfold F in *; lia).
      assert (Hq : 2 ^ 52 <= m / 2 ^ (F - e)).
      { apply Z.div_le_lower_bound; [assumption|].
        rewrite <- Z.pow_add_r by lia. replace (F - e + 52) with (d - 1) by lia.
        assumption. }
      assert (Hg : 0 <= F - ex) by lia.
      assert (Hr : 2 ^ 52 * 2 ^ (F - ex) <= m / 2 ^ (F - e) * 2 ^ (F - ex)).
      { apply Z.mul_le_mono_nonneg_r; [apply Z.pow_nonneg; lia|assumption]. }
      rewrite <- Z.pow_add_r in Hr by lia.
      assert (2 ^ dx <= 2 ^ (52 + (F - ex))) by (apply Z.pow_le_mono_r; lia).
      lia.
Qed.

Lemma shift_le (mx : positive) (ex m e : Z) :
  fexp prec emax (Zpos (digits2_pos mx) + ex) = ex ->
  0 <= m -> e <= ex -> m <= Zpos mx * 2 ^ (ex - e) ->
  e + Z.max 0 (fexp prec emax (Zdigits2 m + e) - e) <= ex
  /\ m / 2 ^ Z.max 0 (fexp prec emax (Zdigits2 m + e) - e)
     <= Zpos mx * 2 ^ (ex - (e + Z.max 0 (fexp prec emax (Zdigits2 m + e) - e))).
Proof.
  intros Hc Hm He Hv. rewrite fexp64 in *.
  pose proof (digits2_pos_bounds mx) as [Hxlo Hxhi].
  set (dx := Zpos (digits2_pos mx)) in *. set (d := Zdigits2 m) in *.
  assert (Hdx : 1 <= dx) by (unfold dx; lia).
  assert (HA : d + e <= dx + ex).
  { destruct (Z.eq_dec m 0) as [E|E]; [unfold d; rewrite E; change (Zdigits2 0) with 0; lia|].
    assert (Hp : 0 < m) by lia.
    pose proof (Zdigits2_bounds m Hp) as [Hlo Hhi]. fold d in Hlo, Hhi.
    destruct (Z_lt_le_dec (dx + ex) (d + e)) as [L|L]; [exfalso|assumption].
    assert (Zpos mx * 2 ^ (ex - e) < 2 ^ dx * 2 ^ (ex - e)).
    { apply Z.mul_lt_mono_pos_r; [apply Z.pow_pos_nonneg; lia|assumption]. }
    rewrite <- Z.pow_add_r in * by lia.
    assert (2 ^ (dx + (ex - e)) <= 2 ^ (d - 1)) by (apply Z.pow_le_mono_r; lia).
    lia. }
  set (n := Z.max 0 (Z.max (d + e - 53) (-1074) - e)).
  assert (Hn : 0 <= n) by (unfold n; lia).
  assert (Hen : e + n <= ex) by (unfold n; lia).
  split; [assumption|].
  assert (Hpn : 0 < 2 ^ n) by (apply Z.pow_pos_nonneg; lia).
  apply Z.div_le_upper_bound; [assumption|].
  replace (2 ^ n * (Zpos mx * 2 ^ (ex - (e + n))))
    with (Zpos mx * (2 ^ n * 2 ^ (ex - (e + n)))) by ring.
  rewrite <- Z.pow_add_r by lia. replace (n + (ex - (e + n))) with (ex - e) by lia.
  assumption.
Qed.

Lemma shift_lt (mx : positive) (ex m e : Z) :
  fexp prec emax (Zpos (digits2_pos mx) + ex) = ex ->
  0 <= m -> e <= ex -> m < Zpos mx * 2 ^ (ex - e) ->
  e + Z.max 0 (fexp prec emax (Zdigits2 m + e) - e) <= ex
  /\ m / 2 ^ Z.max 0 (fexp prec emax (Zdigits2 m + e) - e)
     < Zpos mx * 2 ^ (ex - (e + Z.max 0 (fexp prec emax (Zdigits2 m + e) - e))).
Proof.
  intros Hc Hm He Hv.
  destruct (shift_le mx ex m e Hc Hm He) as [Hen _]; [lia|].
  split; [assumption|].
  set (n := Z.max 0 (fexp prec emax (Zdigits2 m + e) - e)) in *.
  assert (Hn : 0 <= n) by (unfold n; lia).
  assert (Hpn : 0 < 2 ^ n) by (apply Z.pow_pos_nonneg; lia).
  apply Z.div_lt_upper_bound; [assumption|].
  replace (2 ^ n * (Zpos mx * 2 ^ (ex - (e + n))))
    with (Zpos mx * (2 ^ n * 2 ^ (ex - (e + n)))) by ring.
  rewrite <- Z.pow_add_r by lia. replace (n + (ex - (e + n))) with (ex - e) by lia.
  assumption.
Qed.

(** Rounding what denotes at least a canonical [(mx, ex)] gives at least
    that. *)
Lemma binary_round_aux_ge (s : bool) (mx : positive) (ex m e : Z) (l : location) :
  fexp prec emax (Zpos (digits2_pos mx) + ex) = ex ->
  1 <= m ->
  (ex <= e /\ Zpos mx <= m * 2 ^ (e - ex)) \/ (e < ex /\ Zpos mx * 2 ^ (ex - e) <= m) ->
  match binary_round_aux prec emax s m e l with
  | S754_infinity s' => s' = s
  | S754_finite s' m3 e3 => s' = s /\ ex <= e3 /\ Zpos mx <= Zpos m3 * 2 ^ (e3 - ex)
  | _ => False
  end.
Proof.
  intros Hc Hm H. unfold binary_round_aux.
  assert (Hm0 : 0 <= m) by lia.
  destruct (shr_fexp_spec m e l Hm0) as [Hm1 He1].
  destruct (shift_ge mx ex m e Hc Hm H) as [Hle1 Hv1].
  destruct (shr_fexp prec emax m e l) as [mrs1 e1]. cbn [fst snd] in Hm1, He1.
  rewrite <- He1 in Hle1, Hv1. rewrite <- Hm1 in Hv1.
  pose proof (round_nearest_even_bounds (shr_m mrs1) (loc_of_shr_record mrs1)) as Hr.
  set (m2 := round_nearest_even (shr_m mrs1) (loc_of_shr_record mrs1)) in *.
  assert (Hp1 : 0 < 2 ^ (e1 - ex)) by (apply Z.pow_pos_nonneg; lia).
  assert (H1 : 1 <= shr_m mrs1).
  { destruct (Z_lt_le_dec (shr_m mrs1) 1) as [L|L]; [exfalso|assumption].
    assert (shr_m mrs1 * 2 ^ (e1 - ex) <= 0) by (apply Z.mul_nonpos_nonneg; lia). lia. }
  assert (H2 : 1 <= m2) by lia.
  assert (Hv2 : Zpos mx <= m2 * 2 ^ (e1 - ex)).
  { assert (shr_m mrs1 * 2 ^ (e1 - ex) <= m2 * 2 ^ (e1 - ex))
      by (apply Z.mul_le_mono_nonneg_r; lia). lia. }
  assert (H20 : 0 <= m2) by lia.
  destruct (shr_fexp_spec m2 e1 loc_Exact H20) as [Hm3 He3].
  destruct (shift_ge mx ex m2 e1 Hc H2 (or_introl (conj Hle1 Hv2))) as [Hle3 Hv3].
  destruct (shr_fexp prec emax m2 e1 loc_Exact) as [mrs3 e3]. cbn [fst snd] in Hm3, He3.
  rewrite <- He3 in Hle3, Hv3. rewrite <- Hm3 in Hv3.
  assert (Hp3 : 0 < 2 ^ (e3 - ex)) by (apply Z.pow_pos_nonneg; lia).
  destruct (shr_m mrs3) as [|p|p].
  - lia.
  - destruct (e3 <=? emax - prec); [|reflexivity]. repeat split; assumption.
  - assert (Zneg p * 2 ^ (e3 - ex) <= 0) by (apply Z.mul_nonpos_nonneg; lia). lia.
Qed.

(** Rounding what denotes less than a canonical [(mx, ex)] gives at most
    that. *)
Lemma binary_round_aux_le (s : bool) (mx : positive) (ex m e : Z) (l : location) :
  fexp prec emax (Zpos (digits2_pos mx) + ex) = ex -> ex <= emax - prec ->
  0 <= m -> e <= ex -> m < Zpos mx * 2 ^ (ex - e) ->
  match binary_round_aux prec emax s m e l with
  | S754_zero s' => s' = s
  | S754_finite s' m3 e3 => s' = s /\ e3 <= ex /\ Zpos m3 <= Zpos mx * 2 ^ (ex - e3)
  | _ => False
  end.
Proof.
  intros Hc Hb Hm He Hv. unfold binary_round_aux.
  destruct (shr_fexp_spec m e l Hm) as [Hm1 He1].
  destruct (shift_lt mx ex m e Hc Hm He Hv) as [Hle1 Hv1].
  destruct (shr_fexp prec emax m e l) as [mrs1 e1]. cbn [fst snd] in Hm1, He1.
  rewrite <- He1 in Hle1, Hv1. rewrite <- Hm1 in Hv1.
  assert (H1 : 0 <= shr_m mrs1).
  { rewrite Hm1. apply Z.div_pos; [assumption|]. apply Z.pow_pos_nonneg; lia. }
  pose proof (round_nearest_even_bounds (shr_m mrs1) (loc_of_shr_record mrs1)) as Hr.
  set (m2 := round_nearest_even (shr_m mrs1) (loc_of_shr_record mrs1)) in *.
  assert (H2 : 0 <= m2) by lia.
  assert (Hv2 : m2 <= Zpos mx * 2 ^ (ex - e1)) by lia.
  destruct (shr_fexp_spec m2 e1 loc_Exact H2) as [Hm3 He3].
  destruct (shift_le mx ex m2 e1 Hc H2 Hle1 Hv2) as [Hle3 Hv3].
  destruct (shr_fexp prec emax m2 e1 loc_Exact) as [mrs3 e3]. cbn [fst snd] in Hm3, He3.
  rewrite <- He3 in Hle3, Hv3. rewrite <- Hm3 in Hv3.
  assert (H3 : 0 <= shr_m mrs3).
  { rewrite Hm3. apply Z.div_pos; [assumption|]. apply Z.pow_pos_nonneg; lia. }
  destruct (shr_m mrs3) as [|p|p]; try reflexivity; try lia.
  assert (Hle : (e3 <=? emax - prec) = true) by (apply Z.leb_le; lia).
  rewrite Hle. repeat split; assumption.
Qed.

Lemma SFleb_of_ge (mx m3 : positive) (ex e3 : Z) :
  ex <= e3 -> Zpos mx <= Zpos m3 * 2 ^ (e3 - ex) ->
  SFleb (S754_finite false mx ex) (S754_finite false m3 e3) = true.
Proof.
  intros He Hv. unfold SFleb, SFcompare.
  destruct (Z.compare_spec ex e3) as [E|L|G]; [|reflexivity|lia].
  subst e3. rewrite Z.sub_diag, Z.pow_0_r, Z.mul_1_r in Hv.
  rewrite Pos.compare_cont_spec. simpl Pos.switch_Eq.
  destruct (Pos.compare_spec mx m3) as [?|?|H]; try reflexivity.
  apply Pos2Z.pos_lt_pos in H. lia.
Qed.

Lemma SFleb_of_le (mx m3 : positive) (ex e3 : Z) :
  e3 <= ex -> Zpos m3 <= Zpos mx * 2 ^ (ex - e3) ->
  SFleb (S754_finite false m3 e3) (S754_finite false mx ex) = true.
Proof.
  intros He Hv. unfold SFleb, SFcompare.
  destruct (Z.compare_spec e3 ex) as [E|L|G]; [|reflexivity|lia].
  subst e3. rewrite Z.sub_diag, Z.pow_0_r, Z.mul_1_r in Hv.
  rewrite Pos.compare_cont_spec. simpl Pos.switch_Eq.
  destruct (Pos.compare_spec m3 mx) as [?|?|H]; try reflexivity.
  apply Pos2Z.pos_lt_pos in H. lia.
Qed.

Lemma valid_canonical (s : bool) (m : positive) (e : Z) :
  SpecFloat.valid_binary prec emax (S754_finite s m e) = true ->
  fexp prec emax (Zpos (digits2_pos m) + e) = e /\ e <= emax - prec.
Proof.
  simpl. unfold bounded, canonical_mantissa. intros H.
  apply andb_prop in H. destruct H as [H1 H2].
  split; [now apply Z.eqb_eq|now apply Z.leb_le].
Qed.

Lemma pos_cases (x : spec_float) :
  SFltb (S754_zero false) x = true ->
  x = S754_infinity false \/ exists m e, x = S754_finite false m e.
Proof.
  destruct x as [s|s| |s m e]; unfold SFltb, SFcompare; intros H; try discriminate.
  - destruct s; [discriminate|]. now left.
  - destruct s; [discriminate|]. right. now exists m, e.
Qed.

Lemma SFltb_trans_leb (a b c : spec_float) :
  SFltb a b = true -> SFleb b c = true -> SFltb a c = true.
Proof.
  unfold SFleb, SFltb, SFcompare.
  destruct a as [sa|sa| |sa ma ea], b as [sb|sb| |sb mb eb], c as [sc|sc| |sc mc ec];
    try discriminate; try reflexivity;
    try (destruct sa; try discriminate; try reflexivity);
    try (destruct sb; try discriminate; try reflexivity);
    try (destruct sc; try discriminate; try reflexivity);
    rewrite ?Pos.compare_cont_spec; unfold Pos.switch_Eq;
    repeat match goal with
           | |- context [Z.compare ?x ?y] => destruct (Z.compare_spec x y)
           | |- context [Pos.compare ?x ?y] => destruct (Pos.compare_spec x y)
           end; simpl; try discriminate; try reflexivity; intros; exfalso; lia.
Qed.

Lemma ltb_leb_trans (a b c : number) :
  (a <? b)%float = true -> (b <=? c)%float = true -> (a <? c)%float = true.
Proof. rewrite !ltb_spec, leb_spec. apply SFltb_trans_leb. Qed.

(** A positive double times a double that is at least 1 is at least the
    double. *)
Lemma mul_ge_self (x c : number) :
  (0 <? x)%float = true -> (1 <=? c)%float = true -> (x <=? x * c)%float = true.
Proof.
  intros Hx Hc. rewrite ltb_spec, Prim2SF_zero in Hx. rewrite leb_spec in Hc.
  rewrite leb_spec, mul_spec.
  pose proof (Prim2SF_valid x) as Vx.
  destruct (ge_one_cases _ (Prim2SF_valid c) Hc) as [Ec|(mc & ec & Ec & Hmc & Hec)];
    rewrite Ec; clear Ec;
    (destruct (pos_cases _ Hx) as [Ex|(mx & ex & Ex)]; rewrite Ex in Vx |- *; clear Ex);
    try reflexivity.
  destruct (valid_canonical _ _ _ Vx) as [Cx _].
  unfold SF64mul, SFmul. cbn [xorb].
  assert (Hp : 0 < 2 ^ 52) by (apply Z.pow_pos_nonneg; lia).
  assert (G : (ex <= ex + ec /\ Zpos mx <= Zpos (mx * mc) * 2 ^ (ex + ec - ex))
              \/ (ex + ec < ex /\ Zpos mx * 2 ^ (ex - (ex + ec)) <= Zpos (mx * mc))).
  { rewrite Pos2Z.inj_mul. destruct (Z_le_gt_dec 0 ec) as [L|L].
    - left. split; [lia|]. replace (ex + ec - ex) with ec by lia.
      assert (H2 : 1 <= 2 ^ ec) by (apply (Z.pow_le_mono_r 2 0 ec); lia).
      assert (H3 : 1 * 1 <= Zpos mc * 2 ^ ec) by (apply Z.mul_le_mono_nonneg; lia).
      rewrite <- Z.mul_assoc.
      assert (H4 : Zpos mx * 1 <= Zpos mx * (Zpos mc * 2 ^ ec))
        by (apply Z.mul_le_mono_nonneg_l; lia).
      lia.
    - right. split; [lia|]. replace (ex - (ex + ec)) with (- ec) by lia.
      assert (2 ^ (- ec) <= 2 ^ 52) by (apply Z.pow_le_mono_r; lia).
      apply Z.mul_le_mono_nonneg_l; lia. }
  assert (H1 : 1 <= Zpos (mx * mc)) by lia.
  pose proof (binary_round_aux_ge false mx ex (Zpos (mx * mc)) (ex + ec) loc_Exact
                                  Cx H1 G) as Hr.
  destruct (binary_round_aux prec emax false (Zpos (mx * mc)) (ex + ec) loc_Exact)
    as [s'|s'| |s' m3 e3]; try contradiction.
  - subst s'. reflexivity.
  - destruct Hr as (-> & He3 & Hv3). now apply SFleb_of_ge.
Qed.

Lemma gt_one_cases (x : spec_float) :
  SpecFloat.valid_binary prec emax x = true ->
  SFltb (Prim2SF 1) x = true ->
  x = S754_infinity false
  \/ exists m e, x = S754_finite false m e /\ 2 ^ 52 <= Zpos m /\ -52 <= e
                 /\ (e <> -52 \/ Zpos m <> 2 ^ 52).
Proof.
  intros Hv H.
  assert (Hle : SFleb (Prim2SF 1) x = true).
  { unfold SFltb in H. unfold SFleb. destruct (SFcompare (Prim2SF 1) x) as [[ | | ]|];
      congruence. }
  destruct (ge_one_cases x Hv Hle) as [E|(m & e & E & Hm & He)]; [now left|].
  right. exists m, e. repeat split; try assumption.
  subst x. rewrite Prim2SF_one in H. unfold SFltb, SFcompare in H.
  destruct (Z.eq_dec e (-52)) as [E|E]; [|now left]. right. subst e.
  rewrite Z.compare_refl, Pos.compare_cont_spec in H. simpl Pos.switch_Eq in H.
  destruct (Pos.compare_spec 4503599627370496 m) as [?|L|?]; try discriminate.
  apply Pos2Z.pos_lt_pos in L. rewrite two_52. lia.
Qed.

(** A positive double divided by a finite double above 1 is at most the
    double. *)
Lemma div_le_self (x c : number) :
  (0 <? x)%float = true -> (1 <? c)%float = true -> is_infinity c = false ->
  (x / c <=? x)%float = true.
Proof.
  intros Hx Hc Hi. rewrite ltb_spec, Prim2SF_zero in Hx. rewrite ltb_spec in Hc.
  rewrite leb_spec, div_spec.
  pose proof (Prim2SF_valid x) as Vx.
  destruct (gt_one_cases _ (Prim2SF_valid c) Hc)
    as [Ec|(mc & ec & Ec & Hmc & Hec & Hne)].
  { rewrite (is_infinity_spec c _ Ec) in Hi. discriminate. }
  rewrite Ec; clear Ec.
  destruct (pos_cases _ Hx) as [Ex|(mx & ex & Ex)]; rewrite Ex in Vx |- *; clear Ex;
    [reflexivity|].
  destruct (valid_canonical _ _ _ Vx) as [Cx Bx].
  unfold SF64div, SFdiv, SFdiv_core_binary. cbn [xorb].
  pose proof (digits2_pos_bounds mc) as [_ Hchi].
  assert (Hdc : 53 <= Zpos (digits2_pos mc)).
  { destruct (Z_lt_le_dec (Zpos (digits2_pos mc)) 53) as [L|L]; [exfalso|assumption].
    assert (2 ^ Zpos (digits2_pos mc) <= 2 ^ 52) by (apply Z.pow_le_mono_r; lia). lia. }
  set (e' := Z.min _ (ex - ec)).
  assert (He' : e' <= ex).
  { unfold e'. cbn [Zdigits2]. rewrite fexp64 in *. lia. }
  set (s := ex - ec - e').
  assert (Hs : 0 <= s) by (unfold s, e'; lia).
  assert (Hse : ex - e' = s + ec) by (unfold s; lia).
  clearbody s. clearbody e'.
  set (m' := match s with
             | Zpos _ => Z.shiftl (Zpos mx) s
             | Z0 => Zpos mx
             | Zneg _ => 0
             end).
  assert (Hm' : m' = Zpos mx * 2 ^ s).
  { unfold m'. destruct s as [|p|p]; try lia.
    rewrite Z.shiftl_mul_pow2 by lia. reflexivity. }
  clearbody m'.
  assert (Hq : fst (Z.div_eucl m' (Zpos mc)) = m' / Zpos mc) by reflexivity.
  destruct (Z.div_eucl m' (Zpos mc)) as [q r]. cbn [fst] in Hq.
  assert (Hps : 0 < 2 ^ s) by (apply Z.pow_pos_nonneg; lia).
  assert (Hp52 : 0 < 2 ^ 52) by (apply Z.pow_pos_nonneg; lia).
  assert (Hq0 : 0 <= q) by (rewrite Hq; apply Z.div_pos; [rewrite Hm'|]; lia).
  assert (Hqlt : q < Zpos mx * 2 ^ (ex - e')).
  { rewrite Hq, Hm', Hse. apply Z.div_lt_upper_bound; [lia|].
    destruct (Z_le_gt_dec 0 ec) as [L|L].
    - rewrite Z.pow_add_r by lia.
      assert (H1 : 1 <= 2 ^ ec) by (apply (Z.pow_le_mono_r 2 0 ec); lia).
      assert (H2 : 0 < Zpos mx * 2 ^ s) by (apply Z.mul_pos_pos; lia).
      assert (H3 : 2 * 1 <= Zpos mc * 2 ^ ec) by (apply Z.mul_le_mono_nonneg; lia).
      replace (Zpos mc * (Zpos mx * (2 ^ s * 2 ^ ec)))
        with (Zpos mx * 2 ^ s * (Zpos mc * 2 ^ ec)) by ring.
      assert (H4 : Zpos mx * 2 ^ s * 2 <= Zpos mx * 2 ^ s * (Zpos mc * 2 ^ ec))
        by (apply Z.mul_le_mono_nonneg_l; lia).
      lia.
    - replace s with (s + ec + - ec) at 1 by lia.
      assert (Hsec : 0 <= s + ec) by lia.
      rewrite (Z.pow_add_r 2 (s + ec) (- ec)) by lia.
      assert (Hpp : 0 < 2 ^ (s + ec)) by (apply Z.pow_pos_nonneg; lia).
      assert (H1 : 2 ^ (- ec) < Zpos mc).
      { destruct (Z.eq_dec ec (-52)) as [E|E].
        - subst ec. replace (- -52) with 52 by reflexivity. destruct Hne; lia.
        - assert (2 ^ (- ec) <= 2 ^ 51) by (apply Z.pow_le_mono_r; lia).
          assert (2 ^ 51 < 2 ^ 52) by (apply Z.pow_lt_mono_r; lia). lia. }
      assert (H2 : 0 < Zpos mx * 2 ^ (s + ec)) by (apply Z.mul_pos_pos; lia).
      replace (Zpos mx * (2 ^ (s + ec) * 2 ^ (- ec)))
        with (Zpos mx * 2 ^ (s + ec) * 2 ^ (- ec)) by ring.
      replace (Zpos mc * (Zpos mx * 2 ^ (s + ec)))
        with (Zpos mx * 2 ^ (s + ec) * Zpos mc) by ring.
      apply Z.mul_lt_mono_pos_l; assumption. }
  pose proof (binary_round_aux_le false mx ex q e' (new_location (Zpos mc) r)
                                  Cx Bx Hq0 He' Hqlt) as Hr.
  destruct (binary_round_aux prec emax false q e' (new_location (Zpos mc) r))
    as [s'|s'| |s' m3 e3]; try contradiction.
  - subst s'. reflexivity.
  - destruct Hr as (-> & He3 & Hv3). now apply SFleb_of_le.
Qed.
End Scaling.

Section ZoomRange.
Import PanZoom.

Lemma handle_zoom_range (e : Event) (v : Viewport) :
  between 0.2 1.5 (zoom v) = true -> between 0.2 1.5 (zoom (handle e v)) = true.
Proof.
  intros H. pose proof H as H'. unfold between in H'.
  apply andb_prop in H'. destruct H' as [Hlo Hhi].
  assert (Nz : is_nan (zoom v) = false) by now apply (leb_not_nan_l _ 1.5).
  assert (Pz : (0 <? zoom v)%float = true)
    by (apply (ltb_leb_trans 0 0.2); [reflexivity|assumption]).
  destruct e as [| | |deltaY|cx cy|cx cy| |]; cbn [handle]; try assumption.
  - pose proof (zoomIn_capped v Nz) as Hcap.
    unfold between. rewrite Hcap, andb_true_r.
    unfold handleZoomIn, setZoom in *. cbn [zoom] in *.
    assert (Np : is_nan (zoom v * 1.2) = false)
      by (apply mul_finite_not_nan; auto using finite_1_2).
    destruct (Math_min_spec [(zoom v * 1.2)%float; 1.5%float]) as [Hin _];
      [discriminate|simpl; now rewrite Np|].
    destruct Hin as [<-|[<-|[]]]; [|reflexivity].
    apply (leb_trans _ (zoom v)); [assumption|]. now apply mul_ge_self.
  - pose proof (zoomOut_floored v Nz) as Hfloor.
    unfold between. rewrite Hfloor. cbn [andb].
    unfold handleZoomOut, setZoom in *. cbn [zoom] in *.
    assert (Np : is_nan (zoom v / 1.2) = false)
      by (apply div_finite_not_nan; auto using finite_1_2).
    destruct (Math_max_spec [(zoom v / 1.2)%float; 0.2%float]) as [Hin _];
      [discriminate|simpl; now rewrite Np|].
    destruct Hin as [<-|[<-|[]]]; [|reflexivity].
    apply (leb_trans _ (zoom v)); [|assumption]. now apply div_le_self.
  - reflexivity.
  - now apply wheel_zoom_range.
  - unfold handleMouseMove. now destruct (isDragging v).
Qed.

(** The zoom stays within [0.2, 1.5]: from the initial viewport, after every
    sequence of button, wheel and mouse events. *)
Theorem zoom_stays_in_range (events : list Event) :
  between 0.2 1.5 (zoom (runEvents events initialViewport)) = true.
Proof.
  assert (G : forall v, between 0.2 1.5 (zoom v) = true ->
              between 0.2 1.5 (zoom (runEvents events v)) = true).
  { induction events as [|e events IH]; intros v H; simpl; [assumption|].
    apply IH. now apply handle_zoom_range. }
  apply G. reflexivity.
Qed.

End ZoomRange.

(** ** Rounding what is on the grid *)

Section Exactness.
#[local] Open Scope Z_scope.

Lemma shr_1_exact (k : Z) :
  0 <= k ->
  shr_1 {| shr_m := 2 * k; shr_r := false; shr_s := false |}
  = {| shr_m := k; shr_r := false; shr_s := false |}.
Proof.
  intros Hk. destruct k as [|p|p]; try reflexivity; lia.
Qed.

Lemma iter_pos_shr_1_exact (n : positive) (k : Z) :
  0 <= k ->
  iter_pos shr_1 n {| shr_m := k * 2 ^ Zpos n; shr_r := false; shr_s := false |}
  = {| shr_m := k; shr_r := false; shr_s := false |}.
Proof.
  revert k. induction n as [n IH|n IH|]; intros k Hk; cbn [iter_pos];
    try assert (Hp : 0 <= 2 ^ Zpos n) by (apply Z.pow_nonneg; lia).
  - replace (k * 2 ^ Zpos n~1) with (2 * (k * 2 ^ Zpos n * 2 ^ Zpos n)).
    + rewrite shr_1_exact by (repeat apply Z.mul_nonneg_nonneg; lia).
      rewrite IH by (apply Z.mul_nonneg_nonneg; lia). now apply IH.
    + replace (Zpos n~1) with (1 + Zpos n + Zpos n) by lia.
      rewrite !Z.pow_add_r by lia. change (2 ^ 1) with 2. ring.
  - replace (k * 2 ^ Zpos n~0) with (k * 2 ^ Zpos n * 2 ^ Zpos n).
    + rewrite IH by (apply Z.mul_nonneg_nonneg; lia). now apply IH.
    + replace (Zpos n~0) with (Zpos n + Zpos n) by lia.
      rewrite Z.pow_add_r by lia. ring.
  - change (2 ^ 1) with 2. rewrite Z.mul_comm. now apply shr_1_exact.
Qed.

Lemma Zdigits2_shift (m : positive) (k : Z) :
  0 <= k -> Zdigits2 (Zpos m * 2 ^ k) = Zpos (digits2_pos m) + k.
Proof.
  intros Hk.
  pose proof (digits2_pos_bounds m) as [Hlo Hhi].
  assert (Hpk : 0 < 2 ^ k) by (apply Z.pow_pos_nonneg; lia).
  assert (Hp : 0 < Zpos m * 2 ^ k) by (apply Z.mul_pos_pos; lia).
  pose proof (Zdigits2_bounds _ Hp) as [Dlo Dhi].
  pose proof (Zdigits2_nonneg (Zpos m * 2 ^ k)) as Dn.
  set (d := Zdigits2 (Zpos m * 2 ^ k)) in *. set (dm := Zpos (digits2_pos m)) in *.
  assert (H1 : 2 ^ (dm - 1) * 2 ^ k <= Zpos m * 2 ^ k)
    by (apply Z.mul_le_mono_nonneg_r; lia).
  assert (H2 : Zpos m * 2 ^ k < 2 ^ dm * 2 ^ k)
    by (apply Z.mul_lt_mono_pos_r; lia).
  rewrite <- Z.pow_add_r in H1, H2 by (unfold dm; lia).
  assert (H3 : 2 ^ (dm - 1 + k) < 2 ^ d) by lia.
  assert (H4 : 2 ^ (d - 1) < 2 ^ (dm + k)) by lia.
  apply Z.pow_lt_mono_r_iff in H3; [|lia|lia].
  destruct (Z_le_gt_dec d 0) as [L|L].
  - assert (d = 0) by lia. unfold dm in *. lia.
  - apply Z.pow_lt_mono_r_iff in H4; [|lia|unfold dm; lia]. lia.
Qed.

(** Rounding a canonical mantissa written on a finer grid gives it back. *)
Lemma binary_round_aux_exact (s : bool) (mx : positive) (ex e : Z) :
  fexp prec emax (Zpos (digits2_pos mx) + ex) = ex -> ex <= emax - prec -> e <= ex ->
  binary_round_aux prec emax s (Zpos mx * 2 ^ (ex - e)) e loc_Exact = S754_finite s mx ex.
Proof.
  intros Hc Hb He. unfold binary_round_aux.
  assert (H1 : shr_fexp prec emax (Zpos mx * 2 ^ (ex - e)) e loc_Exact
               = ({| shr_m := Zpos mx; shr_r := false; shr_s := false |}, ex)).
  { unfold shr_fexp. rewrite Zdigits2_shift by lia.
    replace (Zpos (digits2_pos mx) + (ex - e) + e) with (Zpos (digits2_pos mx) + ex) by lia.
    rewrite Hc. cbn [shr_record_of_loc]. unfold shr.
    destruct (ex - e) as [|p|p] eqn:E; try lia.
    - rewrite Z.pow_0_r, Z.mul_1_r. f_equal. lia.
    - rewrite iter_pos_shr_1_exact by lia. f_equal. lia. }
  rewrite H1. cbn [shr_m loc_of_shr_record round_nearest_even].
  assert (H2 : shr_fexp prec emax (Zpos mx) ex loc_Exact
               = ({| shr_m := Zpos mx; shr_r := false; shr_s := false |}, ex)).
  { unfold shr_fexp. cbn [Zdigits2]. rewrite Hc, Z.sub_diag. reflexivity. }
  rewrite H2. cbn [shr_m].
  assert (Hle : (ex <=? emax - prec) = true) by (apply Z.leb_le; lia).
  now rewrite Hle.
Qed.

#[local] Abbreviation within mx ex r :=
  (match r with
   | S754_zero _ => True
   | S754_finite false m e => e <= ex /\ Zpos m <= Zpos mx * 2 ^ (ex - e)
   | _ => False
   end).

(** Rounding what is exactly known and denotes at most a canonical
    [(mx, ex)] gives at most that. *)
Lemma binary_round_aux_within (mx : positive) (ex m e : Z) :
  fexp prec emax (Zpos (digits2_pos mx) + ex) = ex -> ex <= emax - prec ->
  0 <= m -> e <= ex -> m <= Zpos mx * 2 ^ (ex - e) ->
  within mx ex (binary_round_aux prec emax false m e loc_Exact).
Proof.
  intros Hc Hb Hm He Hv.
  destruct (Z_lt_le_dec m (Zpos mx * 2 ^ (ex - e))) as [L|L].
  - pose proof (binary_round_aux_le false mx ex m e loc_Exact Hc Hb Hm He L) as H.
    destruct (binary_round_aux prec emax false m e loc_Exact) as [s'|s'| |s' m3 e3];
      try contradiction; [exact I|].
    destruct H as (-> & H). exact H.
  - assert (E : m = Zpos mx * 2 ^ (ex - e)) by lia.
    rewrite E, binary_round_aux_exact by assumption.
    split; [lia|]. rewrite Z.sub_diag, Z.pow_0_r. lia.
Qed.

Lemma binary_normalize_within (mx : positive) (ex m e : Z) :
  fexp prec emax (Zpos (digits2_pos mx) + ex) = ex -> ex <= emax - prec ->
  0 <= m -> e <= ex -> m <= Zpos mx * 2 ^ (ex - e) ->
  within mx ex (binary_normalize prec emax m e false).
Proof.
  intros Hc Hb Hm He Hv. destruct m as [|p|p]; [exact I| |lia].
  unfold binary_normalize, binary_round.
  pose proof (shl_align_spec p e (fexp prec emax (Zpos (digits2_pos p) + e)))
    as (Hs1 & Hs2 & _).
  destruct (shl_align p e (fexp prec emax (Zpos (digits2_pos p) + e))) as [mz ez].
  cbn [fst snd] in Hs1, Hs2.
  apply binary_round_aux_within; try assumption; try lia.
  rewrite Hs2.
  assert (Hp : 0 <= 2 ^ (e - ez)) by (apply Z.pow_nonneg; lia).
  assert (H1 : Zpos p * 2 ^ (e - ez) <= Zpos mx * 2 ^ (ex - e) * 2 ^ (e - ez))
    by (apply Z.mul_le_mono_nonneg_r; assumption).
  rewrite <- Z.mul_assoc, <- Z.pow_add_r in H1 by lia.
  replace (ex - e + (e - ez)) with (ex - ez) in H1 by lia. exact H1.
Qed.

Lemma within_leb (mu : positive) (eu : Z) (r : spec_float) :
  within mu eu r ->
  SFleb (S754_zero false) r = true /\ SFleb r (S754_finite false mu eu) = true.
Proof.
  destruct r as [s|s| |s m e]; try contradiction.
  - intros _. split; reflexivity.
  - destruct s; [contradiction|]. intros [He Hv]. split; [reflexivity|].
    now apply SFleb_of_le.
Qed.

(** Two canonical doubles of one sign, compared as [SFcompare] does by
    exponent and then by mantissa, compare as what they denote. *)
Lemma magnitude_le (s s' : bool) (m mu : positive) (e eu : Z) :
  SpecFloat.valid_binary prec emax (S754_finite s m e) = true ->
  SpecFloat.valid_binary prec emax (S754_finite s' mu eu) = true ->
  e < eu \/ (e = eu /\ Zpos m <= Zpos mu) ->
  e <= eu /\ Zpos m <= Zpos mu * 2 ^ (eu - e).
Proof.
  intros V Vu H.
  destruct (valid_canonical _ _ _ V) as [C _].
  destruct (valid_canonical _ _ _ Vu) as [Cu _].
  rewrite fexp64 in C, Cu.
  destruct H as [L|[-> L]].
  - split; [lia|].
    pose proof (digits2_pos_bounds m) as [_ Hhi].
    pose proof (digits2_pos_bounds mu) as [Hlo _].
    assert (Ed : Zpos (digits2_pos mu) = 53) by lia.
    rewrite Ed in Hlo. change (53 - 1) with 52 in Hlo.
    assert (H1 : 2 ^ Zpos (digits2_pos m) <= 2 ^ 53) by (apply Z.pow_le_mono_r; lia).
    change 53 with (Z.succ 52) in H1. rewrite Z.pow_succ_r in H1 by lia.
    assert (H2 : 2 ^ 1 <= 2 ^ (eu - e)) by (apply Z.pow_le_mono_r; lia).
    change (2 ^ 1) with 2 in H2.
    assert (H3 : Zpos mu * 2 <= Zpos mu * 2 ^ (eu - e))
      by (apply Z.mul_le_mono_nonneg_l; lia).
    lia.
  - split; [lia|]. rewrite Z.sub_diag, Z.pow_0_r. lia.
Qed.

Lemma leb_within (mu : positive) (eu : Z) (r : spec_float) :
  SpecFloat.valid_binary prec emax r = true ->
  SpecFloat.valid_binary prec emax (S754_finite false mu eu) = true ->
  SFleb (S754_zero false) r = true -> SFleb r (S754_finite false mu eu) = true ->
  within mu eu r.
Proof.
  intros V Vu H0 H1.
  destruct r as [s|s| |s m e]; try discriminate; [exact I|destruct s; discriminate|].
  destruct s; [discriminate|].
  apply (magnitude_le false false); try assumption.
  unfold SFleb, SFcompare in H1.
  destruct (Z.compare_spec e eu) as [E|L|G]; [right|now left|discriminate].
  split; [assumption|].
  rewrite Pos.compare_cont_spec in H1. simpl Pos.switch_Eq in H1.
  destruct (Pos.compare_spec m mu) as [E'|L|G]; try discriminate.
  - subst. lia.
  - apply Pos2Z.pos_lt_pos in L. lia.
Qed.

(** A double between [-c] and [c], plus [c], lies between 0 and [2c]. *)
Lemma SFadd_symmetric (mc : positive) (ec : Z) (x : spec_float) :
  SpecFloat.valid_binary prec emax x = true ->
  SpecFloat.valid_binary prec emax (S754_finite false mc ec) = true ->
  SpecFloat.valid_binary prec emax (S754_finite false mc (ec + 1)) = true ->
  SFleb (S754_finite true mc ec) x = true -> SFleb x (S754_finite false mc ec) = true ->
  within mc (ec + 1) (SF64add x (S754_finite false mc ec)).
Proof.
  intros V Vc Vu Hlo Hhi.
  destruct (valid_canonical _ _ _ Vu) as [Cu Bu].
  assert (Hp1 : 2 ^ 1 = 2) by reflexivity.
  destruct x as [s|s| |s m e]; try discriminate.
  - cbn. split; [lia|]. replace (ec + 1 - ec) with 1 by lia. rewrite Hp1. lia.
  - destruct s; discriminate.
  - assert (Hm : e <= ec /\ Zpos m <= Zpos mc * 2 ^ (ec - e)).
    { apply (magnitude_le s false); try assumption.
      unfold SFleb, SFcompare in Hlo, Hhi. destruct s.
      - destruct (Z.compare_spec ec e) as [E|L|G]; [right|discriminate|now left].
        split; [now symmetry|].
        rewrite Pos.compare_cont_spec in Hlo. simpl Pos.switch_Eq in Hlo.
        destruct (Pos.compare_spec mc m) as [E'|L|G]; try discriminate.
        + subst. lia.
        + apply Pos2Z.pos_lt_pos in G. lia.
      - destruct (Z.compare_spec e ec) as [E|L|G]; [right|now left|discriminate].
        split; [assumption|].
        rewrite Pos.compare_cont_spec in Hhi. simpl Pos.switch_Eq in Hhi.
        destruct (Pos.compare_spec m mc) as [E'|L|G]; try discriminate.
        + subst. lia.
        + apply Pos2Z.pos_lt_pos in L. lia. }
    destruct Hm as [He Hv].
    unfold SF64add, SFadd. replace (Z.min e ec) with e by lia.
    pose proof (shl_align_spec m e e) as (_ & Hs2 & Hs3).
    pose proof (shl_align_spec mc ec e) as (_ & Ht2 & Ht3).
    rewrite Hs3 in Hs2 by lia. rewrite Ht3 in Ht2 by lia.
    rewrite Z.sub_diag, Z.pow_0_r, Z.mul_1_r in Hs2. rewrite Hs2, Ht2.
    assert (Hp : 0 < 2 ^ (ec - e)) by (apply Z.pow_pos_nonneg; lia).
    apply binary_normalize_within; try assumption; try lia.
    + destruct s; unfold cond_Zopp; lia.
    + replace (ec + 1 - e) with (Z.succ (ec - e)) by lia.
      rewrite Z.pow_succ_r by lia. destruct s; unfold cond_Zopp; lia.
Qed.

(** What lies between 0 and [c], taken from [c], lies between 0 and [c]. *)
Lemma SFsub_from (mc : positive) (ec : Z) (w : spec_float) :
  SpecFloat.valid_binary prec emax (S754_finite false mc ec) = true ->
  within mc ec w ->
  within mc ec (SF64sub (S754_finite false mc ec) w).
Proof.
  intros Vc Hw. destruct (valid_canonical _ _ _ Vc) as [Cc Bc].
  destruct w as [s|s| |s m e]; try contradiction.
  - cbn. split; [lia|]. rewrite Z.sub_diag, Z.pow_0_r. lia.
  - destruct s; [contradiction|]. destruct Hw as [He Hv].
    unfold SF64sub, SFsub. replace (Z.min ec e) with e by lia.
    pose proof (shl_align_spec m e e) as (_ & Hs2 & Hs3).
    pose proof (shl_align_spec mc ec e) as (_ & Ht2 & Ht3).
    rewrite Hs3 in Hs2 by lia. rewrite Ht3 in Ht2 by lia.
    rewrite Z.sub_diag, Z.pow_0_r, Z.mul_1_r in Hs2. rewrite Hs2, Ht2.
    unfold cond_Zopp.
    apply binary_normalize_within; try assumption; lia.
Qed.

Lemma SFadd_zero (mu : positive) (eu : Z) (w : spec_float) :
  within mu eu w -> within mu eu (SF64add (S754_zero false) w).
Proof.
  destruct w as [s|s| |s m e]; try contradiction.
  - intros _. now destruct s.
  - destruct s; [contradiction|]. intros H. exact H.
Qed.

(** A double between 0 and 1, times a positive [c], lies between 0 and [c]. *)
Lemma SFmul_unit (m1 mc : positive) (e1 ec : Z) (u : spec_float) :
  Zpos m1 = 2 ^ (- e1) -> e1 <= 0 ->
  SpecFloat.valid_binary prec emax (S754_finite false mc ec) = true ->
  within m1 e1 u ->
  within mc ec (SF64mul u (S754_finite false mc ec)).
Proof.
  intros H1 H1e Vc Hu. destruct (valid_canonical _ _ _ Vc) as [Cc Bc].
  destruct u as [s|s| |s m e]; try contradiction; [exact I|].
  destruct s; [contradiction|]. destruct Hu as [He Hv].
  unfold SF64mul, SFmul. cbn [xorb].
  rewrite H1, <- Z.pow_add_r in Hv by lia.
  replace (- e1 + (e1 - e)) with (- e) in Hv by lia.
  apply binary_round_aux_within; try assumption; try lia.
  rewrite Pos2Z.inj_mul. replace (ec - (e + ec)) with (- e) by lia.
  rewrite Z.mul_comm. apply Z.mul_le_mono_nonneg_l; lia.
Qed.

Lemma new_location_exact (n : Z) : new_location n 0 = loc_Exact.
Proof. unfold new_location. now destruct (Z.even n). Qed.

(** What lies between 0 and a positive [c], divided by [c], lies between 0
    and 1. *)
Lemma SFdiv_unit (m1 mc : positive) (e1 ec : Z) (t : spec_float) :
  Zpos m1 = 2 ^ (- e1) -> -53 <= e1 <= 0 ->
  SpecFloat.valid_binary prec emax (S754_finite false m1 e1) = true ->
  SpecFloat.valid_binary prec emax t = true ->
  within mc ec t ->
  within m1 e1 (SF64div t (S754_finite false mc ec)).
Proof.
  intros H1 H1e V1 Vt Ht. destruct (valid_canonical _ _ _ V1) as [C1 B1].
  destruct t as [s|s| |s m e]; try contradiction; [exact I|].
  destruct s; [contradiction|]. destruct Ht as [He Hv].
  unfold SF64div, SFdiv, SFdiv_core_binary. cbn [xorb].
  assert (Hd : Zdigits2 (Zpos m) + e <= Zdigits2 (Zpos mc) + ec).
  { cbn [Zdigits2].
    pose proof (digits2_pos_bounds m) as [Hlo _].
    pose proof (digits2_pos_bounds mc) as [_ Hhi].
    set (d := Zpos (digits2_pos m)) in *. set (dc := Zpos (digits2_pos mc)) in *.
    destruct (Z_lt_le_dec (dc + ec) (d + e)) as [L|L]; [exfalso|assumption].
    assert (Hp : 0 < 2 ^ (ec - e)) by (apply Z.pow_pos_nonneg; lia).
    assert (H2 : Zpos mc * 2 ^ (ec - e) < 2 ^ dc * 2 ^ (ec - e))
      by (apply Z.mul_lt_mono_pos_r; lia).
    rewrite <- Z.pow_add_r in H2 by (unfold dc; lia).
    assert (H3 : 2 ^ (dc + (ec - e)) <= 2 ^ (d - 1)) by (apply Z.pow_le_mono_r; lia).
    lia. }
  set (e' := Z.min _ (e - ec)).
  assert (He' : e' <= e1 /\ e' <= e - ec).
  { unfold e'. rewrite fexp64. lia. }
  set (k := e - ec - e').
  assert (Hk : 0 <= k) by (unfold k; lia).
  assert (Hke : ec - e + k = - e') by (unfold k; lia).
  clearbody k. clearbody e'. clear Hd.
  set (m' := match k with
             | Zpos _ => Z.shiftl (Zpos m) k
             | Z0 => Zpos m
             | Zneg _ => 0
             end).
  assert (Hm' : m' = Zpos m * 2 ^ k).
  { unfold m'. destruct k as [|p|p]; try lia.
    rewrite Z.shiftl_mul_pow2 by lia. reflexivity. }
  clearbody m'.
  pose proof (Z_div_mod m' (Zpos mc) eq_refl) as Hqr.
  destruct (Z.div_eucl m' (Zpos mc)) as [q r]. destruct Hqr as [Eq Hr].
  assert (Hpk : 0 < 2 ^ k) by (apply Z.pow_pos_nonneg; lia).
  assert (Hub : m' <= Zpos mc * 2 ^ (- e')).
  { rewrite Hm', <- Hke, Z.pow_add_r by lia.
    replace (Zpos mc * (2 ^ (ec - e) * 2 ^ k)) with (Zpos mc * 2 ^ (ec - e) * 2 ^ k) by ring.
    apply Z.mul_le_mono_nonneg_r; lia. }
  assert (Hq0 : 0 <= q) by nia.
  assert (Hqle : q <= 2 ^ (- e')) by nia.
  assert (Hb : Zpos m1 * 2 ^ (e1 - e') = 2 ^ (- e')).
  { rewrite H1, <- Z.pow_add_r by lia. f_equal. lia. }
  destruct (Z_lt_le_dec q (2 ^ (- e'))) as [L|L].
  - rewrite <- Hb in L.
    pose proof (binary_round_aux_le false m1 e1 q e' (new_location (Zpos mc) r)
                                    C1 B1 Hq0 (proj1 He') L) as H.
    destruct (binary_round_aux prec emax false q e' (new_location (Zpos mc) r))
      as [s'|s'| |s' m3 e3]; try contradiction; [exact I|].
    destruct H as (-> & H). exact H.
  - assert (Eqq : q = 2 ^ (- e')) by lia.
    assert (Er : r = 0) by nia.
    rewrite Er, new_location_exact, Eqq, <- Hb, binary_round_aux_exact by (assumption || lia).
    split; [lia|]. rewrite Z.sub_diag, Z.pow_0_r. lia.
Qed.

End Exactness.

(** ** The drawing area *)

Section DrawingArea.
Import Graph.

Lemma between_cases (lo hi v : number) :
  between lo hi v = true -> (lo <=? v)%float = true /\ (v <=? hi)%float = true.
Proof. unfold between. intros H. now apply andb_prop in H. Qed.

Lemma frame_leb (U v : number) (mu : positive) (eu : Z) :
  Prim2SF U = S754_finite false mu eu ->
  match Prim2SF v with
  | S754_zero _ => True
  | S754_finite false m e => (e <= eu)%Z /\ (Zpos m <= Zpos mu * 2 ^ (eu - e))%Z
  | _ => False
  end ->
  between 0 U v = true.
Proof.
  intros EU H. apply within_leb in H. destruct H as [H0 H1].
  unfold between. rewrite !leb_spec, Prim2SF_zero, EU, H0, H1. reflexivity.
Qed.

Lemma leb_frame (U v : number) (mu : positive) (eu : Z) :
  Prim2SF U = S754_finite false mu eu ->
  between 0 U v = true ->
  match Prim2SF v with
  | S754_zero _ => True
  | S754_finite false m e => (e <= eu)%Z /\ (Zpos m <= Zpos mu * 2 ^ (eu - e))%Z
  | _ => False
  end.
Proof.
  intros EU H. apply between_cases in H. destruct H as [H0 H1].
  rewrite leb_spec, Prim2SF_zero in H0. rewrite leb_spec, EU in H1.
  apply leb_within; try assumption; [apply Prim2SF_valid|].
  rewrite <- EU. apply Prim2SF_valid.
Qed.

(** From the abscissas [-5, 5] to [0, 1200]. *)
Lemma screenX_range (v : number) :
  between (-5) 5 v = true ->
  between 0 1200 (0 + ((v + 5) / 10) * 1200) = true.
Proof.
  intros H. apply between_cases in H. destruct H as [Hlo Hhi].
  rewrite leb_spec in Hlo, Hhi.
  assert (E5 : Prim2SF 5 = S754_finite false 5629499534213120 (-50)) by (vm_compute; reflexivity).
  assert (EL : Prim2SF (-5) = S754_finite true 5629499534213120 (-50)) by (vm_compute; reflexivity).
  assert (E10 : Prim2SF 10 = S754_finite false 5629499534213120 (-50 + 1)) by (vm_compute; reflexivity).
  assert (E1 : Prim2SF 1 = S754_finite false 4503599627370496 (-52)) by (vm_compute; reflexivity).
  assert (E12 : Prim2SF 1200 = S754_finite false 5277655813324800 (-42)) by (vm_compute; reflexivity).
  pose proof (Prim2SF_valid 5) as V5. rewrite E5 in V5.
  pose proof (Prim2SF_valid 10) as V10. rewrite E10 in V10.
  pose proof (Prim2SF_valid 1) as V1. rewrite E1 in V1.
  pose proof (Prim2SF_valid 1200) as V12. rewrite E12 in V12.
  rewrite EL in Hlo. rewrite E5 in Hhi.
  pose proof (SFadd_symmetric _ _ _ (Prim2SF_valid v) V5 V10 Hlo Hhi) as A.
  rewrite <- E5, <- add_spec in A.
  assert (P1 : (Zpos 4503599627370496 = 2 ^ (- -52))%Z) by (symmetry; exact two_52).
  pose proof (SFdiv_unit 4503599627370496 _ (-52) _ _ P1 ltac:(lia) V1 (Prim2SF_valid _) A) as D.
  rewrite <- E10, <- div_spec in D.
  pose proof (SFmul_unit 4503599627370496 _ (-52) _ _ P1 ltac:(lia) V12 D) as M.
  rewrite <- E12, <- mul_spec in M.
  apply SFadd_zero in M. rewrite <- Prim2SF_zero, <- add_spec in M.
  exact (frame_leb _ _ _ _ E12 M).
Qed.

(** From the ordinates [-1.5, 1.5] to [0, 500], upside down. *)
Lemma screenY_range (v : number) :
  between (-1.5) 1.5 v = true ->
  between 0 500 (500 - ((v + 1.5) / 3) * 500) = true.
Proof.
  intros H. apply between_cases in H. destruct H as [Hlo Hhi].
  rewrite leb_spec in Hlo, Hhi.
  assert (Ec : Prim2SF 1.5 = S754_finite false 6755399441055744 (-52)) by (vm_compute; reflexivity).
  assert (EL : Prim2SF (-1.5) = S754_finite true 6755399441055744 (-52)) by (vm_compute; reflexivity).
  assert (E3 : Prim2SF 3 = S754_finite false 6755399441055744 (-52 + 1)) by (vm_compute; reflexivity).
  assert (E1 : Prim2SF 1 = S754_finite false 4503599627370496 (-52)) by (vm_compute; reflexivity).
  assert (E5 : Prim2SF 500 = S754_finite false 8796093022208000 (-44)) by (vm_compute; reflexivity).
  pose proof (Prim2SF_valid 1.5) as Vc. rewrite Ec in Vc.
  pose proof (Prim2SF_valid 3) as V3. rewrite E3 in V3.
  pose proof (Prim2SF_valid 1) as V1. rewrite E1 in V1.
  pose proof (Prim2SF_valid 500) as V5. rewrite E5 in V5.
  rewrite EL in Hlo. rewrite Ec in Hhi.
  pose proof (SFadd_symmetric _ _ _ (Prim2SF_valid v) Vc V3 Hlo Hhi) as A.
  rewrite <- Ec, <- add_spec in A.
  assert (P1 : (Zpos 4503599627370496 = 2 ^ (- -52))%Z) by (symmetry; exact two_52).
  pose proof (SFdiv_unit 4503599627370496 _ (-52) _ _ P1 ltac:(lia) V1 (Prim2SF_valid _) A) as D.
  rewrite <- E3, <- div_spec in D.
  pose proof (SFmul_unit 4503599627370496 _ (-52) _ _ P1 ltac:(lia) V5 D) as M.
  rewrite <- E5, <- mul_spec in M.
  apply (SFsub_from _ _ _ V5) in M. rewrite <- E5, <- sub_spec in M.
  exact (frame_leb _ _ _ _ E5 M).
Qed.

(** [worldToScreen] maps the world window into the drawing area: an abscissa
    in [-5, 5] lands in [0, width] and an ordinate in [-1.5, 1.5] in
    [0, height], whatever the other coordinate is; the top left corner of the
    window goes to (0, 0), its centre to (600, 250) and its bottom right
    corner to (1200, 500). *)
Theorem worldToScreen_in_view (x0 y0 : number) :
  (between (-5) 5 x0 = true -> between 0 width (x (worldToScreen x0 y0)) = true)
  /\ (between (-1.5) 1.5 y0 = true -> between 0 height (y (worldToScreen x0 y0)) = true)
  /\ worldToScreen (-5) 1.5 = {| x := 0; y := 0 |}
  /\ worldToScreen 0 0 = {| x := 600; y := 250 |}
  /\ worldToScreen 5 (-1.5) = {| x := 1200; y := 500 |}.
Proof.
  split; [|split; [|split; [|split]]]; try (vm_compute; reflexivity).
  - intros H. exact (screenX_range x0 H).
  - intros H. exact (screenY_range y0 H).
Qed.

End DrawingArea.

(** ** The curve and the marker *)

Section Curve.
Import Graph.
Variables Math_exp Math_tanh : number -> number.

#[local] Abbreviation output := (Neuron.output Math_exp Math_tanh).
#[local] Abbreviation graphData := (Graph.graphData Math_exp Math_tanh).
#[local] Abbreviation graphPoint := (Graph.graphPoint Math_exp Math_tanh).

(** Once the counter has stopped by its test, more fuel changes nothing. *)
Lemma counter_stable (n k : nat) (i : number) :
  (List.length (counter n i) < n)%nat -> counter (n + k) i = counter n i.
Proof.
  revert i. induction n as [|n IH]; intros i H; [inversion H|].
  cbn [counter Nat.add] in *. destruct (i <=? numPoints)%float; [|reflexivity].
  f_equal. apply IH. cbn [List.length] in H. lia.
Qed.

Lemma counter_total (fuel : nat) :
  (1001 < fuel)%nat ->
  counter fuel 0 = counter 1002 0 /\ List.length (counter fuel 0) = 1001%nat.
Proof.
  intros H. replace fuel with (1002 + (fuel - 1002))%nat by lia.
  assert (L : List.length (counter 1002 0) = 1001%nat) by (vm_compute; reflexivity).
  rewrite counter_stable by (rewrite L; lia). now split.
Qed.

Lemma abscissas (i : number) :
  In i (counter 1002 0) -> between (-5) 5 (-5 + i * step) = true.
Proof.
  intros H.
  assert (A : forallb (fun i => between (-5) 5 (-5 + i * step)) (counter 1002 0) = true)
    by (vm_compute; reflexivity).
  rewrite forallb_forall in A. now apply A.
Qed.

Lemma graphPoint_output (f : ActivationFunction.t) (slope gain i : number) :
  graphPoint f slope gain i
  = worldToScreen (-5 + i * step)
      (Math_max [(-1.5)%float;
                 Math_min [1.5%float; output f (-5 + i * step) slope gain]]).
Proof. reflexivity. Qed.

Lemma between_finite (lo hi v : number) :
  is_infinity lo = false -> is_infinity hi = false ->
  between lo hi v = true -> is_nan v = false /\ is_infinity v = false.
Proof.
  intros Ilo Ihi H. apply between_cases in H. destruct H as [Hlo Hhi].
  split; [now apply (leb_not_nan_l _ hi)|].
  destruct (is_infinity v) eqn:I; [exfalso|reflexivity].
  unfold is_infinity in I. rewrite eqb_spec, abs_spec, Prim2SF_infinity in I.
  rewrite leb_spec in Hlo, Hhi.
  destruct (Prim2SF v) as [s|s| |s m e] eqn:E; try discriminate.
  destruct s.
  - destruct (Prim2SF lo) as [s'|s'| |s' m' e'] eqn:El; try discriminate.
    rewrite (is_infinity_spec lo _ El) in Ilo. discriminate.
  - destruct (Prim2SF hi) as [s'|s'| |s' m' e'] eqn:Eh; try discriminate;
      try (destruct s'; discriminate).
    rewrite (is_infinity_spec hi _ Eh) in Ihi. discriminate.
Qed.

(** The three activations that do not go through the host stay in [-1, 1]
    on the window, for a slope as the slope field stores it. *)
Lemma total_output_range (f : ActivationFunction.t) (v slope gain : number) :
  In f [Step; Sign; Linear] -> geb slope 1 = true ->
  between (-5) 5 v = true ->
  between (-1) 1 (output f v slope gain) = true.
Proof.
  intros Hf Hs Hv.
  destruct Hf as [<-|[<-|[<-|[]]]].
  - rewrite output_Step. cbn. now destruct (0 <=? v)%float.
  - rewrite output_Sign. cbn. now destruct (0 <? v)%float.
  - rewrite output_Linear, (slope_not_zero slope Hs).
    destruct (between_finite (-5) 5 v eq_refl eq_refl Hv) as [Nv Iv].
    apply clamp_range. apply quotient_not_nan; try assumption. now rewrite Iv.
Qed.

Lemma window_clamp (q : number) :
  is_nan q = false ->
  between (-1.5) 1.5 (Math_max [(-1.5)%float; Math_min [1.5%float; q]]) = true.
Proof. intros H. now apply clamp_between. Qed.

Lemma in_view_of_frame (p : Point) :
  between 0 width (x p) = true -> between 0 height (y p) = true ->
  ((x p <? padding)%float || gtb (x p) (width - padding)%float
   || (y p <? padding)%float || gtb (y p) (height - padding)%float) = false.
Proof.
  intros Hx Hy. apply between_cases in Hx, Hy.
  destruct Hx as [X0 X1], Hy as [Y0 Y1]. unfold gtb.
  change (width - padding)%float with width.
  change (height - padding)%float with height. change padding with 0%float.
  now rewrite (leb_ltb_false _ _ X0), (leb_ltb_false _ _ X1),
    (leb_ltb_false _ _ Y0), (leb_ltb_false _ _ Y1).
Qed.

Lemma currentPoint_shown (a out : number) :
  between (-1.5) 1.5 out = true ->
  between (-5) 5 a = true \/ is_nan a = true ->
  currentPoint a out = Some (worldToScreen a out).
Proof.
  intros Ho Ha. unfold currentPoint. cbv zeta.
  pose proof (screenY_range out Ho) as Hy.
  destruct Ha as [Ha|Ha].
  - pose proof (screenX_range a Ha) as Hx.
    now rewrite (in_view_of_frame (worldToScreen a out) Hx Hy).
  - apply is_nan_eq in Ha. subst a.
    apply between_cases in Hy. destruct Hy as [Y0 Y1].
    assert (Ex : x (worldToScreen nan out) = nan) by (vm_compute; reflexivity).
    rewrite Ex. unfold gtb.
    change (y (worldToScreen nan out)) with (500 - (out + 1.5) / 3 * 500)%float.
    change (height - padding)%float with 500%float. change padding with 0%float.
    rewrite (leb_ltb_false _ _ Y0), (leb_ltb_false _ _ Y1). reflexivity.
Qed.


(** The marker of the current point is drawn, at the screen image of the
    aggregated value and the output, whenever the aggregated value is within
    [-5, 5] and the selected function is Step, Sign or Linear with a slope of
    at least 1; the test that hides it lets an aggregated value that is NaN
    through, so that the marker is then drawn with an abscissa that is NaN;
    an aggregated value of 6 or of Infinity hides it. *)
Theorem currentPoint_drawn (f : ActivationFunction.t) (a slope gain out : number) :
  (In f [Step; Sign; Linear] -> geb slope 1 = true -> between (-5) 5 a = true ->
   currentPoint a (output f a slope gain)
   = Some (worldToScreen a (output f a slope gain)))
  /\ (between (-1.5) 1.5 out = true -> is_nan a = true ->
      currentPoint a out = Some (worldToScreen a out)
      /\ is_nan (x (worldToScreen a out)) = true)
  /\ currentPoint 6 out = None
  /\ currentPoint infinity out = None.
Proof.
  split; [|split; [|split]].
  - intros Hf Hs Ha. apply currentPoint_shown; [|now left].
    pose proof (total_output_range f a slope gain Hf Hs Ha) as H.
    apply between_cases in H. destruct H as [H1 H2]. unfold between.
    rewrite (leb_trans (-1.5) (-1) _ eq_refl H1), (leb_trans _ 1 1.5 H2 eq_refl).
    reflexivity.
  - intros Ho Ha. split; [apply currentPoint_shown; auto|].
    apply is_nan_eq in Ha. subst a. vm_compute. reflexivity.
  - vm_compute. reflexivity.
  - vm_compute. reflexivity.
Qed.

End Curve.


(** ** Unit parameters and saturation *)

Section Saturation.
#[local] Open Scope Z_scope.

Lemma Prim2SF_neg_one : Prim2SF (-1) = S754_finite true 4503599627370496 (-52).
Proof. vm_compute. reflexivity. Qed.

(** Multiplying by 1 or by -1 is exact. *)
Lemma SFmul_unit_l (s1 : bool) (x : spec_float) :
  SpecFloat.valid_binary prec emax x = true ->
  SF64mul (S754_finite s1 4503599627370496 (-52)) x = if s1 then SFopp x else x.
Proof.
  intros V. destruct x as [s|s| |s m e]; unfold SF64mul, SFmul.
  - now destruct s1.
  - now destruct s1.
  - now destruct s1.
  - destruct (valid_canonical _ _ _ V) as [C B].
    replace (Zpos (4503599627370496 * m)) with (Zpos m * 2 ^ (e - (-52 + e))).
    + rewrite binary_round_aux_exact by (assumption || lia). now destruct s1.
    + replace (e - (-52 + e)) with 52 by lia. rewrite two_52, Pos2Z.inj_mul. ring.
Qed.

Lemma mul_one_l (a : number) : (1 * a)%float = a.
Proof.
  apply Prim2SF_inj. rewrite mul_spec, Prim2SF_one.
  exact (SFmul_unit_l false _ (Prim2SF_valid a)).
Qed.

Lemma mul_neg_one_l (a : number) : (- (1) * a)%float = (- a)%float.
Proof.
  apply Prim2SF_inj. rewrite mul_spec, !opp_spec, Prim2SF_one.
  exact (SFmul_unit_l true _ (Prim2SF_valid a)).
Qed.

Lemma Zdigits2_two_52 : Zdigits2 (Zpos 4503599627370496) = 53.
Proof. vm_compute. reflexivity. Qed.

(** Dividing by 1 is exact. *)
Lemma SFdiv_one_r (x : spec_float) :
  SpecFloat.valid_binary prec emax x = true ->
  SF64div x (S754_finite false 4503599627370496 (-52)) = x.
Proof.
  intros V. destruct x as [s|s| |s m e]; unfold SF64div, SFdiv;
    try (now destruct s); try reflexivity.
  destruct (valid_canonical _ _ _ V) as [C B].
  unfold SFdiv_core_binary. rewrite Zdigits2_two_52. cbn [Zdigits2].
  set (e' := Z.min _ (e - -52)).
  assert (He' : e' <= e).
  { unfold e'. rewrite fexp64 in *. lia. }
  set (k := e - -52 - e').
  assert (Hk : k = 52 + (e - e')) by (unfold k; lia).
  clearbody k. clearbody e'.
  set (m' := match k with
             | Zpos _ => Z.shiftl (Zpos m) k
             | Z0 => Zpos m
             | Zneg _ => 0
             end).
  assert (Hm' : m' = Zpos m * 2 ^ (e - e') * 2 ^ 52).
  { unfold m'. destruct k as [|p|p]; try lia.
    rewrite Z.shiftl_mul_pow2 by lia. rewrite Hk, Z.pow_add_r by lia. ring. }
  clearbody m'.
  assert (Hp : 0 < 2 ^ 52) by (apply Z.pow_pos_nonneg; lia).
  assert (Ed : Z.div_eucl m' (Zpos 4503599627370496) = (Zpos m * 2 ^ (e - e'), 0)).
  { pose proof (Z_div_mod m' (Zpos 4503599627370496) eq_refl) as Hqr.
    destruct (Z.div_eucl m' (Zpos 4503599627370496)) as [q r].
    destruct Hqr as [Eq Hr]. rewrite <- two_52 in Eq, Hr. rewrite Hm' in Eq.
    assert (Hq : q = Zpos m * 2 ^ (e - e')) by nia.
    f_equal; [assumption|nia]. }
  rewrite Ed, new_location_exact, binary_round_aux_exact by assumption.
  now destruct s.
Qed.

Lemma div_one_r (a : number) : (a / 1)%float = a.
Proof.
  apply Prim2SF_inj. rewrite div_spec, Prim2SF_one.
  exact (SFdiv_one_r _ (Prim2SF_valid a)).
Qed.

(** A positive canonical [(mc, ec)] that denotes no more than [(mt, et)]:
    the quotient of [(mt, et)] by it, with the sign of [(mt, et)], is at
    least 1 in magnitude. *)
Lemma SFdiv_ge_one (s : bool) (mt mc : positive) (et ec : Z) :
  SpecFloat.valid_binary prec emax (S754_finite s mt et) = true ->
  ec <= et -> Zpos mc <= Zpos mt * 2 ^ (et - ec) ->
  match SF64div (S754_finite s mt et) (S754_finite false mc ec) with
  | S754_infinity s' => s' = s
  | S754_finite s' m e => s' = s /\ (e <= 0 -> 2 ^ (- e) <= Zpos m)
  | _ => False
  end.
Proof.
  intros V He Hv. destruct (valid_canonical _ _ _ V) as [C B].
  unfold SF64div, SFdiv, SFdiv_core_binary. cbn [Zdigits2].
  replace (xorb s false) with s by now destruct s.
  pose proof (digits2_pos_bounds mt) as [Htlo Hthi].
  pose proof (digits2_pos_bounds mc) as [Hclo Hchi].
  set (dt := Zpos (digits2_pos mt)) in *. set (dc := Zpos (digits2_pos mc)) in *.
  assert (Hdt : dt <= 53) by (rewrite fexp64 in C; lia).
  assert (Hdc : 1 <= dc) by (unfold dc; lia).
  set (e' := Z.min _ (et - ec)).
  assert (He' : e' <= et - ec /\ (0 < e' -> e' <= dt + et - (dc + ec) - 53)).
  { unfold e'. rewrite fexp64. lia. }
  set (k := et - ec - e').
  assert (Hk : k = et - ec - e') by reflexivity.
  clearbody k. clearbody e'.
  set (m' := match k with
             | Zpos _ => Z.shiftl (Zpos mt) k
             | Z0 => Zpos mt
             | Zneg _ => 0
             end).
  assert (Hm' : m' = Zpos mt * 2 ^ k).
  { unfold m'. destruct k as [|p|p]; try lia.
    rewrite Z.shiftl_mul_pow2 by lia. reflexivity. }
  clearbody m'.
  pose proof (Z_div_mod m' (Zpos mc) eq_refl) as Hqr.
  destruct (Z.div_eucl m' (Zpos mc)) as [q r]. destruct Hqr as [Eq Hr].
  assert (Hlow : e' <= 0 -> 2 ^ (- e') <= q).
  { intros L.
    assert (Hp : 0 < 2 ^ (- e')) by (apply Z.pow_pos_nonneg; lia).
    assert (H1 : Zpos mc * 2 ^ (- e') <= m').
    { rewrite Hm'. replace k with (et - ec + - e') by lia.
      rewrite Z.pow_add_r by lia.
      replace (Zpos mt * (2 ^ (et - ec) * 2 ^ (- e')))
        with (Zpos mt * 2 ^ (et - ec) * 2 ^ (- e')) by ring.
      apply Z.mul_le_mono_nonneg_r; lia. }
    nia. }
  assert (Hq1 : 1 <= q).
  { destruct (Z_le_gt_dec e' 0) as [L|L].
    - assert (1 <= 2 ^ (- e')) by (apply (Z.pow_le_mono_r 2 0 (- e')); lia).
      specialize (Hlow L). lia.
    - assert (Hkd : dc <= k) by lia.
      assert (H1 : 2 ^ dc <= 2 ^ k) by (apply Z.pow_le_mono_r; lia).
      assert (H2 : 1 * 2 ^ k <= m').
      { rewrite Hm'. apply Z.mul_le_mono_nonneg_r; [apply Z.pow_nonneg|]; lia. }
      nia. }
  pose proof (binary_round_aux_lower s q e' (new_location (Zpos mc) r) Hq1 Hlow) as H.
  destruct (binary_round_aux prec emax s q e' (new_location (Zpos mc) r))
    as [s'|s'| |s' m3 e3]; try contradiction; assumption.
Qed.

Lemma SFleb_neg_one (m : positive) (e : Z) :
  SpecFloat.valid_binary prec emax (S754_finite true m e) = true ->
  (e <= 0 -> 2 ^ (- e) <= Zpos m) ->
  SFleb (S754_finite true m e) (Prim2SF (-1)) = true.
Proof.
  intros Hv Hb. destruct (valid_canonical _ _ _ Hv) as [Hc _]. rewrite fexp64 in Hc.
  pose proof (digits2_pos_bounds m) as [_ Hhi].
  rewrite Prim2SF_neg_one. unfold SFleb, SFcompare.
  destruct (Z.compare_spec e (-52)) as [E|L|G].
  - subst e. assert (Hm : 2 ^ 52 <= Zpos m) by (apply Hb; lia).
    rewrite two_52 in Hm.
    rewrite Pos.compare_cont_spec. simpl Pos.switch_Eq.
    destruct (Pos.compare_spec m 4503599627370496) as [?|H|?]; try reflexivity.
    apply Pos2Z.pos_lt_pos in H. lia.
  - exfalso.
    assert (Hd : Zpos (digits2_pos m) <= 53) by lia.
    assert (Hp : 2 ^ Zpos (digits2_pos m) <= 2 ^ 53) by (apply Z.pow_le_mono_r; lia).
    assert (Hq : 2 ^ 53 <= 2 ^ (- e)) by (apply Z.pow_le_mono_r; lia).
    assert (2 ^ (- e) <= Zpos m) by (apply Hb; lia). lia.
  - reflexivity.
Qed.

Lemma div_ge_one (t c : number) :
  (0 <? c)%float = true -> is_infinity c = false -> (c <=? t)%float = true ->
  (1 <=? t / c)%float = true.
Proof.
  intros Hc Ic Hct.
  pose proof (ltb_leb_trans _ _ _ Hc Hct) as Ht.
  rewrite ltb_spec, Prim2SF_zero in Hc, Ht. rewrite leb_spec in Hct.
  pose proof (Prim2SF_valid (t / c)) as Vr.
  rewrite leb_spec, div_spec in *.
  pose proof (Prim2SF_valid t) as Vt. pose proof (Prim2SF_valid c) as Vc.
  destruct (pos_cases _ Hc) as [Ec|(mc & ec & Ec)].
  { rewrite (is_infinity_spec c _ Ec) in Ic. discriminate. }
  rewrite Ec in *. clear Ec.
  destruct (pos_cases _ Ht) as [Et|(mt & et & Et)]; rewrite Et in *; clear Et;
    [reflexivity|].
  assert (Hm : ec <= et /\ Zpos mc <= Zpos mt * 2 ^ (et - ec)).
  { apply (magnitude_le false false); try assumption.
    unfold SFleb, SFcompare in Hct.
    destruct (Z.compare_spec ec et) as [E|L|G]; [right|now left|discriminate].
    split; [assumption|].
    rewrite Pos.compare_cont_spec in Hct. simpl Pos.switch_Eq in Hct.
    destruct (Pos.compare_spec mc mt) as [E'|L|G]; try discriminate.
    - subst. lia.
    - apply Pos2Z.pos_lt_pos in L. lia. }
  destruct Hm as [He Hv].
  pose proof (SFdiv_ge_one false mt mc et ec Vt He Hv) as H.
  destruct (SF64div (S754_finite false mt et) (S754_finite false mc ec))
    as [s'|s'| |s' m3 e3]; try contradiction.
  - subst s'. reflexivity.
  - destruct H as [-> H]. now apply SFleb_one_l.
Qed.

Lemma div_le_neg_one (t c : number) :
  (0 <? c)%float = true -> is_infinity c = false -> (t <=? - c)%float = true ->
  (t / c <=? -1)%float = true.
Proof.
  intros Hc Ic Hct.
  rewrite ltb_spec, Prim2SF_zero in Hc. rewrite leb_spec, opp_spec in Hct.
  pose proof (Prim2SF_valid (t / c)) as Vr.
  rewrite leb_spec, div_spec in *.
  pose proof (Prim2SF_valid t) as Vt. pose proof (Prim2SF_valid c) as Vc.
  destruct (pos_cases _ Hc) as [Ec|(mc & ec & Ec)].
  { rewrite (is_infinity_spec c _ Ec) in Ic. discriminate. }
  rewrite Ec in *. clear Ec. cbn [SFopp negb] in Hct.
  destruct (Prim2SF t) as [s|s| |s mt et] eqn:Et; try discriminate;
    destruct s; try discriminate; [reflexivity|].
  assert (Hm : ec <= et /\ Zpos mc <= Zpos mt * 2 ^ (et - ec)).
  { apply (magnitude_le false true); try assumption.
    unfold SFleb, SFcompare in Hct.
    destruct (Z.compare_spec et ec) as [E|L|G]; [right|discriminate|now left].
    split; [now symmetry|].
    rewrite Pos.compare_cont_spec in Hct. simpl Pos.switch_Eq in Hct.
    destruct (Pos.compare_spec mt mc) as [E'|L|G]; try discriminate.
    - subst. lia.
    - apply Pos2Z.pos_lt_pos in G. lia. }
  destruct Hm as [He Hv].
  pose proof (SFdiv_ge_one true mt mc et ec Vt He Hv) as H.
  destruct (SF64div (S754_finite true mt et) (S754_finite false mc ec))
    as [s'|s'| |s' m3 e3]; try contradiction.
  - subst s'. reflexivity.
  - destruct H as [-> H]. now apply SFleb_neg_one.
Qed.

End Saturation.

Section Clamp.
Variables Math_exp Math_tanh : number -> number.

#[local] Abbreviation output := (Neuron.output Math_exp Math_tanh).

Lemma leb_antisym (a b : number) :
  (a <=? b)%float = true -> (b <=? a)%float = true -> is_zero a = false -> a = b.
Proof.
  rewrite !leb_spec. intros H1 H2 Hz. apply Prim2SF_inj.
  unfold is_zero in Hz. rewrite eqb_spec in Hz. change (Prim2SF zero) with (S754_zero false) in Hz.
  unfold SFleb in H1, H2. rewrite (SFcompare_antisym (Prim2SF a) (Prim2SF b)) in H2.
  destruct (Prim2SF a) as [sa|sa| |sa ma ea], (Prim2SF b) as [sb|sb| |sb mb eb];
    try discriminate; try (destruct sa; discriminate);
    try (destruct sa, sb; discriminate || reflexivity).
  unfold SFcompare in H1, H2.
  destruct sa, sb; try discriminate;
    (destruct (Z.compare_spec ea eb) as [E|L|G]; try discriminate; subst;
     rewrite Pos.compare_cont_spec in H1, H2; simpl Pos.switch_Eq in H1, H2;
     destruct (Pos.compare_spec ma mb) as [E'|L|G]; try discriminate; now subst).
Qed.

(** [Math.max(-1, Math.min(1, q))] at and beyond the ends, and within. *)
Lemma clamp_cases (q : number) :
  ((1 <=? q)%float = true -> Math_max [(-1)%float; Math_min [1%float; q]] = 1%float)
  /\ ((q <=? -1)%float = true ->
      Math_max [(-1)%float; Math_min [1%float; q]] = (-1)%float)
  /\ (between (-1) 1 q = true -> Math_max [(-1)%float; Math_min [1%float; q]] = q).
Proof.
  assert (Hmin : is_nan q = false ->
                 (Math_min [1%float; q] = 1%float \/ Math_min [1%float; q] = q)
                 /\ (Math_min [1%float; q] <=? 1)%float = true
                 /\ (Math_min [1%float; q] <=? q)%float = true).
  { intros Nq.
    destruct (Math_min_spec [1%float; q]) as [Hin Hle];
      [discriminate|simpl; now rewrite Nq|].
    split; [|split].
    - destruct Hin as [H|[H|[]]]; auto.
    - apply Hle. now left.
    - apply Hle. right. now left. }
  assert (Hmax : forall p, is_nan p = false ->
                 (Math_max [(-1)%float; p] = (-1)%float \/ Math_max [(-1)%float; p] = p)
                 /\ (-1 <=? Math_max [(-1)%float; p])%float = true
                 /\ (p <=? Math_max [(-1)%float; p])%float = true).
  { intros p Np.
    destruct (Math_max_spec [(-1)%float; p]) as [Hin Hle];
      [discriminate|simpl; now rewrite Np|].
    split; [|split].
    - destruct Hin as [H|[H|[]]]; auto.
    - apply Hle. now left.
    - apply Hle. right. now left. }
  unfold number in *. split; [|split].
  - intros H. pose proof (leb_not_nan_r _ _ H) as Nq.
    destruct (Hmin Nq) as (Hc & H1 & H2).
    assert (E : Math_min [1%float; q] = 1%float).
    { destruct Hc as [Hc|Hc]; [assumption|]. rewrite Hc in H1 |- *.
      symmetry. now apply leb_antisym. }
    rewrite E. vm_compute. reflexivity.
  - intros H. pose proof (leb_not_nan_l _ _ H) as Nq.
    destruct (Hmin Nq) as (Hc & H1 & H2).
    assert (E : Math_min [1%float; q] = q).
    { destruct Hc as [Hc|Hc]; [exfalso|assumption]. rewrite Hc in H2.
      pose proof (leb_trans _ _ _ H2 H) as C. vm_compute in C. discriminate. }
    rewrite E. destruct (Hmax q Nq) as (Hd & H3 & H4).
    destruct Hd as [Hd|Hd]; [assumption|]. rewrite Hd in H3 |- *.
    symmetry. now apply leb_antisym.
  - intros H. apply between_cases in H. destruct H as [Hlo Hhi].
    pose proof (leb_not_nan_l _ _ Hhi) as Nq.
    destruct (Hmin Nq) as (Hc & H1 & H2).
    assert (E : Math_min [1%float; q] = q).
    { destruct Hc as [Hc|Hc]; [|assumption]. rewrite Hc in H2 |- *.
      now apply leb_antisym. }
    rewrite E. destruct (Hmax q Nq) as (Hd & H3 & H4).
    destruct Hd as [Hd|Hd]; [|assumption]. rewrite Hd in H4 |- *.
    now apply leb_antisym.
Qed.

(** The slope is where the linear activation saturates: for a slope of at
    least 1 that is finite, the output is 1 from the slope on and -1 up to
    the opposite of the slope, infinite aggregated values included. *)
Theorem linear_saturates (a slope gain : number) :
  geb slope 1 = true -> is_infinity slope = false ->
  ((slope <=? a)%float = true -> output Linear a slope gain = 1%float)
  /\ ((a <=? - slope)%float = true -> output Linear a slope gain = (-1)%float).
Proof.
  intros Hs Is.
  assert (Hp : (0 <? slope)%float = true)
    by (apply (ltb_leb_trans 0 1); [reflexivity|exact Hs]).
  rewrite output_Linear, (slope_not_zero slope Hs).
  split; intros H.
  - apply clamp_cases. now apply div_ge_one.
  - apply clamp_cases. now apply div_le_neg_one.
Qed.

(** With the parameters at 1 the selected function is applied as it is: the
    sigmoid and the hyperbolic tangent of gain 1 are the plain ones, and the
    linear activation of slope 1 is the identity on [-1, 1]. *)
Theorem unit_parameters (a slope gain : number) :
  output (Sigmoid Math_exp) a slope 1 = ActivationFunction.fn (Sigmoid Math_exp) a
  /\ output (Tanh Math_tanh) a slope 1 = ActivationFunction.fn (Tanh Math_tanh) a
  /\ (between (-1) 1 a = true ->
      output Linear a 1 gain = ActivationFunction.fn Linear a).
Proof.
  split; [|split].
  - unfold Neuron.output. cbn. now rewrite mul_neg_one_l.
  - unfold Neuron.output. cbn. now rewrite mul_one_l.
  - intros H. rewrite output_Linear. cbn. rewrite div_one_r.
    now apply clamp_cases.
Qed.

End Clamp.

Lemma linear_saturates_at_3 :
  geb 2 1 = true /\ is_infinity 2 = false
  /\ output (fun v => v) (fun v => v) Linear 3 2 1 = 1%float.
Proof.
  split; [reflexivity|]. split; [reflexivity|].
  exact (proj1 (linear_saturates (fun v => v) (fun v => v) 3 2 1 eq_refl eq_refl)
               eq_refl).
Defined.
